(** * PriceIsRight: exact win probabilities of the three-contestant wheel game

    A shallow embedding of the repository's C++ sources:
    - [fraction.cpp] (class [Fraction], rationals over [long long]);
    - [assumptions.cpp] (class [Assumption], a value with narrowing bounds);
    - [dynamic_programming.cpp] (the three-stage backward induction);
    - the later variant of the solver that also carries the simulator
      (module [Simulation] below).

    Scores, spins and table indices are C++ [int]s that stay between 0 and
    41 in every loop of the program; they are modelled as [nat].  The
    [long long] fields of a [Fraction] are modelled as [Z], and every
    [long long] result goes through an explicit arithmetic model
    ([machine]: two's-complement wrap-around at 64 bits). *)

From Stdlib Require Import ZArith List Lia Bool String QArith Qminmax Lqa.
Import ListNotations.
Open Scope Z_scope.

(** ** Outcomes of a computation: a value, or the way the program stops *)

Inductive error : Type :=
| RuntimeError (what : string)   (* throw std::runtime_error(what) *)
| AssertionFailed                (* assert(e) with e false: abort *)
| Overflow.                      (* reported by the checked arithmetic only *)

Inductive outcome (A : Type) : Type :=
| Ok (a : A)
| Fail (e : error).
Arguments Ok {A} a.
Arguments Fail {A} e.

Definition obind {A B : Type} (m : outcome A) (k : A -> outcome B) : outcome B :=
  match m with
  | Ok a => k a
  | Fail e => Fail e
  end.

Notation "'let!' x ':=' m 'in' k" := (obind m (fun x => k))
  (at level 10, x name, m at level 100, k at level 200).

(** ** Arithmetic models for [long long] *)

Definition LLONG_MIN : Z := Eval cbv in - 2 ^ 63.
Definition LLONG_MAX : Z := Eval cbv in 2 ^ 63 - 1.
Definition two64 : Z := Eval cbv in 2 ^ 64.

Definition in_range (z : Z) : bool := (LLONG_MIN <=? z) && (z <=? LLONG_MAX).

(** Reduction modulo 2^64 into the signed range; a value already in range
    is kept as it is. *)
Definition wrap64 (z : Z) : Z :=
  if in_range z then z else (z - LLONG_MIN) mod two64 + LLONG_MIN.

(** An arithmetic model tells what is stored when the mathematical result
    of a [long long] operation is [z]. *)
Definition arith : Type := Z -> outcome Z.

(** The program as compiled: results wrap around at 64 bits. *)
Definition machine : arith := fun z => Ok (wrap64 z).
(** The same program with every result checked against the 64-bit range. *)
Definition checked : arith := fun z => if in_range z then Ok z else Fail Overflow.
(** Unbounded integers: what the operations mean mathematically. *)
Definition ideal : arith := fun z => Ok z.

(** ** fraction.cpp *)

Record Fraction : Type := mkFraction { numerator : Z; denominator : Z }.

(** [Fraction()] : 0/1. *)
Definition Fraction_default : Fraction := mkFraction 0 1.

(** [operator==] : structural. *)
Definition op_eq (a b : Fraction) : bool :=
  (numerator a =? numerator b) && (denominator a =? denominator b).

Section FractionOps.
Variable ll : arith.

(** [simplify()].  [std::gcd] works on the absolute values. *)
Definition simplify (f : Fraction) : outcome Fraction :=
  if denominator f =? 0 then Fail (RuntimeError "Denominator cannot be zero")
  else if numerator f =? 0 then Ok (mkFraction (numerator f) 1)
  else
    let! an := ll (Z.abs (numerator f)) in
    let! ad := ll (Z.abs (denominator f)) in
    let! common_divisor := ll (Z.gcd an ad) in
    let! n := ll (Z.quot (numerator f) common_divisor) in
    let! d := ll (Z.quot (denominator f) common_divisor) in
    if d <? 0 then
      let! n' := ll (n * -1) in
      let! d' := ll (d * -1) in
      Ok (mkFraction n' d')
    else Ok (mkFraction n d).

(** [Fraction(num, denom)]. *)
Definition Fraction_ (num denom : Z) : outcome Fraction :=
  simplify (mkFraction num denom).

(** [operator+]. *)
Definition op_add (a b : Fraction) : outcome Fraction :=
  let! x := ll (numerator a * denominator b) in
  let! y := ll (numerator b * denominator a) in
  let! new_num := ll (x + y) in
  let! new_den := ll (denominator a * denominator b) in
  Fraction_ new_num new_den.

(** [operator-]. *)
Definition op_sub (a b : Fraction) : outcome Fraction :=
  let! x := ll (numerator a * denominator b) in
  let! y := ll (numerator b * denominator a) in
  let! new_num := ll (x - y) in
  let! new_den := ll (denominator a * denominator b) in
  Fraction_ new_num new_den.

(** [operator*]. *)
Definition op_mul (a b : Fraction) : outcome Fraction :=
  let! new_num := ll (numerator a * numerator b) in
  let! new_den := ll (denominator a * denominator b) in
  Fraction_ new_num new_den.

(** [operator/]. *)
Definition op_div (a b : Fraction) : outcome Fraction :=
  if numerator b =? 0 then Fail (RuntimeError "Division by zero")
  else
    let! new_num := ll (numerator a * denominator b) in
    let! new_den := ll (denominator a * numerator b) in
    Fraction_ new_num new_den.

(** [operator<=>] : cross multiplication. *)
Definition op_cmp (a b : Fraction) : outcome comparison :=
  let! lhs := ll (numerator a * denominator b) in
  let! rhs := ll (numerator b * denominator a) in
  Ok (lhs ?= rhs).

(** The relational operators the compiler derives from [operator<=>]. *)
Definition op_lt (a b : Fraction) : outcome bool :=
  let! c := op_cmp a b in Ok (match c with Lt => true | _ => false end).
Definition op_gt (a b : Fraction) : outcome bool :=
  let! c := op_cmp a b in Ok (match c with Gt => true | _ => false end).
Definition op_le (a b : Fraction) : outcome bool :=
  let! c := op_cmp a b in Ok (match c with Gt => false | _ => true end).
Definition op_ge (a b : Fraction) : outcome bool :=
  let! c := op_cmp a b in Ok (match c with Lt => false | _ => true end).

(** [std::max(a, b)] is [(a < b) ? b : a]; [std::min(a, b)] is
    [(b < a) ? b : a]. *)
Definition std_max (a b : Fraction) : outcome Fraction :=
  let! c := op_lt a b in Ok (if c then b else a).
Definition std_min (a b : Fraction) : outcome Fraction :=
  let! c := op_lt b a in Ok (if c then b else a).
End FractionOps.

(** ** assumptions.cpp *)

Record Assumption : Type := mkAssumption {
  value : Fraction;       (* Current assumed value *)
  min_bound : Fraction;   (* Minimum possible value for which the assumption holds *)
  max_bound : Fraction;   (* Maximum possible value for which the assumption holds *)
  name : string           (* Identifier for this assumption *)
}.

Definition set_min_bound (a : Assumption) (f : Fraction) : Assumption :=
  mkAssumption (value a) f (max_bound a) (name a).
Definition set_max_bound (a : Assumption) (f : Fraction) : Assumption :=
  mkAssumption (value a) (min_bound a) f (name a).

Section AssumptionOps.
Variable ll : arith.

(** The constructor with its default bounds [Fraction(0, 100)] and
    [Fraction(100, 100)]. *)
Definition Assumption_ (initial_value : Fraction) (var_name : string)
  : outcome Assumption :=
  let! initial_min := Fraction_ ll 0 100 in
  let! initial_max := Fraction_ ll 100 100 in
  Ok (mkAssumption initial_value initial_min initial_max var_name).

(** The comparison operators are not [const]: each returns its verdict
    together with the object as it is after the call. *)

(** [bool operator>(const Fraction& other)]. *)
Definition Assumption_gt (a : Assumption) (other : Fraction)
  : outcome (bool * Assumption) :=
  let! c := op_gt ll (value a) other in
  if c then
    let! m := std_max ll (min_bound a) other in
    Ok (true, set_min_bound a m)
  else
    let! m := std_min ll (max_bound a) other in
    Ok (false, set_max_bound a m).

(** [bool operator<(const Fraction& other)]. *)
Definition Assumption_lt (a : Assumption) (other : Fraction)
  : outcome (bool * Assumption) :=
  let! c := op_lt ll (value a) other in
  if c then
    let! m := std_min ll (max_bound a) other in
    Ok (true, set_max_bound a m)
  else
    let! m := std_max ll (min_bound a) other in
    Ok (false, set_min_bound a m).

(** [operator>=] negates [operator<] and [operator<=] negates
    [operator>], each applied to the same object. *)
Definition Assumption_ge (a : Assumption) (other : Fraction)
  : outcome (bool * Assumption) :=
  let! r := Assumption_lt a other in Ok (negb (fst r), snd r).
Definition Assumption_le (a : Assumption) (other : Fraction)
  : outcome (bool * Assumption) :=
  let! r := Assumption_gt a other in Ok (negb (fst r), snd r).


(** [is_valid(true_value)]; [&&] evaluates its right operand only when
    the left one is true. *)
Definition is_valid (a : Assumption) (true_value : Fraction) : outcome bool :=
  let! l := op_le ll (min_bound a) true_value in
  if l then op_le ll true_value (max_bound a) else Ok false.
End AssumptionOps.

(** ** The global tables

    The C++ globals are zero-initialised arrays of [Fraction] (each entry
    starts as [Fraction()], that is 0/1).  An array is the list of its
    elements; an entry is read with [nth] and written with [upd].  Every
    loop of the program keeps its indices inside the declared bounds.
    Outside them C++ gives no meaning to an access; the model reads the
    default element there, and a write extends the list with default
    elements, so that reading back what was written needs no side
    condition. *)

Fixpoint upd {A : Type} (d : A) (i : nat) (f : A -> A) (l : list A) : list A :=
  match i, l with
  | O, [] => [f d]
  | O, x :: t => f x :: t
  | S j, [] => d :: upd d j f []
  | S j, x :: t => x :: upd d j f t
  end.

Definition arr1 : Type := list Fraction.
Definition arr2 : Type := list arr1.
Definition arr3 : Type := list arr2.
Definition arr4 : Type := list arr3.
Definition arr5 : Type := list arr4.

Definition at1 (t : arr1) (a : nat) : Fraction := nth a t Fraction_default.
Definition at2 (t : arr2) (a b : nat) : Fraction := at1 (nth a t []) b.
Definition at3 (t : arr3) (a b c : nat) : Fraction := at2 (nth a t []) b c.
Definition at4 (t : arr4) (a b c d : nat) : Fraction := at3 (nth a t []) b c d.
Definition at5 (t : arr5) (a b c d e : nat) : Fraction := at4 (nth a t []) b c d e.

Definition put1 (a : nat) (v : Fraction) (t : arr1) : arr1 :=
  upd Fraction_default a (fun _ => v) t.
Definition put2 (a b : nat) (v : Fraction) (t : arr2) : arr2 := upd [] a (put1 b v) t.
Definition put3 (a b c : nat) (v : Fraction) (t : arr3) : arr3 := upd [] a (put2 b c v) t.
Definition put4 (a b c d : nat) (v : Fraction) (t : arr4) : arr4 :=
  upd [] a (put3 b c d v) t.
Definition put5 (a b c d e : nat) (v : Fraction) (t : arr5) : arr5 :=
  upd [] a (put4 b c d e v) t.

Record globals : Type := mkGlobals {
  (* (1st player total) (2nd player total) (3rd player spin) (spin again) (player # - 1) *)
  third_player_probability : arr5;          (* [21][21][21][2][3] *)
  (* (1st player total) (2nd player total) (player # - 1) *)
  third_player_policy_probability : arr3;   (* [21][21][3] *)
  (* (1st player total) (2nd player spin) (spin again) (player # - 1) *)
  second_player_probability : arr4;         (* [21][21][2][3] *)
  (* (1st player total) (player # - 1) *)
  second_player_policy_probability : arr2;  (* [21][3] *)
  (* (1st player spin) (spin again) (player # - 1) *)
  first_player_probability : arr3;          (* [21][2][3] *)
  (* (player # - 1) *)
  first_player_policy_probability : arr1    (* [3] *)
}.

Definition zeros1 (n : nat) : arr1 := repeat Fraction_default n.
Definition zeros2 (m n : nat) : arr2 := repeat (zeros1 n) m.
Definition zeros3 (l m n : nat) : arr3 := repeat (zeros2 m n) l.
Definition zeros4 (k l m n : nat) : arr4 := repeat (zeros3 l m n) k.
Definition zeros5 (j k l m n : nat) : arr5 := repeat (zeros4 k l m n) j.

(** The globals at program start. *)
Definition initial_globals : globals :=
  mkGlobals (zeros5 21 21 21 2 3) (zeros3 21 21 3) (zeros4 21 21 2 3)
            (zeros2 21 3) (zeros3 21 2 3) (zeros1 3).

Definition with_third (f : arr5 -> arr5) (g : globals) : globals :=
  mkGlobals (f (third_player_probability g)) (third_player_policy_probability g)
            (second_player_probability g) (second_player_policy_probability g)
            (first_player_probability g) (first_player_policy_probability g).
Definition with_third_policy (f : arr3 -> arr3) (g : globals) : globals :=
  mkGlobals (third_player_probability g) (f (third_player_policy_probability g))
            (second_player_probability g) (second_player_policy_probability g)
            (first_player_probability g) (first_player_policy_probability g).
Definition with_second (f : arr4 -> arr4) (g : globals) : globals :=
  mkGlobals (third_player_probability g) (third_player_policy_probability g)
            (f (second_player_probability g)) (second_player_policy_probability g)
            (first_player_probability g) (first_player_policy_probability g).
Definition with_second_policy (f : arr2 -> arr2) (g : globals) : globals :=
  mkGlobals (third_player_probability g) (third_player_policy_probability g)
            (second_player_probability g) (f (second_player_policy_probability g))
            (first_player_probability g) (first_player_policy_probability g).
Definition with_first (f : arr3 -> arr3) (g : globals) : globals :=
  mkGlobals (third_player_probability g) (third_player_policy_probability g)
            (second_player_probability g) (second_player_policy_probability g)
            (f (first_player_probability g)) (first_player_policy_probability g).
Definition with_first_policy (f : arr1 -> arr1) (g : globals) : globals :=
  mkGlobals (third_player_probability g) (third_player_policy_probability g)
            (second_player_probability g) (second_player_policy_probability g)
            (first_player_probability g) (f (first_player_policy_probability g)).

(** ** Code that reads and writes the globals and may stop the program *)

Definition M (A : Type) : Type := globals -> outcome (A * globals).

Definition ret {A : Type} (a : A) : M A := fun g => Ok (a, g).
Definition bind {A B : Type} (m : M A) (k : A -> M B) : M B :=
  fun g =>
    match m g with
    | Ok (a, g') => k a g'
    | Fail e => Fail e
    end.
Definition lift {A : Type} (o : outcome A) : M A :=
  fun g => match o with Ok a => Ok (a, g) | Fail e => Fail e end.
Definition read {A : Type} (f : globals -> A) : M A := fun g => Ok (f g, g).
Definition write (f : globals -> globals) : M unit := fun g => Ok (tt, f g).
(** A policy is called through a function pointer; it may look at the
    globals as they are at the time of the call. *)
Definition call {A : Type} (f : globals -> outcome A) : M A :=
  fun g => match f g with Ok a => Ok (a, g) | Fail e => Fail e end.
Definition assert (b : bool) : M unit :=
  fun g => if b then Ok (tt, g) else Fail AssertionFailed.

Notation "x <- m ;; k" := (bind m (fun x => k))
  (at level 61, m at next level, right associativity).
Notation "m ;;; k" := (bind m (fun _ => k))
  (at level 61, right associativity).

(** [for (int i = lo; i <= hi; i++) body]. *)
Fixpoint for_each (l : list nat) (body : nat -> M unit) : M unit :=
  match l with
  | [] => ret tt
  | i :: t => body i ;;; for_each t body
  end.
Definition for_ (lo hi : nat) (body : nat -> M unit) : M unit :=
  for_each (seq lo (hi + 1 - lo)) body.

(** The same loop when it updates local variables [s]. *)
Fixpoint fold_each {S : Type} (l : list nat) (body : nat -> S -> M S) (s : S) : M S :=
  match l with
  | [] => ret s
  | i :: t => s' <- body i s ;; fold_each t body s'
  end.
Definition fold_ {S : Type} (lo hi : nat) (body : nat -> S -> M S) (s : S) : M S :=
  fold_each (seq lo (hi + 1 - lo)) body s.

(** The policies handed to [initialize_dp_tables]. *)
Definition policy3 : Type := globals -> nat -> nat -> nat -> outcome Fraction.
Definition policy2 : Type := globals -> nat -> nat -> outcome Fraction.
Definition policy1 : Type := globals -> nat -> outcome Fraction.

(** ** What the two versions of the solver share *)

Section SolverCommon.
Variable ll : arith.

(** Optimal 3rd player policy. *)
Definition third_player_optimal_policy : policy3 :=
  fun g player1_score player2_score spin1 =>
    if (spin1 =? 0)%nat then Fraction_ ll 0 1 (* Always do a first spin *)
    else
      let win_prob_if_spin :=
        at5 (third_player_probability g) player1_score player2_score spin1 1 2 in
      let win_prob_if_no_spin :=
        at5 (third_player_probability g) player1_score player2_score spin1 0 2 in
      let! c := op_gt ll win_prob_if_spin win_prob_if_no_spin in
      if c then Fraction_ ll 1 1 else Fraction_ ll 0 1.

(** Optimal 2nd player policy. *)
Definition second_player_optimal_policy : policy2 :=
  fun g player1_score spin1 =>
    if (spin1 =? 0)%nat then Fraction_ ll 0 1 (* Always do a first spin *)
    else
      let win_prob_if_spin := at4 (second_player_probability g) player1_score spin1 1 1 in
      let win_prob_if_no_spin := at4 (second_player_probability g) player1_score spin1 0 1 in
      let! c := op_gt ll win_prob_if_spin win_prob_if_no_spin in
      if c then Fraction_ ll 1 1 else Fraction_ ll 0 1.

(** The policy of the 1st player; it reads entry [1] of the
    player dimension, as the source does. *)
Definition first_player_optimal_policy : policy1 :=
  fun g spin1 =>
    if (spin1 =? 0)%nat then Fraction_ ll 0 1 (* Always do a first spin *)
    else
      let win_prob_if_spin := at3 (first_player_probability g) spin1 1 1 in
      let win_prob_if_no_spin := at3 (first_player_probability g) spin1 0 1 in
      let! c := op_gt ll win_prob_if_spin win_prob_if_no_spin in
      if c then Fraction_ ll 1 1 else Fraction_ ll 0 1.

(** [(a + b + c) == Fraction(1, 1)], the condition of every [assert]. *)
Definition sums_to_one (a b c : Fraction) : outcome bool :=
  let! s := op_add ll a b in
  let! s' := op_add ll s c in
  let! one := Fraction_ ll 1 1 in
  Ok (op_eq s' one).

(** [acc += spin_probability * (policy * again + (Fraction(1, 1) - policy) * stop)]. *)
Definition accumulate (spin_probability policy again stop acc : Fraction)
  : outcome Fraction :=
  let! a := op_mul ll policy again in
  let! one := Fraction_ ll 1 1 in
  let! b := op_sub ll one policy in
  let! c := op_mul ll b stop in
  let! s := op_add ll a c in
  let! r := op_mul ll spin_probability s in
  op_add ll acc r.

(** [second_player_probability[p1][spin1][spinAgain][k] += prob * t]. *)
Definition second_add (p1 spin1 spinAgain k : nat) (prob t : Fraction) : M unit :=
  cur <- read (fun g => at4 (second_player_probability g) p1 spin1 spinAgain k) ;;
  x <- lift (op_mul ll prob t) ;;
  y <- lift (op_add ll cur x) ;;
  write (with_second (put4 p1 spin1 spinAgain k y)).

(** The body of the loops over the 2nd player's options. *)
Definition second_player_options_at (p1 spin1 spinAgain : nat) : M unit :=
  if (spinAgain =? 0)%nat then (* Don't spin again *)
    v0 <- read (fun g => at3 (third_player_policy_probability g) p1 spin1 0) ;;
    write (with_second (put4 p1 spin1 spinAgain 0 v0)) ;;;
    v1 <- read (fun g => at3 (third_player_policy_probability g) p1 spin1 1) ;;
    write (with_second (put4 p1 spin1 spinAgain 1 v1)) ;;;
    v2 <- read (fun g => at3 (third_player_policy_probability g) p1 spin1 2) ;;
    write (with_second (put4 p1 spin1 spinAgain 2 v2))
  else (* Spin again *)
    z0 <- lift (Fraction_ ll 0 1) ;;
    write (with_second (put4 p1 spin1 spinAgain 0 z0)) ;;;
    z1 <- lift (Fraction_ ll 0 1) ;;
    write (with_second (put4 p1 spin1 spinAgain 1 z1)) ;;;
    z2 <- lift (Fraction_ ll 0 1) ;;
    write (with_second (put4 p1 spin1 spinAgain 2 z2)) ;;;
    prob_new_spin <- lift (Fraction_ ll 1 20) ;;
    for_ 1 20 (fun new_spin =>
      let p2total :=
        if (20 <? spin1 + new_spin)%nat then 0%nat else (spin1 + new_spin)%nat in
      t0 <- read (fun g => at3 (third_player_policy_probability g) p1 p2total 0) ;;
      second_add p1 spin1 spinAgain 0 prob_new_spin t0 ;;;
      t1 <- read (fun g => at3 (third_player_policy_probability g) p1 p2total 1) ;;
      second_add p1 spin1 spinAgain 1 prob_new_spin t1 ;;;
      t2 <- read (fun g => at3 (third_player_policy_probability g) p1 p2total 2) ;;
      second_add p1 spin1 spinAgain 2 prob_new_spin t2) ;;;
    a <- read (fun g => at4 (second_player_probability g) p1 spin1 spinAgain 0) ;;
    b <- read (fun g => at4 (second_player_probability g) p1 spin1 spinAgain 1) ;;
    c <- read (fun g => at4 (second_player_probability g) p1 spin1 spinAgain 2) ;;
    ok <- lift (sums_to_one a b c) ;;
    assert ok.

(** Calculate the 2nd player's options. *)
Definition second_player_options : M unit :=
  for_ 0 20 (fun p1 =>
  for_ 0 20 (fun spin1 =>
  for_ 0 1 (fun spinAgain => second_player_options_at p1 spin1 spinAgain))).

(** [first_player_probability[spin1][spinAgain][k] += prob * t]. *)
Definition first_add (spin1 spinAgain k : nat) (prob t : Fraction) : M unit :=
  cur <- read (fun g => at3 (first_player_probability g) spin1 spinAgain k) ;;
  x <- lift (op_mul ll prob t) ;;
  y <- lift (op_add ll cur x) ;;
  write (with_first (put3 spin1 spinAgain k y)).

(** The body of the loops over the 1st player's options. *)
Definition first_player_options_at (spin1 spinAgain : nat) : M unit :=
  if (spinAgain =? 0)%nat then (* Don't spin again *)
    v0 <- read (fun g => at2 (second_player_policy_probability g) spin1 0) ;;
    write (with_first (put3 spin1 spinAgain 0 v0)) ;;;
    v1 <- read (fun g => at2 (second_player_policy_probability g) spin1 1) ;;
    write (with_first (put3 spin1 spinAgain 1 v1)) ;;;
    v2 <- read (fun g => at2 (second_player_policy_probability g) spin1 2) ;;
    write (with_first (put3 spin1 spinAgain 2 v2))
  else (* Spin again *)
    z0 <- lift (Fraction_ ll 0 1) ;;
    write (with_first (put3 spin1 spinAgain 0 z0)) ;;;
    z1 <- lift (Fraction_ ll 0 1) ;;
    write (with_first (put3 spin1 spinAgain 1 z1)) ;;;
    z2 <- lift (Fraction_ ll 0 1) ;;
    write (with_first (put3 spin1 spinAgain 2 z2)) ;;;
    prob_new_spin <- lift (Fraction_ ll 1 20) ;;
    for_ 1 20 (fun new_spin =>
      let p1total :=
        if (20 <? spin1 + new_spin)%nat then 0%nat else (spin1 + new_spin)%nat in
      t0 <- read (fun g => at2 (second_player_policy_probability g) p1total 0) ;;
      first_add spin1 spinAgain 0 prob_new_spin t0 ;;;
      t1 <- read (fun g => at2 (second_player_policy_probability g) p1total 1) ;;
      first_add spin1 spinAgain 1 prob_new_spin t1 ;;;
      t2 <- read (fun g => at2 (second_player_policy_probability g) p1total 2) ;;
      first_add spin1 spinAgain 2 prob_new_spin t2) ;;;
    a <- read (fun g => at3 (first_player_probability g) spin1 spinAgain 0) ;;
    b <- read (fun g => at3 (first_player_probability g) spin1 spinAgain 1) ;;
    c <- read (fun g => at3 (first_player_probability g) spin1 spinAgain 2) ;;
    ok <- lift (sums_to_one a b c) ;;
    assert ok.

(** Calculate the 1st player's options. *)
Definition first_player_options : M unit :=
  for_ 0 20 (fun spin1 =>
  for_ 0 1 (fun spinAgain => first_player_options_at spin1 spinAgain)).

(** The three running sums [player1_win], [player2_win], [player3_win]
    of a policy collapse, and one turn of its loop over the first spin:
    [again k] and [stop k] are the entries of the stage's table for this
    spin, with and without a second spin, for player [k + 1]. *)
Definition wins : Type := (Fraction * Fraction * Fraction)%type.

Definition collapse_step (spin_probability policy : Fraction)
    (again stop : nat -> Fraction) (w : wins) : outcome wins :=
  let '(player1_win, player2_win, player3_win) := w in
  let! w1 := accumulate spin_probability policy (again 0%nat) (stop 0%nat) player1_win in
  let! w2 := accumulate spin_probability policy (again 1%nat) (stop 1%nat) player2_win in
  let! w3 := accumulate spin_probability policy (again 2%nat) (stop 2%nat) player3_win in
  Ok (w1, w2, w3).

(** The local variables set to [Fraction(0, 1)] before the loop. *)
Definition zero_wins : outcome wins :=
  let! player1_win := Fraction_ ll 0 1 in
  let! player2_win := Fraction_ ll 0 1 in
  let! player3_win := Fraction_ ll 0 1 in
  Ok (player1_win, player2_win, player3_win).

Definition assert_wins (w : wins) : M unit :=
  let '(player1_win, player2_win, player3_win) := w in
  ok <- lift (sums_to_one player1_win player2_win player3_win) ;;
  assert ok.

(** The loop over the first spin in a policy collapse: [policy spin] is
    the call through the function pointer, [again] and [stop] read the
    stage's table. *)
Definition integrate (policy : nat -> globals -> outcome Fraction)
    (again stop : nat -> globals -> nat -> Fraction) : M wins :=
  w0 <- lift zero_wins ;;
  spin_probability <- lift (Fraction_ ll 1 20) ;;
  fold_ 1 20 (fun spin w =>
    pol <- call (policy spin) ;;
    a <- read (again spin) ;;
    s <- read (stop spin) ;;
    lift (collapse_step spin_probability pol a s w)) w0.
End SolverCommon.

(** ** dynamic_programming.cpp *)

Module DynamicProgramming.
Section WithArith.
Variable ll : arith.

(** [win_prob_player3] for the cell [(p1, p2, spin, spinAgain)]. *)
Definition win_prob_player3 (p1 p2 spin spinAgain : nat) : outcome Fraction :=
  if (spinAgain =? 0)%nat then (* Don't spin again *)
    if (p1 <? spin)%nat && (p2 <? spin)%nat then Fraction_ ll 1 1 (* Wins outright *)
    else if (spin =? p1)%nat && (spin =? p2)%nat then Fraction_ ll 1 3 (* Three-way tie *)
    else if (spin =? Nat.max p1 p2)%nat then Fraction_ ll 1 2 (* Two-way tie *)
    else Fraction_ ll 0 1 (* Loses outright *)
  else (* Spin again *)
    let! prob_new_spin := Fraction_ ll 1 20 in
    fold_left
      (fun acc new_spin =>
         let! win := acc in
         let! outcome_of_spin :=
           if (20 <? new_spin + spin)%nat then (* bust *)
             Fraction_ ll (if (p1 + p2 =? 0)%nat then 1 else 0) 3
           else if (p1 <? new_spin + spin)%nat && (p2 <? new_spin + spin)%nat then
             Fraction_ ll 1 1 (* wins outright *)
           else if (new_spin + spin =? p1)%nat && (new_spin + spin =? p2)%nat then
             Fraction_ ll 1 3 (* three-way tie *)
           else if (new_spin + spin =? Nat.max p1 p2)%nat then
             Fraction_ ll 1 2 (* two-way tie *)
           else Fraction_ ll 0 1 (* loses outright *) in
         let! x := op_mul ll prob_new_spin outcome_of_spin in
         op_add ll win x)
      (seq 1 20) (Ok Fraction_default).

(** The body of the loops over the 3rd player's options. *)
Definition third_player_options_at (p1 p2 spin spinAgain : nat) : M unit :=
  win <- lift (win_prob_player3 p1 p2 spin spinAgain) ;;
  write (with_third (put5 p1 p2 spin spinAgain 2 win)) ;;;
  if (p1 =? p2)%nat then
    half <- lift (Fraction_ ll 1 2) ;;
    one <- lift (Fraction_ ll 1 1) ;;
    rest <- lift (op_sub ll one win) ;;
    v <- lift (op_mul ll half rest) ;;
    write (with_third (put5 p1 p2 spin spinAgain 1 v)) ;;;
    v' <- read (fun g => at5 (third_player_probability g) p1 p2 spin spinAgain 1) ;;
    write (with_third (put5 p1 p2 spin spinAgain 0 v'))
  else
    one <- lift (Fraction_ ll 1 1) ;;
    rest <- lift (op_sub ll one win) ;;
    write (with_third
             (put5 p1 p2 spin spinAgain (if (p2 <? p1)%nat then 0 else 1)%nat rest)) ;;;
    zero <- lift (Fraction_ ll 0 1) ;;
    write (with_third
             (put5 p1 p2 spin spinAgain (if (p2 <? p1)%nat then 1 else 0)%nat zero)).

(** Calculate the 3rd player's options. *)
Definition third_player_options : M unit :=
  for_ 0 20 (fun p1 =>
  for_ 0 20 (fun p2 =>
  for_ 0 20 (fun spin =>
  for_ 0 1 (fun spinAgain => third_player_options_at p1 p2 spin spinAgain)))).

(** The body of the loops of the 3rd player's policy collapse. *)
Definition third_player_collapse_at (third_player_policy : policy3) (p1 p2 : nat)
  : M unit :=
  skip <- call (fun g => third_player_policy g p1 p2 0%nat) ;;
  one <- lift (Fraction_ ll 1 1) ;;
  if op_eq skip one then
    v0 <- read (fun g => at5 (third_player_probability g) p1 p2 0 0 0) ;;
    write (with_third_policy (put3 p1 p2 0 v0)) ;;;
    v1 <- read (fun g => at5 (third_player_probability g) p1 p2 0 0 1) ;;
    write (with_third_policy (put3 p1 p2 1 v1)) ;;;
    v2 <- read (fun g => at5 (third_player_probability g) p1 p2 0 0 2) ;;
    write (with_third_policy (put3 p1 p2 2 v2))
  else
    w <- integrate ll (fun spin g => third_player_policy g p1 p2 spin)
           (fun spin g => at5 (third_player_probability g) p1 p2 spin 1)
           (fun spin g => at5 (third_player_probability g) p1 p2 spin 0) ;;
    assert_wins ll w ;;;
    write (with_third_policy (put3 p1 p2 0 (fst (fst w)))) ;;;
    write (with_third_policy (put3 p1 p2 1 (snd (fst w)))) ;;;
    write (with_third_policy (put3 p1 p2 2 (snd w))).

(** Calculate third person win rate based on their policy. *)
Definition third_player_collapse (third_player_policy : policy3) : M unit :=
  for_ 0 20 (fun p1 =>
  for_ 0 20 (fun p2 => third_player_collapse_at third_player_policy p1 p2)).

Definition second_player_collapse_at (second_player_policy : policy2) (p1 : nat)
  : M unit :=
  skip <- call (fun g => second_player_policy g p1 0%nat) ;;
  one <- lift (Fraction_ ll 1 1) ;;
  if op_eq skip one then
    v0 <- read (fun g => at4 (second_player_probability g) p1 0 0 0) ;;
    write (with_second_policy (put2 p1 0 v0)) ;;;
    v1 <- read (fun g => at4 (second_player_probability g) p1 0 0 1) ;;
    write (with_second_policy (put2 p1 1 v1)) ;;;
    v2 <- read (fun g => at4 (second_player_probability g) p1 0 0 2) ;;
    write (with_second_policy (put2 p1 2 v2))
  else
    w <- integrate ll (fun spin g => second_player_policy g p1 spin)
           (fun spin g => at4 (second_player_probability g) p1 spin 1)
           (fun spin g => at4 (second_player_probability g) p1 spin 0) ;;
    assert_wins ll w ;;;
    write (with_second_policy (put2 p1 0 (fst (fst w)))) ;;;
    write (with_second_policy (put2 p1 1 (snd (fst w)))) ;;;
    write (with_second_policy (put2 p1 2 (snd w))).

(** Calculate the second person win rate based on their policy. *)
Definition second_player_collapse (second_player_policy : policy2) : M unit :=
  for_ 0 20 (fun p1 => second_player_collapse_at second_player_policy p1).

(** Calculate the first person win rate based on their policy. *)
Definition first_player_collapse (first_player_policy : policy1) : M unit :=
  skip <- call (fun g => first_player_policy g 0%nat) ;;
  one <- lift (Fraction_ ll 1 1) ;;
  if op_eq skip one then
    v0 <- read (fun g => at3 (first_player_probability g) 0 0 0) ;;
    write (with_first_policy (put1 0 v0)) ;;;
    v1 <- read (fun g => at3 (first_player_probability g) 0 0 1) ;;
    write (with_first_policy (put1 1 v1)) ;;;
    v2 <- read (fun g => at3 (first_player_probability g) 0 0 2) ;;
    write (with_first_policy (put1 2 v2))
  else
    w <- integrate ll (fun spin g => first_player_policy g spin)
           (fun spin g => at3 (first_player_probability g) spin 1)
           (fun spin g => at3 (first_player_probability g) spin 0) ;;
    assert_wins ll w ;;;
    write (with_first_policy (put1 0 (fst (fst w)))) ;;;
    write (with_first_policy (put1 1 (snd (fst w)))) ;;;
    write (with_first_policy (put1 2 (snd w))).

(** Everything after the 3rd player's options. *)
Definition later_stages (third_player_policy : policy3)
    (second_player_policy : policy2) (first_player_policy : policy1) : M unit :=
  third_player_collapse third_player_policy ;;;
  second_player_options ll ;;;
  second_player_collapse second_player_policy ;;;
  first_player_options ll ;;;
  first_player_collapse first_player_policy.

Definition initialize_dp_tables (third_player_policy : policy3)
    (second_player_policy : policy2) (first_player_policy : policy1) : M unit :=
  third_player_options ;;;
  later_stages third_player_policy second_player_policy first_player_policy.

(** [main]: the tables are filled under the three optimal policies,
    starting from the zero-initialised globals; the program then prints
    the three entries of [first_player_policy_probability]. *)
Definition main : outcome (unit * globals) :=
  initialize_dp_tables (third_player_optimal_policy ll)
    (second_player_optimal_policy ll) (first_player_optimal_policy ll)
    initial_globals.
End WithArith.
End DynamicProgramming.

(** ** The later version of the solver (the file that also holds the simulator)

    It differs from [dynamic_programming.cpp] in the 3rd player's options,
    which compute all three probabilities and assert their sum, and in the
    policy collapses, which weigh the no-first-spin entry by the policy's
    value at spin 0. *)

Module Simulation.
Section WithArith.
Variable ll : arith.

(** [(winning_player == 0 ? player1_win : player2_win) = v]. *)
Definition set_winner (winning_player : nat) (v : Fraction) (w : wins) : wins :=
  let '(player1_win, player2_win, player3_win) := w in
  if (winning_player =? 0)%nat then (v, player2_win, player3_win)
  else (player1_win, v, player3_win).

(** [(winning_player == 0 ? player1_win : player2_win) += prob * Fraction(1, d)]. *)
Definition add_winner (winning_player : nat) (prob : Fraction) (d : Z) (w : wins)
  : outcome wins :=
  let '(player1_win, player2_win, player3_win) := w in
  let! f := Fraction_ ll 1 d in
  let! x := op_mul ll prob f in
  if (winning_player =? 0)%nat then
    let! y := op_add ll player1_win x in Ok (y, player2_win, player3_win)
  else
    let! y := op_add ll player2_win x in Ok (player1_win, y, player3_win).

(** [player3_win += prob * Fraction(1, d)]. *)
Definition add_third (prob : Fraction) (d : Z) (w : wins) : outcome wins :=
  let '(player1_win, player2_win, player3_win) := w in
  let! f := Fraction_ ll 1 d in
  let! x := op_mul ll prob f in
  let! y := op_add ll player3_win x in
  Ok (player1_win, player2_win, y).

(** The three local win probabilities of the cell [(p1, p2, spin1, spinAgain)]. *)
Definition third_player_wins (p1 p2 spin1 spinAgain : nat) : outcome wins :=
  let! w0 := zero_wins ll in
  let max_score := Nat.max p1 p2 in
  let winning_player := if (p2 <=? p1)%nat then 0%nat else 1%nat in
  if (spinAgain =? 0)%nat then (* Don't spin again *)
    if (max_score <? spin1)%nat then
      let! one := Fraction_ ll 1 1 in Ok (fst (fst w0), snd (fst w0), one)
    else if (spin1 <? max_score)%nat then
      let! one := Fraction_ ll 1 1 in Ok (set_winner winning_player one w0)
    else if (p1 =? p2)%nat then (* three-way tie *)
      let! third := Fraction_ ll 1 3 in Ok (third, third, third)
    else (* two-way tie *)
      let! half := Fraction_ ll 1 2 in
      let w1 := set_winner winning_player half w0 in
      let! half' := Fraction_ ll 1 2 in
      Ok (fst (fst w1), snd (fst w1), half')
  else (* Spin again *)
    let! prob_new_spin := Fraction_ ll 1 20 in
    fold_left
      (fun acc spin2 =>
         let! w := acc in
         let total_score :=
           if (20 <? spin1 + spin2)%nat then 0%nat else (spin1 + spin2)%nat in
         if (max_score <? total_score)%nat then add_third prob_new_spin 1 w
         else if (total_score <? max_score)%nat then
           add_winner winning_player prob_new_spin 1 w
         else if (p1 =? p2)%nat then (* three-way tie *)
           let! w1 := add_winner 0 prob_new_spin 3 w in
           let! w2 := add_winner 1 prob_new_spin 3 w1 in
           add_third prob_new_spin 3 w2
         else (* two-way tie *)
           let! w1 := add_winner winning_player prob_new_spin 2 w in
           add_third prob_new_spin 2 w1)
      (seq 1 20) (Ok w0).

Definition third_player_options_at (p1 p2 spin1 spinAgain : nat) : M unit :=
  w <- lift (third_player_wins p1 p2 spin1 spinAgain) ;;
  assert_wins ll w ;;;
  write (with_third (put5 p1 p2 spin1 spinAgain 0 (fst (fst w)))) ;;;
  write (with_third (put5 p1 p2 spin1 spinAgain 1 (snd (fst w)))) ;;;
  write (with_third (put5 p1 p2 spin1 spinAgain 2 (snd w))).

(** Calculate the 3rd player's options. *)
Definition third_player_options : M unit :=
  for_ 0 20 (fun p1 =>
  for_ 0 20 (fun p2 =>
  for_ 0 20 (fun spin1 =>
  for_ 0 1 (fun spinAgain => third_player_options_at p1 p2 spin1 spinAgain)))).

(** [entry += (Fraction(1, 1) - prob_of_first_spin) * win], on the value
    [cur] that the entry holds. *)
Definition add_played (prob_of_first_spin win cur : Fraction) : outcome Fraction :=
  let! one := Fraction_ ll 1 1 in
  let! d := op_sub ll one prob_of_first_spin in
  let! y := op_mul ll d win in
  op_add ll cur y.

Definition third_player_collapse_at (third_player_policy : policy3) (p1 p2 : nat)
  : M unit :=
  prob_of_first_spin <- call (fun g => third_player_policy g p1 p2 0%nat) ;;
  c0 <- read (fun g => at5 (third_player_probability g) p1 p2 0 0 0) ;;
  x0 <- lift (op_mul ll prob_of_first_spin c0) ;;
  write (with_third_policy (put3 p1 p2 0 x0)) ;;;
  c1 <- read (fun g => at5 (third_player_probability g) p1 p2 0 0 1) ;;
  x1 <- lift (op_mul ll prob_of_first_spin c1) ;;
  write (with_third_policy (put3 p1 p2 1 x1)) ;;;
  c2 <- read (fun g => at5 (third_player_probability g) p1 p2 0 0 2) ;;
  x2 <- lift (op_mul ll prob_of_first_spin c2) ;;
  write (with_third_policy (put3 p1 p2 2 x2)) ;;;
  w <- integrate ll (fun spin g => third_player_policy g p1 p2 spin)
         (fun spin g => at5 (third_player_probability g) p1 p2 spin 1)
         (fun spin g => at5 (third_player_probability g) p1 p2 spin 0) ;;
  assert_wins ll w ;;;
  e0 <- read (fun g => at3 (third_player_policy_probability g) p1 p2 0) ;;
  y0 <- lift (add_played prob_of_first_spin (fst (fst w)) e0) ;;
  write (with_third_policy (put3 p1 p2 0 y0)) ;;;
  e1 <- read (fun g => at3 (third_player_policy_probability g) p1 p2 1) ;;
  y1 <- lift (add_played prob_of_first_spin (snd (fst w)) e1) ;;
  write (with_third_policy (put3 p1 p2 1 y1)) ;;;
  e2 <- read (fun g => at3 (third_player_policy_probability g) p1 p2 2) ;;
  y2 <- lift (add_played prob_of_first_spin (snd w) e2) ;;
  write (with_third_policy (put3 p1 p2 2 y2)).

(** Calculate third person win rate based on their policy. *)
Definition third_player_collapse (third_player_policy : policy3) : M unit :=
  for_ 0 20 (fun p1 =>
  for_ 0 20 (fun p2 => third_player_collapse_at third_player_policy p1 p2)).

Definition second_player_collapse_at (second_player_policy : policy2) (p1 : nat)
  : M unit :=
  prob_of_first_spin <- call (fun g => second_player_policy g p1 0%nat) ;;
  c0 <- read (fun g => at4 (second_player_probability g) p1 0 0 0) ;;
  x0 <- lift (op_mul ll prob_of_first_spin c0) ;;
  write (with_second_policy (put2 p1 0 x0)) ;;;
  c1 <- read (fun g => at4 (second_player_probability g) p1 0 0 1) ;;
  x1 <- lift (op_mul ll prob_of_first_spin c1) ;;
  write (with_second_policy (put2 p1 1 x1)) ;;;
  c2 <- read (fun g => at4 (second_player_probability g) p1 0 0 2) ;;
  x2 <- lift (op_mul ll prob_of_first_spin c2) ;;
  write (with_second_policy (put2 p1 2 x2)) ;;;
  w <- integrate ll (fun spin g => second_player_policy g p1 spin)
         (fun spin g => at4 (second_player_probability g) p1 spin 1)
         (fun spin g => at4 (second_player_probability g) p1 spin 0) ;;
  assert_wins ll w ;;;
  e0 <- read (fun g => at2 (second_player_policy_probability g) p1 0) ;;
  y0 <- lift (add_played prob_of_first_spin (fst (fst w)) e0) ;;
  write (with_second_policy (put2 p1 0 y0)) ;;;
  e1 <- read (fun g => at2 (second_player_policy_probability g) p1 1) ;;
  y1 <- lift (add_played prob_of_first_spin (snd (fst w)) e1) ;;
  write (with_second_policy (put2 p1 1 y1)) ;;;
  e2 <- read (fun g => at2 (second_player_policy_probability g) p1 2) ;;
  y2 <- lift (add_played prob_of_first_spin (snd w) e2) ;;
  write (with_second_policy (put2 p1 2 y2)).

(** Calculate the second person win rate based on their policy. *)
Definition second_player_collapse (second_player_policy : policy2) : M unit :=
  for_ 0 20 (fun p1 => second_player_collapse_at second_player_policy p1).

(** Calculate the first person win rate based on their policy. *)
Definition first_player_collapse (first_player_policy : policy1) : M unit :=
  prob_of_first_spin <- call (fun g => first_player_policy g 0%nat) ;;
  c0 <- read (fun g => at3 (first_player_probability g) 0 0 0) ;;
  x0 <- lift (op_mul ll prob_of_first_spin c0) ;;
  write (with_first_policy (put1 0 x0)) ;;;
  c1 <- read (fun g => at3 (first_player_probability g) 0 0 1) ;;
  x1 <- lift (op_mul ll prob_of_first_spin c1) ;;
  write (with_first_policy (put1 1 x1)) ;;;
  c2 <- read (fun g => at3 (first_player_probability g) 0 0 2) ;;
  x2 <- lift (op_mul ll prob_of_first_spin c2) ;;
  write (with_first_policy (put1 2 x2)) ;;;
  w <- integrate ll (fun spin g => first_player_policy g spin)
         (fun spin g => at3 (first_player_probability g) spin 1)
         (fun spin g => at3 (first_player_probability g) spin 0) ;;
  assert_wins ll w ;;;
  e0 <- read (fun g => at1 (first_player_policy_probability g) 0) ;;
  y0 <- lift (add_played prob_of_first_spin (fst (fst w)) e0) ;;
  write (with_first_policy (put1 0 y0)) ;;;
  e1 <- read (fun g => at1 (first_player_policy_probability g) 1) ;;
  y1 <- lift (add_played prob_of_first_spin (snd (fst w)) e1) ;;
  write (with_first_policy (put1 1 y1)) ;;;
  e2 <- read (fun g => at1 (first_player_policy_probability g) 2) ;;
  y2 <- lift (add_played prob_of_first_spin (snd w) e2) ;;
  write (with_first_policy (put1 2 y2)).

Definition initialize_dp_tables (third_player_policy : policy3)
    (second_player_policy : policy2) (first_player_policy : policy1) : M unit :=
  third_player_options ;;;
  third_player_collapse third_player_policy ;;;
  second_player_options ll ;;;
  second_player_collapse second_player_policy ;;;
  first_player_options ll ;;;
  first_player_collapse first_player_policy.

(** The part of [main] that solves the game (the simulation that follows
    only reads the tables). *)
Definition main : outcome (unit * globals) :=
  initialize_dp_tables (third_player_optimal_policy ll)
    (second_player_optimal_policy ll) (first_player_optimal_policy ll)
    initial_globals.
End WithArith.
End Simulation.

(** ** The two-participant sub-game of the specification *)

(** Modelled from the spec: the replay of the game restricted to two tied
    participants (Tie Resolver, two-way tie), solved by the Stage Solver
    for two participants.  The source contains no solver for two
    participants.  A tie inside the sub-game is again a replay
    of the same sub-game, so the solver takes the replay's win rates
    [(first, second)] as inputs; the solved sub-game is a pair that the
    solver maps to itself. *)
Module TwoPlayer.
Section WithArith.
Variable ll : arith.

Definition rates : Type := (Fraction * Fraction)%type.

(** [acc + prob * x], on both components. *)
Definition add_scaled (prob : Fraction) (x acc : rates) : outcome rates :=
  let! a := op_mul ll prob (fst x) in
  let! a' := op_add ll (fst acc) a in
  let! b := op_mul ll prob (snd x) in
  let! b' := op_add ll (snd acc) b in
  Ok (a', b').

Definition zero_rates : outcome rates :=
  let! a := Fraction_ ll 0 1 in
  let! b := Fraction_ ll 0 1 in
  Ok (a, b).

(** Finest stage, stop branch: the second participant stops on [own]
    against the first participant's total [p1]. *)
Definition stop_branch (replay : rates) (p1 own : nat) : outcome rates :=
  if (p1 <? own)%nat then
    let! z := Fraction_ ll 0 1 in let! o := Fraction_ ll 1 1 in Ok (z, o)
  else if (own <? p1)%nat then
    let! o := Fraction_ ll 1 1 in let! z := Fraction_ ll 0 1 in Ok (o, z)
  else Ok replay.

(** Finest stage, spin-again branch: uniform over the next face; a total
    above the ceiling becomes 0. *)
Definition again_branch (replay : rates) (p1 own : nat) : outcome rates :=
  let! prob := Fraction_ ll 1 20 in
  let! z := zero_rates in
  fold_left
    (fun acc face =>
       let! w := acc in
       let total := if (20 <? own + face)%nat then 0%nat else (own + face)%nat in
       let! o := stop_branch replay p1 total in
       add_scaled prob o w)
    (seq 1 20) (Ok z).

(** Policy collapse of the second participant under the optimal policy:
    spin again iff the own win probability is strictly higher. *)
Definition second_collapse (replay : rates) (p1 : nat) : outcome rates :=
  let! prob := Fraction_ ll 1 20 in
  let! z := zero_rates in
  fold_left
    (fun acc spin =>
       let! w := acc in
       let! st := stop_branch replay p1 spin in
       let! ag := again_branch replay p1 spin in
       let! c := op_gt ll (snd ag) (snd st) in
       add_scaled prob (if c then ag else st) w)
    (seq 1 20) (Ok z).

(** The second participant's collapsed table, indexed by the first
    participant's total 0..20. *)
Definition second_table (replay : rates) : outcome (list rates) :=
  fold_right
    (fun p1 rest =>
       let! r := second_collapse replay p1 in
       let! t := rest in
       Ok (r :: t))
    (Ok []) (seq 0 21).

(** Coarser stage: the first participant's spin-again branch consumes the
    collapsed table of the second. *)
Definition first_again (table : list rates) (own : nat) : outcome rates :=
  let! prob := Fraction_ ll 1 20 in
  let! z := zero_rates in
  fold_left
    (fun acc face =>
       let! w := acc in
       let total := if (20 <? own + face)%nat then 0%nat else (own + face)%nat in
       add_scaled prob (nth total table z) w)
    (seq 1 20) (Ok z).

(** The sub-game's win rates (first mover, second mover) under optimal
    play, given the win rates of a replay. *)
Definition two_player_game (replay : rates) : outcome rates :=
  let! table := second_table replay in
  let! prob := Fraction_ ll 1 20 in
  let! z := zero_rates in
  fold_left
    (fun acc spin =>
       let! w := acc in
       let st := nth spin table z in
       let! ag := first_again table spin in
       let! c := op_gt ll (fst ag) (fst st) in
       add_scaled prob (if c then ag else st) w)
    (seq 1 20) (Ok z).

(** A solved sub-game: the replay has the win rates of the game itself. *)
Definition solved (r : rates) : Prop := two_player_game r = Ok r.
End WithArith.
End TwoPlayer.

(** ** Vocabulary of the properties *)

(** The rational number a [Fraction] with positive denominator stands for. *)
Definition toQ (f : Fraction) : Q := Qmake (numerator f) (Z.to_pos (denominator f)).

Definition bound31 : Z := Eval cbv in 2 ^ 31.

(** Fractions whose cross products stay inside [long long]: positive
    denominator, numerator and denominator at most 2^31 in magnitude. *)
Definition representable (f : Fraction) : Prop :=
  0 < denominator f <= bound31 /\ - bound31 <= numerator f <= bound31.

(** What [simplify] establishes. *)
Definition lowest_terms (f : Fraction) : Prop :=
  Z.gcd (numerator f) (denominator f) = 1.

Definition one_third : Fraction := mkFraction 1 3.
Definition one_half : Fraction := mkFraction 1 2.
Definition zero : Fraction := mkFraction 0 1.
Definition one : Fraction := mkFraction 1 1.

(** A comparison made on an [Assumption] during a pass: which operator,
    against which threshold. *)
Inductive relation : Type := Rgt | Rlt | Rge | Rle.

Definition compare_with (ll : arith) (r : relation) (a : Assumption) (f : Fraction)
  : outcome (bool * Assumption) :=
  match r with
  | Rgt => Assumption_gt ll a f
  | Rlt => Assumption_lt ll a f
  | Rge => Assumption_ge ll a f
  | Rle => Assumption_le ll a f
  end.

(** The object after a sequence of comparisons. *)
Definition record_all (ll : arith) (cs : list (relation * Fraction)) (a : Assumption)
  : outcome Assumption :=
  fold_left
    (fun acc c =>
       let! a := acc in
       let! r := compare_with ll (fst c) a (snd c) in
       Ok (snd r))
    cs (Ok a).

(** The effect of a comparison on the bounds: one bound is replaced by its
    [std::max] (resp. [std::min]) with the threshold, everything else is
    kept. *)
Definition narrows_min (a : Assumption) (f : Fraction) (a' : Assumption) : Prop :=
  std_max machine (min_bound a) f = Ok (min_bound a') /\
  max_bound a' = max_bound a /\ value a' = value a /\ name a' = name a.
Definition narrows_max (a : Assumption) (f : Fraction) (a' : Assumption) : Prop :=
  std_min machine (max_bound a) f = Ok (max_bound a') /\
  min_bound a' = min_bound a /\ value a' = value a /\ name a' = name a.



(** A 3rd player policy that always takes a first spin and then spins
    again with probability 1/1000000007. *)
Definition rare_spin_policy (ll : arith) : policy3 :=
  fun g p1 p2 spin1 =>
    if (spin1 =? 0)%nat then Fraction_ ll 0 1 else Fraction_ ll 1 1000000007.





(** [f i] for every [i <= n]. *)
Definition upto (n : nat) (f : nat -> bool) : bool := forallb f (seq 0 (S n)).






(** ** The tables of the run of [main]

    The values below are computed once from the definitions; the lemmas
    [third_options_machine] and [later_stages_machine] state that they
    are what the program computes. *)

Definition unwrap (r : outcome (unit * globals)) : globals :=
  match r with
  | Ok (_, g) => g
  | Fail _ => initial_globals
  end.

(** The globals after the 3rd player's options. *)
Definition dp_third : globals :=
  Eval vm_compute in unwrap (DynamicProgramming.third_player_options machine initial_globals).

(** The five tables filled by the later stages of [main]. *)
Definition dp_later : arr3 * arr4 * arr2 * arr3 * arr1 :=
  Eval vm_compute in
    let g := unwrap (DynamicProgramming.later_stages machine
                       (third_player_optimal_policy machine)
                       (second_player_optimal_policy machine)
                       (first_player_optimal_policy machine) dp_third) in
    (third_player_policy_probability g, second_player_probability g,
     second_player_policy_probability g, first_player_probability g,
     first_player_policy_probability g).

(** The globals when [initialize_dp_tables] returns in [main]. *)
Definition dp_solved : globals :=
  let '(t3p, t2, t2p, t1, t1p) := dp_later in
  mkGlobals (third_player_probability dp_third) t3p t2 t2p t1 t1p.

(** Fractions as every constructor leaves them (lowest terms, positive
    denominator) and small enough for exact cross products. *)
Definition exact_fraction (f : Fraction) : Prop := representable f /\ lowest_terms f.

Definition exact_assumption (a : Assumption) : Prop :=
  exact_fraction (min_bound a) /\ exact_fraction (max_bound a).

(** Order of two fractions by their values. *)
Definition lt_by_value (a b : Fraction) : bool :=
  match (toQ a ?= toQ b)%Q with Lt => true | _ => false end.

(** Whether a comparison narrows [min_bound] (the value was found above
    the threshold) or [max_bound]. *)
Definition raises_min (r : relation) (v t : Fraction) : outcome bool :=
  match r with
  | Rgt | Rle => op_gt machine v t
  | Rlt | Rge => let! c := op_lt machine v t in Ok (negb c)
  end.

(** The object after a comparison against [t], by values. *)
Definition narrowed (up : bool) (t : Fraction) (a : Assumption) : Assumption :=
  if up then set_min_bound a (if lt_by_value (min_bound a) t then t else min_bound a)
  else set_max_bound a (if lt_by_value t (max_bound a) then t else max_bound a).


(** The outcome integrated uniformly over the first spin 1..20 under a
    policy: [policy spin] is the policy's answer after a first spin,
    [again spin] and [stop spin] are the cells of the stage's table with
    and without a second spin. *)
Definition integrated (ll : arith) (policy : nat -> outcome Fraction)
    (again stop : nat -> nat -> Fraction) : outcome wins :=
  let! w0 := zero_wins ll in
  let! spin_probability := Fraction_ ll 1 20 in
  fold_left
    (fun acc spin =>
       let! w := acc in
       let! pol := policy spin in
       collapse_step ll spin_probability pol (again spin) (stop spin) w)
    (seq 1 20) (Ok w0).




(** [g'] differs from [g] in one cell of [second_player_probability] at
    most, resp. of [first_player_probability]. *)
Definition second_only (c : nat * nat * nat) (g g' : globals) : Prop :=
  (exists t, g' = with_second (fun _ => t) g) /\
  forall q1 q2 q3 k,
    ((q1 =? fst (fst c)) && ((q2 =? snd (fst c)) && (q3 =? snd c)))%nat = false ->
    at4 (second_player_probability g') q1 q2 q3 k =
    at4 (second_player_probability g) q1 q2 q3 k.
Definition first_only (c : nat * nat) (g g' : globals) : Prop :=
  (exists t, g' = with_first (fun _ => t) g) /\
  forall q1 q2 k,
    ((q1 =? fst c) && (q2 =? snd c))%nat = false ->
    at3 (first_player_probability g') q1 q2 k = at3 (first_player_probability g) q1 q2 k.


(** Refinement of one run by another: whatever the first returns, the
    second returns too. *)
Definition orefines {A : Type} (c m : outcome A) : Prop :=
  forall r, c = Ok r -> m = Ok r.

Definition mrefines {A : Type} (c m : M A) : Prop :=
  forall g, orefines (c g) (m g).

(** ** Vocabulary of the further properties *)

(** A [long long] whose negation is a [long long] too. *)
Definition negatable (z : Z) : Prop := - LLONG_MAX <= z <= LLONG_MAX.

(** The class invariant of [Fraction]: positive denominator, lowest terms. *)
Definition canonical (f : Fraction) : Prop :=
  0 < denominator f /\ Z.gcd (numerator f) (denominator f) = 1.

Definition bound30 : Z := Eval cbv in 2 ^ 30.

(** Fractions on which the four arithmetic operators cannot overflow:
    positive denominator, numerator and denominator at most 2^30 in
    magnitude. *)
Definition small (f : Fraction) : Prop :=
  0 < denominator f <= bound30 /\ - bound30 <= numerator f <= bound30.

(** The verdicts of a sequence of comparisons made on an [Assumption],
    with the object after them. *)
Fixpoint verdicts (ll : arith) (cs : list (relation * Fraction)) (a : Assumption)
  : outcome (list bool * Assumption) :=
  match cs with
  | [] => Ok ([], a)
  | c :: cs' =>
      let! r := compare_with ll (fst c) a (snd c) in
      let! rest := verdicts ll cs' (snd r) in
      Ok (fst r :: fst rest, snd rest)
  end.

(** The same object holding another assumed value. *)
Definition assuming (v : Fraction) (a : Assumption) : Assumption :=
  mkAssumption v (min_bound a) (max_bound a) (name a).

(** The assumed value lies between the two bounds. *)
Definition within_bounds (a : Assumption) : Prop :=
  (toQ (min_bound a) <= toQ (value a))%Q /\ (toQ (value a) <= toQ (max_bound a))%Q.

(** The answer of a comparison, and whether it finds the value above the
    threshold, by values. *)
Definition verdict_by_value (r : relation) (v t : Fraction) : bool :=
  match r with
  | Rgt => lt_by_value t v
  | Rlt => lt_by_value v t
  | Rge => negb (lt_by_value v t)
  | Rle => negb (lt_by_value t v)
  end.
Definition above_by_value (r : relation) (v t : Fraction) : bool :=
  match r with
  | Rgt | Rle => lt_by_value t v
  | Rlt | Rge => negb (lt_by_value v t)
  end.

(** A stage that writes one table: [g'] is [g] with that table replaced. *)
Definition third_policy_only (g g' : globals) : Prop :=
  exists t, g' = with_third_policy (fun _ => t) g.
Definition second_table_only (g g' : globals) : Prop :=
  exists t, g' = with_second (fun _ => t) g.
Definition second_policy_only (g g' : globals) : Prop :=
  exists t, g' = with_second_policy (fun _ => t) g.
Definition first_table_only (g g' : globals) : Prop :=
  exists t, g' = with_first (fun _ => t) g.
Definition first_policy_only (g g' : globals) : Prop :=
  exists t, g' = with_first_policy (fun _ => t) g.

(** The uniform average, over the second spin 1..20, of the entry
    [cell total] at the total reached, a total above 20 counting as 0. *)
Definition spin_again_average (ll : arith) (cell : nat -> Fraction) (spin1 : nat)
  : outcome Fraction :=
  let! zero := Fraction_ ll 0 1 in
  let! prob_new_spin := Fraction_ ll 1 20 in
  fold_left
    (fun acc new_spin =>
       let! cur := acc in
       let total :=
         if (20 <? spin1 + new_spin)%nat then 0%nat else (spin1 + new_spin)%nat in
       let! x := op_mul ll prob_new_spin (cell total) in
       op_add ll cur x)
    (seq 1 20) (Ok zero).

(** ** The simulator of the later version ([simulate_game])

    The simulator reads the tables through the policies and draws from
    [rand()].  [srand(time(0))] picks the sequence of values that the
    calls of [rand()] return, so the sequence is a parameter; each value
    is an [int] in [0, RAND_MAX].  The state of a run is the number of
    calls made so far. *)

Module Simulator.

Definition R (A : Type) : Type := nat -> outcome (A * nat).

Definition retR {A : Type} (a : A) : R A := fun n => Ok (a, n).
Definition bindR {A B : Type} (m : R A) (k : A -> R B) : R B :=
  fun n => match m n with
           | Ok (a, n') => k a n'
           | Fail e => Fail e
           end.
Definition liftR {A : Type} (o : outcome A) : R A :=
  fun n => match o with
           | Ok a => Ok (a, n)
           | Fail e => Fail e
           end.

Notation "x <~ m ;; k" := (bindR m (fun x => k))
  (at level 61, m at next level, right associativity).

Section WithStream.
Variable ll : arith.
Variable rand_values : nat -> Z.
Variable third_player_policy : policy3.
Variable second_player_policy : policy2.
Variable first_player_policy : policy1.
(* Assuming DP tables have been initialized *)
Variable g : globals.

(** [rand()]. *)
Definition rand : R Z := fun n => Ok (rand_values n, S n).

(** [random_decision(prob)]: [rand() % prob.getDenominator() <
    prob.getNumerator()].  [%] truncates towards zero ([Z.rem]); the
    denominator of a constructed fraction is positive. *)
Definition random_decision (prob : Fraction) : R bool :=
  r <~ rand ;;
  let rand_num := Z.rem r (denominator prob) in
  retR (rand_num <? numerator prob).

(** One player's turn; [policy spin1] is the player's policy with the
    earlier totals filled in.  [total] is the variable declared before the
    [if] ([int p1_total = 0;]).  The block of the [if] declares a variable
    of the same name ([int p1_total = rand() % 20 + 1;]), which hides the
    outer one until the block ends: the spins are added to the block's
    variable [inner_total], and the outer [total], the one that the rest of
    the round reads, keeps its initial value. *)
Definition turn (policy : nat -> outcome Fraction) : R nat :=
  let total := 0%nat in
  skip_policy <~ liftR (policy 0%nat) ;;
  skip <~ random_decision skip_policy ;;
  _ <~ (if negb skip then (* Don't skip first spin *)
          r1 <~ rand ;;
          let inner_total := Z.rem r1 20 + 1 in (* first spin *)
          policy1 <~ liftR (policy (Z.to_nat inner_total)) ;;
          again <~ random_decision policy1 ;;
          if again then (* spin again *)
            r2 <~ rand ;;
            let inner_total := inner_total + (Z.rem r2 20 + 1) in
            let inner_total := if 20 <? inner_total then 0 else inner_total in (* bust *)
            retR tt
          else retR tt
        else retR tt) ;;
  retR total.

(** Determine winner: the player whose counter is incremented, if any. *)
Definition determine_winner (p1_total p2_total p3_total : nat) : R (option nat) :=
  let max_score := Nat.max p1_total (Nat.max p2_total p3_total) in
  let num_winners :=
    Z.b2z (p1_total =? max_score)%nat + Z.b2z (p2_total =? max_score)%nat +
    Z.b2z (p3_total =? max_score)%nat in
  r <~ rand ;;
  let selected_winner := Z.rem r num_winners in
  if (p1_total =? max_score)%nat && (selected_winner =? 0) then retR (Some 0%nat)
  else
    let selected_winner :=
      if (p1_total =? max_score)%nat then selected_winner - 1 else selected_winner in
    if (p2_total =? max_score)%nat && (selected_winner =? 0) then retR (Some 1%nat)
    else
      if (p3_total =? max_score)%nat then retR (Some 2%nat) else retR None.

(** The body of the loop over the simulations. *)
Definition play_game : R (option nat) :=
  (* Player 1's turn *)
  p1_total <~ turn (fun spin => first_player_policy g spin) ;;
  (* Player 2's turn *)
  p2_total <~ turn (fun spin => second_player_policy g p1_total spin) ;;
  (* Player 3's turn *)
  p3_total <~ turn (fun spin => third_player_policy g p1_total p2_total spin) ;;
  determine_winner p1_total p2_total p3_total.

(** [p1_wins], [p2_wins], [p3_wins]. *)
Definition counts : Type := (Z * Z * Z)%type.

Definition count (winner : option nat) (c : counts) : counts :=
  let '(p1_wins, p2_wins, p3_wins) := c in
  match winner with
  | Some O => (p1_wins + 1, p2_wins, p3_wins)
  | Some (S O) => (p1_wins, p2_wins + 1, p3_wins)
  | Some _ => (p1_wins, p2_wins, p3_wins + 1)
  | None => c
  end.

(** [for (long long sim = 0; sim < num_simulations; sim++)], with [n]
    rounds left. *)
Fixpoint games (n : nat) (c : counts) : R counts :=
  match n with
  | O => retR c
  | S n' => winner <~ play_game ;; games n' (count winner c)
  end.

Definition simulate_game (num_simulations : Z) : R (list Fraction) :=
  c <~ games (Z.to_nat num_simulations) (0, 0, 0) ;;
  let '(p1_wins, p2_wins, p3_wins) := c in
  f1 <~ liftR (Fraction_ ll p1_wins num_simulations) ;;
  f2 <~ liftR (Fraction_ ll p2_wins num_simulations) ;;
  f3 <~ liftR (Fraction_ ll p3_wins num_simulations) ;;
  retR [f1; f2; f3].
End WithStream.
End Simulator.

(** The player that a draw [r] selects when all three totals are equal. *)
Definition drawn_player (r : Z) : nat :=
  if Z.rem r 3 =? 0 then 0%nat else if Z.rem r 3 =? 1 then 1%nat else 2%nat.

(** A policy that answers at every state of the tables [g]. *)
Definition answers3 (pol : policy3) (g : globals) : Prop :=
  forall p1 p2 spin, exists f, pol g p1 p2 spin = Ok f.
Definition answers2 (pol : policy2) (g : globals) : Prop :=
  forall p1 spin, exists f, pol g p1 spin = Ok f.
Definition answers1 (pol : policy1) (g : globals) : Prop :=
  forall spin, exists f, pol g spin = Ok f.

(** The decisions that the tables of [main] encode.  The 3rd player
    spins again below the best earlier total, and on a tie with it up to
    13 when both earlier players hold it, up to 9 when one does. *)
Definition third_player_rule (p1 p2 spin1 : nat) : bool :=
  let best := Nat.max p1 p2 in
  (spin1 <? best)%nat ||
  ((spin1 =? best)%nat &&
   (if (p1 =? p2)%nat then (spin1 <=? 13)%nat else (spin1 <=? 9)%nat)).

(** The highest first spin on which the 2nd player spins again. *)
Definition second_player_threshold (p1 : nat) : nat :=
  if (p1 <=? 10)%nat then 10%nat
  else if (p1 <=? 13)%nat then p1
  else (p1 - 1)%nat.

(** The globals after the solving part of the later version's [main]. *)
Definition sim_solved : globals :=
  Eval vm_compute in unwrap (Simulation.main machine).
(** * Properties *)

(** ** Arithmetic models *)

Lemma in_range_spec (z : Z) : in_range z = true <-> LLONG_MIN <= z <= LLONG_MAX.
Proof.
  unfold in_range. rewrite andb_true_iff, !Z.leb_le. tauto.
Qed.

Lemma wrap64_in_range (z : Z) : in_range z = true -> wrap64 z = z.
Proof. intros H. unfold wrap64. rewrite H. reflexivity. Qed.

(** [wrap64] is reduction modulo 2^64 into the signed range. *)
Lemma wrap64_mod (z : Z) : wrap64 z = (z + 2 ^ 63) mod 2 ^ 64 - 2 ^ 63.
Proof.
  unfold wrap64. destruct (in_range z) eqn:E.
  - apply in_range_spec in E. unfold LLONG_MIN, LLONG_MAX in E.
    rewrite Z.mod_small; lia.
  - unfold LLONG_MIN, two64. change (2 ^ 64) with 18446744073709551616.
    change (2 ^ 63) with 9223372036854775808.
    replace (z - -9223372036854775808) with (z + 9223372036854775808) by lia.
    lia.
Qed.

(** ** Checked arithmetic is refined by the machine and by the ideal integers

    A computation that succeeds under checked arithmetic gives the same
    result under wrap-around arithmetic and under unbounded integers. *)

Lemma orefines_refl {A : Type} (c : outcome A) : orefines c c.
Proof. intros r H. exact H. Qed.

Lemma orefines_bind {A B : Type} (c m : outcome A) (kc km : A -> outcome B) :
  orefines c m -> (forall a, orefines (kc a) (km a)) ->
  orefines (obind c kc) (obind m km).
Proof.
  intros H K r. destruct c as [a|e]; simpl; [|discriminate].
  rewrite (H a eq_refl). simpl. apply K.
Qed.

Lemma orefines_fold_left {A : Type} (fc fm : outcome A -> nat -> outcome A)
    (l : list nat) :
  (forall c m x, orefines c m -> orefines (fc c x) (fm m x)) ->
  forall c m, orefines c m -> orefines (fold_left fc l c) (fold_left fm l m).
Proof.
  intros F. induction l as [|x l IH]; intros c m H; simpl.
  - exact H.
  - apply IH. apply F. exact H.
Qed.

Lemma mrefines_bind {A B : Type} (c m : M A) (kc km : A -> M B) :
  mrefines c m -> (forall a, mrefines (kc a) (km a)) ->
  mrefines (bind c kc) (bind m km).
Proof.
  intros H K g r. unfold bind. destruct (c g) as [[a g']|e] eqn:E; [|discriminate].
  rewrite (H g _ E). apply K.
Qed.

Lemma mrefines_refl {A : Type} (c : M A) : mrefines c c.
Proof. intros g. apply orefines_refl. Qed.

Lemma mrefines_lift {A : Type} (c m : outcome A) :
  orefines c m -> mrefines (lift c) (lift m).
Proof.
  intros H g r. unfold lift. destruct c as [a|e]; [|discriminate].
  rewrite (H a eq_refl). trivial.
Qed.

Lemma mrefines_call {A : Type} (c m : globals -> outcome A) :
  (forall g, orefines (c g) (m g)) -> mrefines (call c) (call m).
Proof.
  intros H g r. unfold call. destruct (c g) as [a|e] eqn:E; [|discriminate].
  rewrite (H g a E). trivial.
Qed.

Lemma mrefines_for_each (l : list nat) (bc bm : nat -> M unit) :
  (forall i, mrefines (bc i) (bm i)) -> mrefines (for_each l bc) (for_each l bm).
Proof.
  intros H. induction l as [|i l IH]; simpl.
  - apply mrefines_refl.
  - apply mrefines_bind; [apply H | intros _; exact IH].
Qed.

Lemma mrefines_fold_each {S : Type} (l : list nat) (bc bm : nat -> S -> M S) :
  (forall i s, mrefines (bc i s) (bm i s)) ->
  forall s, mrefines (fold_each l bc s) (fold_each l bm s).
Proof.
  intros H. induction l as [|i l IH]; intros s; simpl.
  - apply mrefines_refl.
  - apply mrefines_bind; [apply H | intros s'; apply IH].
Qed.

Create HintDb refines.

Section Refinement.
Variables c m : arith.
Hypothesis arith_refines : forall z, orefines (c z) (m z).

(** One step of a refinement proof: the two programs have the same
    shape and differ in the arithmetic only. *)
Ltac refines_step :=
  match goal with
  | |- orefines (obind _ _) (obind _ _) => apply orefines_bind; [|intros ?]
  | |- orefines (c _) (m _) => apply arith_refines
  | |- orefines (Ok _) (Ok _) => apply orefines_refl
  | |- orefines (Fail _) _ => intros ? ?; discriminate
  | |- orefines (if ?b then _ else _) (if ?b then _ else _) => destruct b
  | |- orefines (fold_left _ _ _) (fold_left _ _ _) =>
      apply orefines_fold_left; [intros ? ? ? ?|]
  | |- orefines (let '(_, _) := ?w in _) _ => destruct w
  | |- mrefines (bind _ _) (bind _ _) => apply mrefines_bind; [|intros ?]
  | |- mrefines (lift _) (lift _) => apply mrefines_lift
  | |- mrefines (call _) (call _) => apply mrefines_call; intros ?
  | |- mrefines (read _) (read _) => apply mrefines_refl
  | |- mrefines (write _) (write _) => apply mrefines_refl
  | |- mrefines (assert _) (assert _) => apply mrefines_refl
  | |- mrefines (for_ _ _ _) (for_ _ _ _) => unfold for_
  | |- mrefines (fold_ _ _ _ _) (fold_ _ _ _ _) => unfold fold_
  | |- mrefines (for_each _ _) (for_each _ _) => apply mrefines_for_each; intros ?
  | |- mrefines (fold_each _ _ _) (fold_each _ _ _) =>
      apply mrefines_fold_each; intros ? ?
  | |- mrefines (if ?b then _ else _) (if ?b then _ else _) => destruct b
  | |- mrefines (let '(_, _) := ?w in _) _ => destruct w
  | H : ?P |- ?P => exact H
  end.
Ltac refines := repeat refines_step.

Lemma simplify_refines f : orefines (simplify c f) (simplify m f).
Proof. unfold simplify. refines. Qed.

Lemma Fraction_refines n d : orefines (Fraction_ c n d) (Fraction_ m n d).
Proof. apply simplify_refines. Qed.

Lemma op_add_refines a b : orefines (op_add c a b) (op_add m a b).
Proof. unfold op_add. refines. apply Fraction_refines. Qed.

Lemma op_sub_refines a b : orefines (op_sub c a b) (op_sub m a b).
Proof. unfold op_sub. refines. apply Fraction_refines. Qed.

Lemma op_mul_refines a b : orefines (op_mul c a b) (op_mul m a b).
Proof. unfold op_mul. refines. apply Fraction_refines. Qed.

Lemma op_div_refines a b : orefines (op_div c a b) (op_div m a b).
Proof. unfold op_div. refines. apply Fraction_refines. Qed.

Lemma op_cmp_refines a b : orefines (op_cmp c a b) (op_cmp m a b).
Proof. unfold op_cmp. refines. Qed.

Lemma op_gt_refines a b : orefines (op_gt c a b) (op_gt m a b).
Proof. unfold op_gt. refines. apply op_cmp_refines. Qed.

#[local] Hint Resolve Fraction_refines op_add_refines op_sub_refines op_mul_refines
  op_div_refines op_cmp_refines op_gt_refines : refines.

Ltac refines' := refines; auto with refines.

Lemma third_policy_refines g p1 p2 s :
  orefines (third_player_optimal_policy c g p1 p2 s)
           (third_player_optimal_policy m g p1 p2 s).
Proof. unfold third_player_optimal_policy. refines'. Qed.

Lemma second_policy_refines g p1 s :
  orefines (second_player_optimal_policy c g p1 s)
           (second_player_optimal_policy m g p1 s).
Proof. unfold second_player_optimal_policy. refines'. Qed.

Lemma first_policy_refines g s :
  orefines (first_player_optimal_policy c g s) (first_player_optimal_policy m g s).
Proof. unfold first_player_optimal_policy. refines'. Qed.

Lemma sums_to_one_refines x y z :
  orefines (sums_to_one c x y z) (sums_to_one m x y z).
Proof. unfold sums_to_one. refines'. Qed.

Lemma accumulate_refines p pol a s acc :
  orefines (accumulate c p pol a s acc) (accumulate m p pol a s acc).
Proof. unfold accumulate. refines'. Qed.

Lemma collapse_step_refines p pol a s w :
  orefines (collapse_step c p pol a s w) (collapse_step m p pol a s w).
Proof.
  unfold collapse_step. destruct w as [[w1 w2] w3].
  refines; apply accumulate_refines.
Qed.

Lemma zero_wins_refines : orefines (zero_wins c) (zero_wins m).
Proof. unfold zero_wins. refines'. Qed.

#[local] Hint Resolve sums_to_one_refines accumulate_refines collapse_step_refines
  zero_wins_refines : refines.

Lemma assert_wins_refines w : mrefines (assert_wins c w) (assert_wins m w).
Proof.
  unfold assert_wins. destruct w as [[w1 w2] w3].
  apply mrefines_bind; [apply mrefines_lift; auto with refines|].
  intros ok. apply mrefines_refl.
Qed.

Lemma integrate_refines pc pm again stop :
  (forall s g, orefines (pc s g) (pm s g)) ->
  mrefines (integrate c pc again stop) (integrate m pm again stop).
Proof. intros H. unfold integrate. refines'. Qed.

Lemma second_add_refines p1 s sa k p t :
  mrefines (second_add c p1 s sa k p t) (second_add m p1 s sa k p t).
Proof. unfold second_add. refines'. Qed.

Lemma first_add_refines s sa k p t :
  mrefines (first_add c s sa k p t) (first_add m s sa k p t).
Proof. unfold first_add. refines'. Qed.

#[local] Hint Resolve assert_wins_refines second_add_refines first_add_refines : refines.

Lemma second_options_refines :
  mrefines (second_player_options c) (second_player_options m).
Proof. unfold second_player_options, second_player_options_at. refines'. Qed.

Lemma first_options_refines :
  mrefines (first_player_options c) (first_player_options m).
Proof. unfold first_player_options, first_player_options_at. refines'. Qed.

Lemma win_prob_player3_refines p1 p2 s sa :
  orefines (DynamicProgramming.win_prob_player3 c p1 p2 s sa)
           (DynamicProgramming.win_prob_player3 m p1 p2 s sa).
Proof. unfold DynamicProgramming.win_prob_player3. refines'. Qed.

Lemma third_options_refines :
  mrefines (DynamicProgramming.third_player_options c)
           (DynamicProgramming.third_player_options m).
Proof.
  unfold DynamicProgramming.third_player_options,
    DynamicProgramming.third_player_options_at.
  refines'; apply win_prob_player3_refines.
Qed.

Section Policies.
Variables (p3c p3m : policy3) (p2c p2m : policy2) (p1c p1m : policy1).
Hypothesis p3_refines : forall g a b s, orefines (p3c g a b s) (p3m g a b s).
Hypothesis p2_refines : forall g a s, orefines (p2c g a s) (p2m g a s).
Hypothesis p1_refines : forall g s, orefines (p1c g s) (p1m g s).

Lemma third_collapse_refines :
  mrefines (DynamicProgramming.third_player_collapse c p3c)
           (DynamicProgramming.third_player_collapse m p3m).
Proof.
  unfold DynamicProgramming.third_player_collapse,
    DynamicProgramming.third_player_collapse_at.
  refines'; try apply p3_refines.
  apply integrate_refines. intros; apply p3_refines.
Qed.

Lemma second_collapse_refines :
  mrefines (DynamicProgramming.second_player_collapse c p2c)
           (DynamicProgramming.second_player_collapse m p2m).
Proof.
  unfold DynamicProgramming.second_player_collapse,
    DynamicProgramming.second_player_collapse_at.
  refines'; try apply p2_refines.
  apply integrate_refines. intros; apply p2_refines.
Qed.

Lemma first_collapse_refines :
  mrefines (DynamicProgramming.first_player_collapse c p1c)
           (DynamicProgramming.first_player_collapse m p1m).
Proof.
  unfold DynamicProgramming.first_player_collapse.
  refines'; try apply p1_refines.
  apply integrate_refines. intros; apply p1_refines.
Qed.

Lemma later_stages_refines :
  mrefines (DynamicProgramming.later_stages c p3c p2c p1c)
           (DynamicProgramming.later_stages m p3m p2m p1m).
Proof.
  unfold DynamicProgramming.later_stages.
  apply mrefines_bind; [apply third_collapse_refines | intros ?].
  apply mrefines_bind; [apply second_options_refines | intros ?].
  apply mrefines_bind; [apply second_collapse_refines | intros ?].
  apply mrefines_bind; [apply first_options_refines | intros ?].
  apply first_collapse_refines.
Qed.

Lemma initialize_refines :
  mrefines (DynamicProgramming.initialize_dp_tables c p3c p2c p1c)
           (DynamicProgramming.initialize_dp_tables m p3m p2m p1m).
Proof.
  unfold DynamicProgramming.initialize_dp_tables.
  apply mrefines_bind; [apply third_options_refines|].
  intros ?. apply later_stages_refines.
Qed.
End Policies.

Lemma optimal_pass_refines :
  mrefines
    (DynamicProgramming.initialize_dp_tables c (third_player_optimal_policy c)
       (second_player_optimal_policy c) (first_player_optimal_policy c))
    (DynamicProgramming.initialize_dp_tables m (third_player_optimal_policy m)
       (second_player_optimal_policy m) (first_player_optimal_policy m)).
Proof.
  apply initialize_refines.
  - apply third_policy_refines.
  - apply second_policy_refines.
  - apply first_policy_refines.
Qed.
End Refinement.

Lemma checked_machine (z : Z) : orefines (checked z) (machine z).
Proof.
  intros r. unfold checked, machine. destruct (in_range z) eqn:E; [|discriminate].
  intros H. rewrite (wrap64_in_range z E). exact H.
Qed.

Lemma checked_ideal (z : Z) : orefines (checked z) (ideal z).
Proof.
  intros r. unfold checked, ideal. destruct (in_range z); [trivial|discriminate].
Qed.

(** ** The run of [main] *)

Lemma third_options_checked :
  DynamicProgramming.third_player_options checked initial_globals = Ok (tt, dp_third).
Proof. vm_compute. reflexivity. Qed.

Lemma later_stages_checked :
  DynamicProgramming.later_stages checked (third_player_optimal_policy checked)
    (second_player_optimal_policy checked) (first_player_optimal_policy checked)
    dp_third = Ok (tt, dp_solved).
Proof. vm_compute. reflexivity. Qed.

Lemma bind_ok {A B : Type} (m : M A) (k : A -> M B) (g g' : globals) (a : A) :
  m g = Ok (a, g') -> bind m k g = k a g'.
Proof. intros H. unfold bind. rewrite H. reflexivity. Qed.

Lemma initialize_checked :
  DynamicProgramming.initialize_dp_tables checked (third_player_optimal_policy checked)
    (second_player_optimal_policy checked) (first_player_optimal_policy checked)
    initial_globals = Ok (tt, dp_solved).
Proof.
  unfold DynamicProgramming.initialize_dp_tables.
  rewrite (bind_ok _ _ _ _ _ third_options_checked).
  exact later_stages_checked.
Qed.

Lemma initialize_machine :
  DynamicProgramming.initialize_dp_tables machine (third_player_optimal_policy machine)
    (second_player_optimal_policy machine) (first_player_optimal_policy machine)
    initial_globals = Ok (tt, dp_solved).
Proof.
  exact (optimal_pass_refines checked machine checked_machine _ _ initialize_checked).
Qed.

Lemma initialize_ideal :
  DynamicProgramming.initialize_dp_tables ideal (third_player_optimal_policy ideal)
    (second_player_optimal_policy ideal) (first_player_optimal_policy ideal)
    initial_globals = Ok (tt, dp_solved).
Proof.
  exact (optimal_pass_refines checked ideal checked_ideal _ _ initialize_checked).
Qed.

Lemma main_checked : DynamicProgramming.main checked = Ok (tt, dp_solved).
Proof. exact initialize_checked. Qed.

Lemma main_machine : DynamicProgramming.main machine = Ok (tt, dp_solved).
Proof. exact initialize_machine. Qed.

Lemma main_ideal : DynamicProgramming.main ideal = Ok (tt, dp_solved).
Proof. exact initialize_ideal. Qed.

Lemma third_options_machine :
  DynamicProgramming.third_player_options machine initial_globals = Ok (tt, dp_third).
Proof.
  exact (third_options_refines checked machine checked_machine _ _ third_options_checked).
Qed.

Lemma third_options_ideal :
  DynamicProgramming.third_player_options ideal initial_globals = Ok (tt, dp_third).
Proof.
  exact (third_options_refines checked ideal checked_ideal _ _ third_options_checked).
Qed.

(** ** Reading facts off computed tables *)

Lemma upto_spec (n : nat) (f : nat -> bool) :
  upto n f = true -> forall i, (i <= n)%nat -> f i = true.
Proof.
  unfold upto. intros H i Hi. rewrite forallb_forall in H.
  apply H. apply in_seq. lia.
Qed.

Lemma op_eq_true (a b : Fraction) : op_eq a b = true -> a = b.
Proof.
  destruct a as [n d], b as [n' d']. unfold op_eq. simpl.
  rewrite andb_true_iff, !Z.eqb_eq. intros [-> ->]. reflexivity.
Qed.

Lemma op_eq_refl (a : Fraction) : op_eq a a = true.
Proof. unfold op_eq. rewrite !Z.eqb_refl. reflexivity. Qed.

Lemma third_table_of_solved :
  third_player_probability dp_solved = third_player_probability dp_third.
Proof. reflexivity. Qed.

(** ** C3: the arithmetic of the solve pass *)

(** C3, counterexample.  [Fraction] computes on 64-bit [long long]s, and a
    solve pass can overflow them silently: with the 3rd player policy
    "spin again with probability 1/1000000007", the sums of
    the first policy collapse computed by the program (negative
    "probabilities") differ from the exact sums, and the pass then stops on
    the assertion. *)
Lemma rare_spin_pass_overflows :
  let policy ll := fun spin g => rare_spin_policy ll g 0%nat 0%nat spin in
  let again := fun spin g => at5 (third_player_probability g) 0 0 spin 1 in
  let stop := fun spin g => at5 (third_player_probability g) 0 0 spin 0 in
  DynamicProgramming.third_player_options machine initial_globals = Ok (tt, dp_third) /\
  integrate machine (policy machine) again stop dp_third =
    Ok ((mkFraction (-711495636954482855) 1499620838119118312,
         mkFraction (-711495636954482855) 1499620838119118312,
         mkFraction (-3176555510702697031) 3654289110223938108), dp_third) /\
  integrate ideal (policy ideal) again stop dp_third =
    Ok ((mkFraction 7 40000000280, mkFraction 7 40000000280,
         mkFraction 20000000133 20000000140), dp_third) /\
  DynamicProgramming.initialize_dp_tables machine (rare_spin_policy machine)
    (second_player_optimal_policy machine) (first_player_optimal_policy machine)
    initial_globals = Fail AssertionFailed.
Proof.
  cbv zeta. split; [exact third_options_machine|].
  split; [vm_compute; reflexivity|].
  split; [vm_compute; reflexivity|].
  unfold DynamicProgramming.initialize_dp_tables.
  rewrite (bind_ok _ _ _ _ _ third_options_machine).
  vm_compute. reflexivity.
Qed.

(** C3, as amended.  The numerator and the denominator are 64-bit
    [long long]s.  In the solve pass that [main] runs (wheel size 20, the
    three optimal policies) no [long long] result leaves the 64-bit range:
    the pass succeeds under checked arithmetic, so the program (wrap-around
    arithmetic) computes exactly the tables that unbounded integers give. *)
Theorem main_pass_is_exact :
  DynamicProgramming.main checked = Ok (tt, dp_solved) /\
  DynamicProgramming.main machine = Ok (tt, dp_solved) /\
  DynamicProgramming.main ideal = Ok (tt, dp_solved).
Proof. exact (conj main_checked (conj main_machine main_ideal)). Qed.

(** ** C5: the three-way tie *)

(** C5.  In the run of [main], every cell of the 3rd player's table where
    the 3rd player stops on the total that both earlier players hold is
    exactly (1/3, 1/3, 1/3). *)
Theorem three_way_tie_is_even_split :
  DynamicProgramming.main machine = Ok (tt, dp_solved) /\
  forall p k : nat, (p <= 20)%nat -> (k <= 2)%nat ->
    at5 (third_player_probability dp_solved) p p p 0 k = one_third.
Proof.
  split; [exact main_machine|].
  assert (H : upto 20 (fun p => upto 2 (fun k =>
            op_eq (at5 (third_player_probability dp_solved) p p p 0 k) one_third)) = true)
    by (vm_compute; reflexivity).
  intros p k Hp Hk. apply op_eq_true.
  exact (upto_spec _ _ (upto_spec _ _ H p Hp) k Hk).
Qed.

Lemma three_way_tie_is_even_split_witness :
  at5 (third_player_probability dp_solved) 7 7 7 0 2 = one_third.
Proof. apply (proj2 three_way_tie_is_even_split 7%nat 2%nat); lia. Defined.

(** ** C8: later movers do better *)

(** C8.  The three probabilities that [main] prints are strictly
    increasing: first player < second player < third player. *)
Theorem later_mover_advantage :
  DynamicProgramming.main machine = Ok (tt, dp_solved) /\
  (toQ (at1 (first_player_policy_probability dp_solved) 0) <
   toQ (at1 (first_player_policy_probability dp_solved) 1))%Q /\
  (toQ (at1 (first_player_policy_probability dp_solved) 1) <
   toQ (at1 (first_player_policy_probability dp_solved) 2))%Q.
Proof.
  split; [exact main_machine|]. split; vm_compute; reflexivity.
Qed.

(** ** C1: the two-way tie *)

(** C1, counterexample.  At the state (first player 5, second player 3,
    third player stops on 5) the table gives the two tied players 1/2 each;
    no solved two-participant sub-game has these win rates, since
    the sub-game played with an even replay gives its second mover
    34711/64000. *)
Lemma two_way_tie_is_not_the_subgame :
  DynamicProgramming.main machine = Ok (tt, dp_solved) /\
  ~ exists r : TwoPlayer.rates,
      TwoPlayer.solved machine r /\
      at5 (third_player_probability dp_solved) 5 3 5 0 0 = fst r /\
      at5 (third_player_probability dp_solved) 5 3 5 0 2 = snd r.
Proof.
  split; [exact main_machine|].
  intros [[f s] [Hs [Hf Ht]]]. simpl in Hf, Ht.
  assert (Ef : f = one_half) by (rewrite <- Hf; vm_compute; reflexivity).
  assert (Es : s = one_half) by (rewrite <- Ht; vm_compute; reflexivity).
  clear Hf Ht. subst f s. unfold TwoPlayer.solved in Hs.
  assert (E : TwoPlayer.two_player_game machine (one_half, one_half) =
              Ok (mkFraction 29289 64000, mkFraction 34711 64000))
    by (vm_compute; reflexivity).
  rewrite E in Hs. discriminate Hs.
Qed.

(** C1, as amended.  In the run of [main], at every state where the 3rd
    player stops on the total of exactly one earlier player and that total
    is the higher one, the table gives the 3rd player and that earlier
    player exactly 1/2 each and the remaining player 0: the spinoff is
    taken to be even, no sub-game is solved. *)
Theorem two_way_tie_is_even_split :
  DynamicProgramming.main machine = Ok (tt, dp_solved) /\
  forall p1 p2 : nat, (p1 <= 20)%nat -> (p2 <= 20)%nat -> p1 <> p2 ->
    let t := third_player_probability dp_solved in
    let tied := (if (p2 <? p1)%nat then 0 else 1)%nat in
    let other := (if (p2 <? p1)%nat then 1 else 0)%nat in
    at5 t p1 p2 (Nat.max p1 p2) 0 2 = one_half /\
    at5 t p1 p2 (Nat.max p1 p2) 0 tied = one_half /\
    at5 t p1 p2 (Nat.max p1 p2) 0 other = zero.
Proof.
  split; [exact main_machine|].
  assert (H : upto 20 (fun p1 => upto 20 (fun p2 =>
            (p1 =? p2)%nat ||
            (let t := third_player_probability dp_solved in
             let tied := (if (p2 <? p1)%nat then 0 else 1)%nat in
             let other := (if (p2 <? p1)%nat then 1 else 0)%nat in
             op_eq (at5 t p1 p2 (Nat.max p1 p2) 0 2) one_half &&
             op_eq (at5 t p1 p2 (Nat.max p1 p2) 0 tied) one_half &&
             op_eq (at5 t p1 p2 (Nat.max p1 p2) 0 other) zero))) = true)
    by (vm_compute; reflexivity).
  intros p1 p2 H1 H2 Hne.
  pose proof (upto_spec _ _ (upto_spec _ _ H p1 H1) p2 H2) as K.
  cbv beta in K. apply orb_true_iff in K. destruct K as [K|K].
  - apply Nat.eqb_eq in K. contradiction.
  - cbv zeta in K |- *. rewrite !andb_true_iff in K. destruct K as [[A B] C].
    split; [|split]; apply op_eq_true; assumption.
Qed.

Lemma two_way_tie_is_even_split_witness :
  at5 (third_player_probability dp_solved) 5 3 (Nat.max 5 3) 0 2 = one_half /\
  at5 (third_player_probability dp_solved) 5 3 (Nat.max 5 3) 0 0 = one_half /\
  at5 (third_player_probability dp_solved) 5 3 (Nat.max 5 3) 0 1 = zero.
Proof.
  apply (proj2 two_way_tie_is_even_split 5%nat 3%nat); [lia | lia | discriminate].
Defined.

(** ** C4: the optimal policies *)

Lemma Fraction_zero_machine : Fraction_ machine 0 1 = Ok zero.
Proof. reflexivity. Qed.

Lemma Fraction_one_machine : Fraction_ machine 1 1 = Ok one.
Proof. reflexivity. Qed.

(** C4, the code at the failing input.  The 3rd and the 2nd player's
    policies compare the player's own entries (indices 2 and 1) and never
    skip the first spin; the 1st player's policy compares the entries of
    index 1, the 2nd player's win probabilities.  In the run of [main],
    after a first spin of 1 the 1st player's own chance is strictly higher
    when spinning again, and the policy answers "stop". *)
Theorem first_policy_compares_second_player :
  (forall g p1 p2 s, s <> 0%nat ->
     third_player_optimal_policy machine g p1 p2 s =
     let! c := op_gt machine (at5 (third_player_probability g) p1 p2 s 1 2)
                 (at5 (third_player_probability g) p1 p2 s 0 2) in
     Ok (if c then one else zero)) /\
  (forall g p1 s, s <> 0%nat ->
     second_player_optimal_policy machine g p1 s =
     let! c := op_gt machine (at4 (second_player_probability g) p1 s 1 1)
                 (at4 (second_player_probability g) p1 s 0 1) in
     Ok (if c then one else zero)) /\
  (forall g s, s <> 0%nat ->
     first_player_optimal_policy machine g s =
     let! c := op_gt machine (at3 (first_player_probability g) s 1 1)
                 (at3 (first_player_probability g) s 0 1) in
     Ok (if c then one else zero)) /\
  (forall g p1 p2, third_player_optimal_policy machine g p1 p2 0%nat = Ok zero) /\
  (forall g p1, second_player_optimal_policy machine g p1 0%nat = Ok zero) /\
  (forall g, first_player_optimal_policy machine g 0%nat = Ok zero) /\
  DynamicProgramming.main machine = Ok (tt, dp_solved) /\
  op_gt machine (at3 (first_player_probability dp_solved) 1 1 0)
    (at3 (first_player_probability dp_solved) 1 0 0) = Ok true /\
  first_player_optimal_policy machine dp_solved 1%nat = Ok zero.
Proof.
  assert (P : forall a b,
             (let! c := op_gt machine a b in
              if c then Fraction_ machine 1 1 else Fraction_ machine 0 1) =
             (let! c := op_gt machine a b in Ok (if c then one else zero))).
  { intros a b. destruct (op_gt machine a b) as [[|]|e]; reflexivity. }
  split; [|split; [|split; [|split; [|split; [|split; [|split; [|split]]]]]]].
  - intros g p1 p2 s Hs. unfold third_player_optimal_policy.
    destruct s; [contradiction|]. simpl Nat.eqb. cbv iota zeta. apply P.
  - intros g p1 s Hs. unfold second_player_optimal_policy.
    destruct s; [contradiction|]. simpl Nat.eqb. cbv iota zeta. apply P.
  - intros g s Hs. unfold first_player_optimal_policy.
    destruct s; [contradiction|]. simpl Nat.eqb. cbv iota zeta. apply P.
  - reflexivity.
  - reflexivity.
  - reflexivity.
  - exact main_machine.
  - vm_compute. reflexivity.
  - vm_compute. reflexivity.
Qed.

Lemma first_policy_compares_second_player_witness :
  first_player_optimal_policy machine dp_solved 1%nat =
  let! c := op_gt machine (at3 (first_player_probability dp_solved) 1 1 1)
              (at3 (first_player_probability dp_solved) 1 0 1) in
  Ok (if c then one else zero).
Proof.
  apply (proj1 (proj2 (proj2 first_policy_compares_second_player)) dp_solved 1%nat).
  discriminate.
Defined.

(** ** Comparisons of fractions on the machine *)

Lemma op_cmp_machine (a b : Fraction) :
  op_cmp machine a b =
  Ok (wrap64 (numerator a * denominator b) ?= wrap64 (numerator b * denominator a)).
Proof. reflexivity. Qed.

Lemma cross_in_range (a b : Fraction) :
  representable a -> representable b ->
  in_range (numerator a * denominator b) = true.
Proof.
  unfold representable, bound31. intros [[Ha1 Ha2] [Ha3 Ha4]] [[Hb1 Hb2] [Hb3 Hb4]].
  apply in_range_spec. unfold LLONG_MIN, LLONG_MAX. nia.
Qed.

Lemma toQ_compare (a b : Fraction) :
  0 < denominator a -> 0 < denominator b ->
  (toQ a ?= toQ b)%Q = (numerator a * denominator b ?= numerator b * denominator a).
Proof.
  intros Ha Hb. unfold Qcompare, toQ. simpl. rewrite !Z2Pos.id by assumption.
  reflexivity.
Qed.

(** On representable fractions [operator<=>] is the order of the values. *)
Lemma op_cmp_exact (a b : Fraction) :
  representable a -> representable b ->
  op_cmp machine a b = Ok (toQ a ?= toQ b)%Q.
Proof.
  intros Ha Hb. rewrite op_cmp_machine.
  rewrite !wrap64_in_range by (apply cross_in_range; assumption).
  rewrite toQ_compare by (apply Ha || apply Hb). reflexivity.
Qed.

Lemma op_lt_exact (a b : Fraction) :
  representable a -> representable b -> op_lt machine a b = Ok (lt_by_value a b).
Proof.
  intros Ha Hb. unfold op_lt. rewrite op_cmp_exact by assumption. reflexivity.
Qed.

Lemma lt_by_value_true (a b : Fraction) : lt_by_value a b = true <-> (toQ a < toQ b)%Q.
Proof.
  unfold lt_by_value. rewrite Qlt_alt.
  destruct (toQ a ?= toQ b)%Q; split; intros H; try reflexivity; discriminate.
Qed.

Lemma lt_by_value_false (a b : Fraction) : lt_by_value a b = false <-> (toQ b <= toQ a)%Q.
Proof.
  rewrite <- not_true_iff_false, lt_by_value_true. split.
  - apply Qnot_lt_le.
  - apply Qle_not_lt.
Qed.

Lemma std_max_exact (a b : Fraction) :
  representable a -> representable b ->
  std_max machine a b = Ok (if lt_by_value a b then b else a).
Proof. intros Ha Hb. unfold std_max. rewrite op_lt_exact by assumption. reflexivity. Qed.

Lemma std_min_exact (a b : Fraction) :
  representable a -> representable b ->
  std_min machine a b = Ok (if lt_by_value b a then b else a).
Proof. intros Ha Hb. unfold std_min. rewrite op_lt_exact by assumption. reflexivity. Qed.

(** Two fractions in lowest terms with the same value are the same. *)
Lemma exact_fraction_eq (a b : Fraction) :
  exact_fraction a -> exact_fraction b -> (toQ a == toQ b)%Q -> a = b.
Proof.
  intros [[[Ha _] _] Ga] [[[Hb _] _] Gb] E.
  unfold Qeq, toQ in E. simpl in E. rewrite !Z2Pos.id in E by assumption.
  unfold lowest_terms in Ga, Gb.
  destruct a as [n d], b as [n' d']. simpl in *.
  assert (D : d = d').
  { apply Z.divide_antisym_nonneg; try lia.
    - apply Z.gauss with n.
      + exists n'. lia.
      + rewrite Z.gcd_comm. exact Ga.
    - apply Z.gauss with n'.
      + exists n. lia.
      + rewrite Z.gcd_comm. exact Gb. }
  subst d'. f_equal. nia.
Qed.

(** The comparison operators never fail on the machine. *)
Lemma op_lt_machine_total (a b : Fraction) : exists c, op_lt machine a b = Ok c.
Proof. unfold op_lt. rewrite op_cmp_machine. eexists. reflexivity. Qed.

Lemma op_gt_lt_swap (a b : Fraction) : op_gt machine a b = op_lt machine b a.
Proof.
  unfold op_gt, op_lt. rewrite !op_cmp_machine. simpl.
  rewrite (Z.compare_antisym (wrap64 (numerator a * denominator b))).
  destruct (wrap64 (numerator a * denominator b) ?= wrap64 (numerator b * denominator a));
    reflexivity.
Qed.




(** ** C10: what a comparison on an [Assumption] changes *)

Lemma obind_Ok {A B : Type} (a : A) (k : A -> outcome B) : obind (Ok a) k = k a.
Proof. reflexivity. Qed.

Lemma Assumption_gt_effect (a : Assumption) (f : Fraction) :
  exists b a',
    Assumption_gt machine a f = Ok (b, a') /\ op_gt machine (value a) f = Ok b /\
    if b then narrows_min a f a' else narrows_max a f a'.
Proof.
  unfold Assumption_gt. rewrite op_gt_lt_swap.
  destruct (op_lt_machine_total f (value a)) as [c Hc]. rewrite Hc, obind_Ok.
  destruct c.
  - destruct (op_lt_machine_total (min_bound a) f) as [c' Hc'].
    unfold std_max. rewrite Hc', obind_Ok.
    exists true, (set_min_bound a (if c' then f else min_bound a)).
    split; [reflexivity|]. split; [reflexivity|].
    unfold narrows_min, std_max. rewrite Hc'. simpl. auto.
  - destruct (op_lt_machine_total f (max_bound a)) as [c' Hc'].
    unfold std_min. rewrite Hc', obind_Ok.
    exists false, (set_max_bound a (if c' then f else max_bound a)).
    split; [reflexivity|]. split; [reflexivity|].
    unfold narrows_max, std_min. rewrite Hc'. simpl. auto.
Qed.

Lemma Assumption_lt_effect (a : Assumption) (f : Fraction) :
  exists b a',
    Assumption_lt machine a f = Ok (b, a') /\ op_lt machine (value a) f = Ok b /\
    if b then narrows_max a f a' else narrows_min a f a'.
Proof.
  unfold Assumption_lt.
  destruct (op_lt_machine_total (value a) f) as [c Hc]. rewrite Hc, obind_Ok.
  destruct c.
  - destruct (op_lt_machine_total f (max_bound a)) as [c' Hc'].
    unfold std_min. rewrite Hc', obind_Ok.
    exists true, (set_max_bound a (if c' then f else max_bound a)).
    split; [reflexivity|]. split; [reflexivity|].
    unfold narrows_max, std_min. rewrite Hc'. simpl. auto.
  - destruct (op_lt_machine_total (min_bound a) f) as [c' Hc'].
    unfold std_max. rewrite Hc', obind_Ok.
    exists false, (set_min_bound a (if c' then f else min_bound a)).
    split; [reflexivity|]. split; [reflexivity|].
    unfold narrows_min, std_max. rewrite Hc'. simpl. auto.
Qed.




(** ** C7: validation *)

Lemma op_le_exact (a b : Fraction) :
  representable a -> representable b ->
  op_le machine a b = Ok (negb (lt_by_value b a)).
Proof.
  intros Ha Hb. unfold op_le, lt_by_value. rewrite op_cmp_exact by assumption.
  rewrite obind_Ok. rewrite <- (Qcompare_antisym (toQ a) (toQ b)).
  destruct (toQ a ?= toQ b)%Q; reflexivity.
Qed.

Lemma negb_lt_by_value (a b : Fraction) :
  negb (lt_by_value b a) = true <-> (toQ a <= toQ b)%Q.
Proof. rewrite negb_true_iff. apply lt_by_value_false. Qed.

(** C7, counterexample.  With bounds [1/3, 1] the value 2^62/(2^62 + 1)
    lies between the bounds, and [is_valid] rejects it: the cross product
    [3 * 2^62] of [min_bound <= true_value] does not fit a [long long] and
    wraps around to a negative number. *)
Lemma wide_value_fails_validation :
  let a := mkAssumption one_half one_third one "size2_win2" in
  let true_value := mkFraction 4611686018427387904 4611686018427387905 in
  is_valid machine a true_value = Ok false /\
  (toQ (min_bound a) <= toQ true_value)%Q /\ (toQ true_value <= toQ (max_bound a))%Q.
Proof.
  cbv zeta. split; [vm_compute; reflexivity|].
  split; unfold Qle; simpl; lia.
Qed.

(** C7, as amended.  When the two bounds and the value validated are
    fractions with positive denominator whose numerator and denominator are
    at most 2^31 in magnitude (so that no cross product of [operator<=>]
    leaves a [long long]), [is_valid] succeeds and answers true exactly
    when the value lies between the two bounds, both included. *)
Theorem is_valid_inclusive (a : Assumption) (true_value : Fraction) :
  representable (min_bound a) -> representable (max_bound a) ->
  representable true_value ->
  exists b, is_valid machine a true_value = Ok b /\
            (b = true <->
             (toQ (min_bound a) <= toQ true_value)%Q /\
             (toQ true_value <= toQ (max_bound a))%Q).
Proof.
  intros Hmin Hmax Ht. unfold is_valid.
  rewrite (op_le_exact _ _ Hmin Ht), obind_Ok.
  destruct (negb (lt_by_value true_value (min_bound a))) eqn:E.
  - rewrite (op_le_exact _ _ Ht Hmax). eexists. split; [reflexivity|].
    rewrite negb_lt_by_value. apply negb_lt_by_value in E. tauto.
  - exists false. split; [reflexivity|]. split; [discriminate|].
    intros [H _]. apply negb_lt_by_value in H. congruence.
Qed.

Lemma is_valid_inclusive_witness :
  exists b,
    is_valid machine (mkAssumption (mkFraction 53 100) zero one "size2_win2") one = Ok b /\
    (b = true <-> (toQ zero <= toQ one)%Q /\ (toQ one <= toQ one)%Q).
Proof.
  apply (is_valid_inclusive (mkAssumption (mkFraction 53 100) zero one "size2_win2") one);
    unfold representable, bound31; simpl; lia.
Defined.

(** ** C6: the bounds only narrow, in any order *)

Lemma exact_narrowed (up : bool) (t : Fraction) (a : Assumption) :
  exact_assumption a -> exact_fraction t -> exact_assumption (narrowed up t a).
Proof.
  intros [Hmin Hmax] Ht. unfold narrowed, exact_assumption.
  destruct up; simpl.
  - destruct (lt_by_value (min_bound a) t); auto.
  - destruct (lt_by_value t (max_bound a)); auto.
Qed.

Lemma narrowed_frame (up : bool) (t : Fraction) (a : Assumption) :
  value (narrowed up t a) = value a /\ name (narrowed up t a) = name a.
Proof. unfold narrowed. destruct up; simpl; auto. Qed.

Lemma narrowed_monotone (up : bool) (t : Fraction) (a : Assumption) :
  (toQ (min_bound a) <= toQ (min_bound (narrowed up t a)))%Q /\
  (toQ (max_bound (narrowed up t a)) <= toQ (max_bound a))%Q.
Proof.
  unfold narrowed. destruct up; simpl.
  - split; [|apply Qle_refl].
    destruct (lt_by_value (min_bound a) t) eqn:E; [|apply Qle_refl].
    apply Qlt_le_weak. apply lt_by_value_true. exact E.
  - split; [apply Qle_refl|].
    destruct (lt_by_value t (max_bound a)) eqn:E; [|apply Qle_refl].
    apply Qlt_le_weak. apply lt_by_value_true. exact E.
Qed.

(** What a comparison does, on exact fractions. *)
Lemma compare_with_exact (r : relation) (a : Assumption) (t : Fraction) :
  exact_assumption a -> exact_fraction t ->
  exists up b,
    raises_min r (value a) t = Ok up /\
    compare_with machine r a t = Ok (b, narrowed up t a).
Proof.
  intros [[Rmin _] [Rmax _]] [Rt _].
  assert (G : Assumption_gt machine a t =
              let! c := op_gt machine (value a) t in Ok (c, narrowed c t a)).
  { unfold Assumption_gt, narrowed.
    rewrite (std_max_exact _ _ Rmin Rt), (std_min_exact _ _ Rmax Rt).
    destruct (op_gt machine (value a) t) as [[|]|e]; reflexivity. }
  assert (L : Assumption_lt machine a t =
              let! c := op_lt machine (value a) t in Ok (c, narrowed (negb c) t a)).
  { unfold Assumption_lt, narrowed.
    rewrite (std_max_exact _ _ Rmin Rt), (std_min_exact _ _ Rmax Rt).
    destruct (op_lt machine (value a) t) as [[|]|e]; reflexivity. }
  destruct (op_lt_machine_total (value a) t) as [c Hc].
  destruct (op_lt_machine_total t (value a)) as [c' Hc'].
  destruct r; unfold raises_min, compare_with, Assumption_ge, Assumption_le;
    rewrite ?G, ?L, ?op_gt_lt_swap, ?Hc, ?Hc', ?obind_Ok; cbv beta;
    rewrite ?obind_Ok; simpl fst; simpl snd; eauto.
Qed.

Lemma record_all_cons (c : relation * Fraction) (cs : list (relation * Fraction))
    (a a' : Assumption) (b : bool) :
  compare_with machine (fst c) a (snd c) = Ok (b, a') ->
  record_all machine (c :: cs) a = record_all machine cs a'.
Proof.
  intros H. unfold record_all. simpl. rewrite H. reflexivity.
Qed.

Lemma record_all_narrows (cs : list (relation * Fraction)) :
  forall a, exact_assumption a -> Forall (fun c => exact_fraction (snd c)) cs ->
  exists a', record_all machine cs a = Ok a' /\
             (toQ (min_bound a) <= toQ (min_bound a'))%Q /\
             (toQ (max_bound a') <= toQ (max_bound a))%Q /\
             value a' = value a /\ name a' = name a.
Proof.
  induction cs as [|c cs IH]; intros a Ha Hcs.
  - exists a. split; [reflexivity|]. repeat split; apply Qle_refl.
  - inversion Hcs as [|c0 cs0 Hc Hrest]; subst.
    destruct (compare_with_exact (fst c) a (snd c) Ha Hc) as [up [b [_ H]]].
    rewrite (record_all_cons _ _ _ _ _ H).
    destruct (IH (narrowed up (snd c) a) (exact_narrowed up _ a Ha Hc) Hrest)
      as [a' [E [M1 [M2 [V N]]]]].
    exists a'. split; [exact E|].
    destruct (narrowed_monotone up (snd c) a) as [K1 K2].
    destruct (narrowed_frame up (snd c) a) as [F1 F2].
    split; [eapply Qle_trans; eassumption|].
    split; [eapply Qle_trans; eassumption|].
    split; congruence.
Qed.

(** The maximum and the minimum by value do not depend on the order in
    which the thresholds come. *)
Lemma max_by_value_swap (m t1 t2 : Fraction) :
  exact_fraction m -> exact_fraction t1 -> exact_fraction t2 ->
  (let m1 := if lt_by_value m t1 then t1 else m in
   if lt_by_value m1 t2 then t2 else m1) =
  (let m2 := if lt_by_value m t2 then t2 else m in
   if lt_by_value m2 t1 then t1 else m2).
Proof.
  intros Hm H1 H2. cbv zeta.
  destruct (lt_by_value m t1) eqn:A; destruct (lt_by_value m t2) eqn:B;
    rewrite ?A, ?B;
    try (destruct (lt_by_value t1 t2) eqn:C); try (destruct (lt_by_value t2 t1) eqn:D);
    rewrite ?A, ?B; try reflexivity;
    repeat match goal with
           | H : lt_by_value _ _ = true |- _ => apply lt_by_value_true in H
           | H : lt_by_value _ _ = false |- _ => apply lt_by_value_false in H
           end;
    try (exfalso; lra);
    try (apply exact_fraction_eq; [assumption | assumption | lra]).
Qed.

Lemma min_by_value_swap (m t1 t2 : Fraction) :
  exact_fraction m -> exact_fraction t1 -> exact_fraction t2 ->
  (let m1 := if lt_by_value t1 m then t1 else m in
   if lt_by_value t2 m1 then t2 else m1) =
  (let m2 := if lt_by_value t2 m then t2 else m in
   if lt_by_value t1 m2 then t1 else m2).
Proof.
  intros Hm H1 H2. cbv zeta.
  destruct (lt_by_value t1 m) eqn:A; destruct (lt_by_value t2 m) eqn:B;
    rewrite ?A, ?B;
    try (destruct (lt_by_value t1 t2) eqn:C); try (destruct (lt_by_value t2 t1) eqn:D);
    rewrite ?A, ?B; try reflexivity;
    repeat match goal with
           | H : lt_by_value _ _ = true |- _ => apply lt_by_value_true in H
           | H : lt_by_value _ _ = false |- _ => apply lt_by_value_false in H
           end;
    try (exfalso; lra);
    try (apply exact_fraction_eq; [assumption | assumption | lra]).
Qed.

Lemma narrowed_swap (u1 u2 : bool) (t1 t2 : Fraction) (a : Assumption) :
  exact_assumption a -> exact_fraction t1 -> exact_fraction t2 ->
  narrowed u2 t2 (narrowed u1 t1 a) = narrowed u1 t1 (narrowed u2 t2 a).
Proof.
  intros [Hmin Hmax] H1 H2. unfold narrowed.
  destruct u1, u2; simpl; unfold set_min_bound, set_max_bound; simpl;
    try reflexivity; f_equal.
  - exact (max_by_value_swap _ _ _ Hmin H1 H2).
  - exact (min_by_value_swap _ _ _ Hmax H1 H2).
Qed.

Lemma record_two (c1 c2 : relation * Fraction) (a : Assumption) :
  exact_assumption a -> exact_fraction (snd c1) -> exact_fraction (snd c2) ->
  exists u1 u2,
    raises_min (fst c1) (value a) (snd c1) = Ok u1 /\
    raises_min (fst c2) (value a) (snd c2) = Ok u2 /\
    record_all machine [c1; c2] a = Ok (narrowed u2 (snd c2) (narrowed u1 (snd c1) a)).
Proof.
  intros Ha H1 H2.
  destruct (compare_with_exact (fst c1) a (snd c1) Ha H1) as [u1 [b1 [R1 E1]]].
  pose proof (exact_narrowed u1 _ a Ha H1) as Ha1.
  destruct (compare_with_exact (fst c2) _ (snd c2) Ha1 H2) as [u2 [b2 [R2 E2]]].
  rewrite (proj1 (narrowed_frame u1 (snd c1) a)) in R2.
  exists u1, u2. split; [exact R1|]. split; [exact R2|].
  rewrite (record_all_cons _ _ _ _ _ E1), (record_all_cons _ _ _ _ _ E2).
  reflexivity.
Qed.

(** C6, counterexample.  With [min_bound] = 4294967295/4294967296 and the
    assumed value 1, the comparison [> 1/4294967296] answers true and
    lowers [min_bound] to 1/4294967296: in [std::max] the cross product
    [4294967295 * 4294967296] wraps around to a negative number.  The
    comparisons [> 1/4294967296] and [> 1/4] leave [min_bound] at 1/4 in
    one order and at 1/4294967296 in the other. *)
Lemma wide_bound_is_lowered :
  let a := mkAssumption one (mkFraction 4294967295 4294967296) one "size2_win2" in
  let t := mkFraction 1 4294967296 in
  let c1 := (Rgt, t) in
  let c2 := (Rgt, mkFraction 1 4) in
  Assumption_gt machine a t = Ok (true, set_min_bound a t) /\
  (toQ t < toQ (min_bound a))%Q /\
  record_all machine [c1; c2] a = Ok (set_min_bound a (mkFraction 1 4)) /\
  record_all machine [c2; c1] a = Ok (set_min_bound a t).
Proof.
  cbv zeta. split; [vm_compute; reflexivity|].
  split; [unfold Qlt; simpl; lia|].
  split; vm_compute; reflexivity.
Qed.

(** C6, as amended.  When the bounds and the thresholds are fractions in
    lowest terms with positive denominator whose numerator and denominator
    are at most 2^31 in magnitude (so that no cross product of
    [operator<=>] leaves a [long long]): [operator>] puts [min_bound] at
    the larger of [min_bound] and the threshold when it answers true, and
    [max_bound] at the smaller of [max_bound] and the threshold when it
    answers false; [operator<] does the converse.  Hence, along any
    sequence of comparisons [min_bound] never decreases and [max_bound]
    never increases, and two comparisons made in either order leave the
    same object. *)
Theorem bounds_only_narrow (a : Assumption) (t : Fraction)
    (cs : list (relation * Fraction)) (c1 c2 : relation * Fraction) :
  exact_assumption a -> exact_fraction t ->
  Forall (fun c => exact_fraction (snd c)) cs ->
  exact_fraction (snd c1) -> exact_fraction (snd c2) ->
  (exists b a',
     Assumption_gt machine a t = Ok (b, a') /\
     if b then (toQ (min_bound a') == Qmax (toQ (min_bound a)) (toQ t))%Q /\
               max_bound a' = max_bound a
     else (toQ (max_bound a') == Qmin (toQ (max_bound a)) (toQ t))%Q /\
          min_bound a' = min_bound a) /\
  (exists b a',
     Assumption_lt machine a t = Ok (b, a') /\
     if b then (toQ (max_bound a') == Qmin (toQ (max_bound a)) (toQ t))%Q /\
               min_bound a' = min_bound a
     else (toQ (min_bound a') == Qmax (toQ (min_bound a)) (toQ t))%Q /\
          max_bound a' = max_bound a) /\
  (exists a',
     record_all machine cs a = Ok a' /\
     (toQ (min_bound a) <= toQ (min_bound a'))%Q /\
     (toQ (max_bound a') <= toQ (max_bound a))%Q) /\
  record_all machine [c1; c2] a = record_all machine [c2; c1] a.
Proof.
  intros Ha Ht Hcs H1 H2.
  assert (MAX : (toQ (if lt_by_value (min_bound a) t then t else min_bound a) ==
                 Qmax (toQ (min_bound a)) (toQ t))%Q).
  { destruct (lt_by_value (min_bound a) t) eqn:E.
    - apply lt_by_value_true in E. symmetry. apply Q.max_r. apply Qlt_le_weak, E.
    - apply lt_by_value_false in E. symmetry. apply Q.max_l. exact E. }
  assert (MIN : (toQ (if lt_by_value t (max_bound a) then t else max_bound a) ==
                 Qmin (toQ (max_bound a)) (toQ t))%Q).
  { destruct (lt_by_value t (max_bound a)) eqn:E.
    - apply lt_by_value_true in E. symmetry. apply Q.min_r. apply Qlt_le_weak, E.
    - apply lt_by_value_false in E. symmetry. apply Q.min_l. exact E. }
  split; [|split; [|split]].
  - destruct (compare_with_exact Rgt a t Ha Ht) as [up [b [R E]]].
    unfold raises_min, compare_with in R, E. exists b, (narrowed up t a). split; [exact E|].
    destruct (Assumption_gt_effect a t) as [b' [a' [E' [G _]]]].
    rewrite E in E'. injection E' as -> _. rewrite R in G. injection G as ->.
    unfold narrowed. destruct b'; simpl; auto.
  - destruct (compare_with_exact Rlt a t Ha Ht) as [up [b [R E]]].
    unfold raises_min, compare_with in R, E. exists b, (narrowed up t a). split; [exact E|].
    destruct (Assumption_lt_effect a t) as [b' [a' [E' [G _]]]].
    rewrite E in E'. injection E' as -> _. rewrite G, obind_Ok in R.
    injection R as <-. unfold narrowed. destruct b'; simpl; auto.
  - destruct (record_all_narrows cs a Ha Hcs) as [a' [E [M1 [M2 _]]]].
    exists a'. auto.
  - destruct (record_two c1 c2 a Ha H1 H2) as [u1 [u2 [R1 [R2 E]]]].
    destruct (record_two c2 c1 a Ha H2 H1) as [v2 [v1 [S2 [S1 E']]]].
    rewrite E, E'. rewrite R1 in S1. rewrite R2 in S2.
    injection S1 as <-. injection S2 as <-.
    f_equal. apply narrowed_swap; assumption.
Qed.

Lemma bounds_only_narrow_witness :
  let a := mkAssumption (mkFraction 53 100) zero one "size2_win2" in
  let t := mkFraction 3 5 in
  let cs := [(Rgt, one_half); (Rlt, mkFraction 3 5); (Rge, mkFraction 1 4)] in
  let c1 := (Rgt, one_half) in
  let c2 := (Rle, mkFraction 11 20) in
  (exists b a',
     Assumption_gt machine a t = Ok (b, a') /\
     if b then (toQ (min_bound a') == Qmax (toQ (min_bound a)) (toQ t))%Q /\
               max_bound a' = max_bound a
     else (toQ (max_bound a') == Qmin (toQ (max_bound a)) (toQ t))%Q /\
          min_bound a' = min_bound a) /\
  (exists b a',
     Assumption_lt machine a t = Ok (b, a') /\
     if b then (toQ (max_bound a') == Qmin (toQ (max_bound a)) (toQ t))%Q /\
               min_bound a' = min_bound a
     else (toQ (min_bound a') == Qmax (toQ (min_bound a)) (toQ t))%Q /\
          max_bound a' = max_bound a) /\
  (exists a',
     record_all machine cs a = Ok a' /\
     (toQ (min_bound a) <= toQ (min_bound a'))%Q /\
     (toQ (max_bound a') <= toQ (max_bound a))%Q) /\
  record_all machine [c1; c2] a = record_all machine [c2; c1] a.
Proof.
  intros a t cs c1 c2.
  assert (E : forall n d, 0 < d <= bound31 -> - bound31 <= n <= bound31 ->
                          Z.gcd n d = 1 -> exact_fraction (mkFraction n d)).
  { intros n d Hd Hn Hg. split; [split; assumption | exact Hg]. }
  apply (bounds_only_narrow a t cs c1 c2).
  - split; apply E; unfold bound31; simpl; try lia; reflexivity.
  - apply E; unfold bound31; simpl; try lia; reflexivity.
  - repeat constructor; unfold bound31; simpl; try lia.
  - apply E; unfold bound31; simpl; try lia; reflexivity.
  - apply E; unfold bound31; simpl; try lia; reflexivity.
Defined.

(** ** Reading back what was written *)

Lemma nth_upd {A : Type} (d : A) (f : A -> A) (j : nat) :
  forall (l : list A) (i : nat),
    nth i (upd d j f l) d = if (i =? j)%nat then f (nth i l d) else nth i l d.
Proof.
  induction j as [|j IH]; intros l i.
  - destruct l as [|x l], i as [|i]; simpl; try reflexivity. destruct i; reflexivity.
  - destruct l as [|x l], i as [|i]; simpl; try reflexivity.
    + rewrite IH. destruct (i =? j)%nat; destruct i; reflexivity.
    + apply IH.
Qed.

Lemma at1_put1 (t : arr1) (a a' : nat) (v : Fraction) :
  at1 (put1 a v t) a' = if (a' =? a)%nat then v else at1 t a'.
Proof. unfold at1, put1. apply nth_upd. Qed.

Lemma at2_put2 (t : arr2) (a b a' b' : nat) (v : Fraction) :
  at2 (put2 a b v t) a' b' =
  if ((a' =? a) && (b' =? b))%nat then v else at2 t a' b'.
Proof.
  unfold at2, put2. rewrite nth_upd. destruct (a' =? a)%nat; [|reflexivity].
  apply at1_put1.
Qed.

Lemma at3_put3 (t : arr3) (a b c a' b' c' : nat) (v : Fraction) :
  at3 (put3 a b c v t) a' b' c' =
  if ((a' =? a) && ((b' =? b) && (c' =? c)))%nat then v else at3 t a' b' c'.
Proof.
  unfold at3, put3. rewrite nth_upd. destruct (a' =? a)%nat; [|reflexivity].
  apply at2_put2.
Qed.

Lemma at4_put4 (t : arr4) (a b c d a' b' c' d' : nat) (v : Fraction) :
  at4 (put4 a b c d v t) a' b' c' d' =
  if ((a' =? a) && ((b' =? b) && ((c' =? c) && (d' =? d))))%nat then v
  else at4 t a' b' c' d'.
Proof.
  unfold at4, put4. rewrite nth_upd. destruct (a' =? a)%nat; [|reflexivity].
  apply at3_put3.
Qed.

Lemma at5_put5 (t : arr5) (a b c d e a' b' c' d' e' : nat) (v : Fraction) :
  at5 (put5 a b c d e v t) a' b' c' d' e' =
  if ((a' =? a) && ((b' =? b) && ((c' =? c) && ((d' =? d) && (e' =? e)))))%nat then v
  else at5 t a' b' c' d' e'.
Proof.
  unfold at5, put5. rewrite nth_upd. destruct (a' =? a)%nat; [|reflexivity].
  apply at4_put4.
Qed.

(** ** Stepping through code that reads and writes the globals *)

Lemma bind_inv {A B : Type} (m : M A) (k : A -> M B) (g : globals) (r : B * globals) :
  bind m k g = Ok r -> exists a g1, m g = Ok (a, g1) /\ k a g1 = Ok r.
Proof.
  unfold bind. destruct (m g) as [[a g1]|e]; [|discriminate].
  intros H. exists a, g1. auto.
Qed.

Lemma read_inv {A : Type} (f : globals -> A) (g g1 : globals) (a : A) :
  read f g = Ok (a, g1) -> a = f g /\ g1 = g.
Proof. unfold read. intros H. injection H as <- <-. auto. Qed.

Lemma write_inv (f : globals -> globals) (g g1 : globals) (a : unit) :
  write f g = Ok (a, g1) -> g1 = f g.
Proof. unfold write. intros H. injection H as _ <-. reflexivity. Qed.

Lemma lift_inv {A : Type} (o : outcome A) (g g1 : globals) (a : A) :
  lift o g = Ok (a, g1) -> o = Ok a /\ g1 = g.
Proof.
  unfold lift. destruct o as [x|e]; [|discriminate].
  intros H. injection H as <- <-. auto.
Qed.

Lemma call_inv {A : Type} (f : globals -> outcome A) (g g1 : globals) (a : A) :
  call f g = Ok (a, g1) -> f g = Ok a /\ g1 = g.
Proof.
  unfold call. destruct (f g) as [x|e]; [|discriminate].
  intros H. injection H as <- <-. auto.
Qed.

Lemma assert_inv (b : bool) (g g1 : globals) (a : unit) :
  assert b g = Ok (a, g1) -> b = true /\ g1 = g.
Proof.
  unfold assert. destruct b; [|discriminate].
  intros H. injection H as _ <-. auto.
Qed.

Lemma assert_wins_inv (w : wins) (g g1 : globals) (a : unit) :
  assert_wins machine w g = Ok (a, g1) ->
  sums_to_one machine (fst (fst w)) (snd (fst w)) (snd w) = Ok true /\ g1 = g.
Proof.
  destruct w as [[w1 w2] w3]. unfold assert_wins. intros H.
  apply bind_inv in H. destruct H as [ok [g2 [H1 H2]]].
  apply lift_inv in H1. destruct H1 as [H1 ->].
  apply assert_inv in H2. destruct H2 as [-> ->]. auto.
Qed.

(** The loop of a collapse, as a function of what it reads. *)
Lemma fold_left_fail {A : Type} (f : outcome A -> nat -> outcome A) (l : list nat)
    (e : error) :
  (forall x, f (Fail e) x = Fail e) -> fold_left f l (Fail e) = Fail e.
Proof. intros H. induction l as [|x l IH]; simpl; [reflexivity|]. rewrite H. exact IH. Qed.

Lemma integrate_integrated (ll : arith) (policy : nat -> globals -> outcome Fraction)
    (again stop : nat -> globals -> nat -> Fraction) (g : globals) :
  integrate ll policy again stop g =
  match integrated ll (fun spin => policy spin g) (fun spin => again spin g)
          (fun spin => stop spin g) with
  | Ok w => Ok (w, g)
  | Fail e => Fail e
  end.
Proof.
  unfold integrate, integrated, bind, lift, fold_.
  destruct (zero_wins ll) as [w0|e]; [|reflexivity]. rewrite obind_Ok.
  destruct (Fraction_ ll 1 20) as [sp|e]; [|reflexivity]. rewrite obind_Ok.
  change (20 + 1 - 1)%nat with 20%nat.
  generalize (seq 1 20). intros l. revert w0.
  induction l as [|spin l IH]; intros w0; [reflexivity|].
  cbn [fold_each fold_left]. unfold bind, call, read. rewrite obind_Ok.
  destruct (policy spin g) as [pol|e]; cbn [obind].
  - unfold lift.
    destruct (collapse_step ll sp pol (again spin g) (stop spin g) w0) as [w1|e].
    + apply IH.
    + rewrite fold_left_fail by (intros; reflexivity). reflexivity.
  - rewrite fold_left_fail by (intros; reflexivity). reflexivity.
Qed.


Lemma integrate_inv (ll : arith) (policy : nat -> globals -> outcome Fraction)
    (again stop : nat -> globals -> nat -> Fraction) (g g' : globals) (w : wins) :
  integrate ll policy again stop g = Ok (w, g') ->
  integrated ll (fun spin => policy spin g) (fun spin => again spin g)
    (fun spin => stop spin g) = Ok w /\ g' = g.
Proof.
  rewrite integrate_integrated.
  destruct (integrated _ _ _ _) as [w'|e]; [|discriminate].
  intros H. injection H as <- <-. auto.
Qed.

(** One step of the inversion of a run. *)
Ltac mstep H :=
  let a := fresh "a" in
  let g1 := fresh "g" in
  let H1 := fresh "H" in
  lazymatch type of H with bind _ _ _ = _ => idtac end;
  apply bind_inv in H; destruct H as [a [g1 [H1 H]]];
  lazymatch type of H1 with
  | read _ _ = _ => apply read_inv in H1; destruct H1 as [? ?]; subst a g1
  | write _ _ = _ => apply write_inv in H1; subst g1
  | lift _ _ = _ => apply lift_inv in H1; destruct H1 as [H1 ?]; subst g1
  | call _ _ = _ => apply call_inv in H1; destruct H1 as [H1 ?]; subst g1
  | assert_wins _ _ _ = _ => apply assert_wins_inv in H1; destruct H1 as [H1 ?]; subst g1
  | integrate _ _ _ _ _ = _ => apply integrate_inv in H1; destruct H1 as [H1 ?]; subst g1
  | _ => idtac
  end.


(** Projections of updated globals, and entries read back. *)
Ltac tables :=
  cbn [third_player_probability third_player_policy_probability
       second_player_probability second_player_policy_probability
       first_player_probability first_player_policy_probability
       with_third with_third_policy with_second with_second_policy
       with_first with_first_policy] in *;
  rewrite ?at1_put1, ?at2_put2, ?at3_put3, ?at4_put4, ?at5_put5, ?Nat.eqb_refl in *;
  cbn [andb Nat.eqb] in *.

(** ** C9: the weight of skipping the first spin *)










(** ** C2: every cell sums to one *)

(** A loop whose turns each settle some cells and disturb no settled
    cell settles all of them. *)
Lemma for_each_cells {K : Type} (Fr : globals -> Prop) (Good : K -> globals -> Prop)
    (keys : nat -> K -> Prop) (body : nat -> M unit) (l : list nat) :
  (forall i g g', In i l -> Fr g -> body i g = Ok (tt, g') ->
     Fr g' /\ forall k, Good k g \/ keys i k -> Good k g') ->
  forall g g', Fr g -> for_each l body g = Ok (tt, g') ->
    Fr g' /\ forall k, Good k g \/ (exists i, In i l /\ keys i k) -> Good k g'.
Proof.
  induction l as [|i l IH]; intros Hb g g' Hg H.
  - simpl in H. unfold ret in H. injection H as <-. split; [exact Hg|].
    intros k [Hk|[i [[] _]]]. exact Hk.
  - simpl in H. apply bind_inv in H. destruct H as [[] [g1 [H1 H2]]].
    destruct (Hb i g g1 (or_introl eq_refl) Hg H1) as [Hg1 Hk1].
    destruct (IH (fun j a b Hj => Hb j a b (or_intror Hj)) g1 g' Hg1 H2) as [Hg' Hk'].
    split; [exact Hg'|]. intros k [Hk|[j [[<-|Hj] Hkj]]].
    + apply Hk'. left. apply Hk1. left. exact Hk.
    + apply Hk'. left. apply Hk1. right. exact Hkj.
    + apply Hk'. right. exists j. auto.
Qed.

Lemma in_seq_0 (n i : nat) : In i (seq 0 (n + 1 - 0)) <-> (i <= n)%nat.
Proof. rewrite in_seq. lia. Qed.

Lemma for_cells {K : Type} (Fr : globals -> Prop) (Good : K -> globals -> Prop)
    (keys : nat -> K -> Prop) (body : nat -> M unit) (n : nat) :
  (forall i g g', (i <= n)%nat -> Fr g -> body i g = Ok (tt, g') ->
     Fr g' /\ forall k, Good k g \/ keys i k -> Good k g') ->
  forall g g', Fr g -> for_ 0 n body g = Ok (tt, g') ->
    Fr g' /\ forall k, Good k g \/ (exists i, (i <= n)%nat /\ keys i k) -> Good k g'.
Proof.
  intros Hb g g' Hg H. unfold for_ in H.
  apply (for_each_cells Fr Good keys) in H; [| |exact Hg].
  - destruct H as [Hg' Hk]. split; [exact Hg'|].
    intros k [Hk0|[i [Hi Hki]]]; apply Hk; [left; exact Hk0|].
    right. exists i. split; [apply in_seq_0; exact Hi|exact Hki].
  - intros i a b Hi. apply Hb. apply in_seq_0. exact Hi.
Qed.

Lemma for_rel (R : globals -> globals -> Prop) (body : nat -> M unit) (lo hi : nat) :
  (forall g, R g g) -> (forall g1 g2 g3, R g1 g2 -> R g2 g3 -> R g1 g3) ->
  (forall i g g', body i g = Ok (tt, g') -> R g g') ->
  forall g g', for_ lo hi body g = Ok (tt, g') -> R g g'.
Proof.
  intros Hr Ht Hb g g' H. unfold for_ in H.
  revert g g' H. induction (seq lo (hi + 1 - lo)) as [|i l IH]; intros g g' H; simpl in H.
  - unfold ret in H. injection H as <-. apply Hr.
  - apply bind_inv in H. destruct H as [[] [g1 [H1 H2]]].
    eapply Ht; [apply (Hb i); exact H1 | apply IH; exact H2].
Qed.

Lemma prod_eq_dec3 (a b : nat * nat * nat) : a = b \/ a <> b.
Proof.
  destruct a as [[a1 a2] a3], b as [[b1 b2] b3].
  destruct (Nat.eq_dec a1 b1) as [->|H1]; [|right; congruence].
  destruct (Nat.eq_dec a2 b2) as [->|H2]; [|right; congruence].
  destruct (Nat.eq_dec a3 b3) as [->|H3]; [left; reflexivity|right; congruence].
Qed.


Lemma eqb_pair_true (q1 q2 p1 p2 : nat) :
  ((q1 =? p1) && (q2 =? p2))%nat = true -> q1 = p1 /\ q2 = p2.
Proof. rewrite andb_true_iff, !Nat.eqb_eq. trivial. Qed.



Lemma second_only_refl c g : second_only c g g.
Proof.
  split; [|intros; reflexivity]. exists (second_player_probability g).
  destruct g. reflexivity.
Qed.

Lemma second_only_trans c g1 g2 g3 :
  second_only c g1 g2 -> second_only c g2 g3 -> second_only c g1 g3.
Proof.
  intros [[t2 E2] H2] [[t3 E3] H3]. split.
  - exists t3. rewrite E3, E2. reflexivity.
  - intros q1 q2 q3 k Hq. rewrite (H3 q1 q2 q3 k Hq). apply H2. exact Hq.
Qed.

Lemma second_only_put (p1 s sa k : nat) (v : Fraction) (g : globals) :
  second_only (p1, s, sa) g (with_second (put4 p1 s sa k v) g).
Proof.
  split; [eexists; reflexivity|]. intros q1 q2 q3 j Hq. cbn [fst snd] in Hq.
  tables.
  destruct (q1 =? p1)%nat; [|reflexivity].
  destruct (q2 =? s)%nat; [|reflexivity].
  destruct (q3 =? sa)%nat; [discriminate|reflexivity].
Qed.

Lemma second_add_only (prob t : Fraction) (p1 s sa k : nat) (g g' : globals) (u : unit) :
  second_add machine p1 s sa k prob t g = Ok (u, g') -> second_only (p1, s, sa) g g'.
Proof.
  unfold second_add. intros H. repeat mstep H. apply write_inv in H. subst g'.
  apply second_only_put.
Qed.







Lemma first_only_refl c g : first_only c g g.
Proof.
  split; [|intros; reflexivity]. exists (first_player_probability g).
  destruct g. reflexivity.
Qed.

Lemma first_only_trans c g1 g2 g3 :
  first_only c g1 g2 -> first_only c g2 g3 -> first_only c g1 g3.
Proof.
  intros [[t2 E2] H2] [[t3 E3] H3]. split.
  - exists t3. rewrite E3, E2. reflexivity.
  - intros q1 q2 k Hq. rewrite (H3 q1 q2 k Hq). apply H2. exact Hq.
Qed.

Lemma first_only_put (s sa k : nat) (v : Fraction) (g : globals) :
  first_only (s, sa) g (with_first (put3 s sa k v) g).
Proof.
  split; [eexists; reflexivity|]. intros q1 q2 j Hq. cbn [fst snd] in Hq.
  tables.
  destruct (q1 =? s)%nat; [|reflexivity].
  destruct (q2 =? sa)%nat; [discriminate|reflexivity].
Qed.

Lemma first_add_only (prob t : Fraction) (s sa k : nat) (g g' : globals) (u : unit) :
  first_add machine s sa k prob t g = Ok (u, g') -> first_only (s, sa) g g'.
Proof.
  unfold first_add. intros H. repeat mstep H. apply write_inv in H. subst g'.
  apply first_only_put.
Qed.



Lemma prod_eq_dec2 (a b : nat * nat) : a = b \/ a <> b.
Proof.
  destruct a as [a1 a2], b as [b1 b2].
  destruct (Nat.eq_dec a1 b1) as [->|H1]; [|right; congruence].
  destruct (Nat.eq_dec a2 b2) as [->|H2]; [left; reflexivity|right; congruence].
Qed.







Lemma initialize_inv (ll : arith) (pol3 : policy3) (pol2 : policy2) (pol1 : policy1)
    (g0 g : globals) :
  DynamicProgramming.initialize_dp_tables ll pol3 pol2 pol1 g0 = Ok (tt, g) ->
  exists g1, DynamicProgramming.third_player_options ll g0 = Ok (tt, g1) /\
             DynamicProgramming.later_stages ll pol3 pol2 pol1 g1 = Ok (tt, g).
Proof.
  unfold DynamicProgramming.initialize_dp_tables. intros H.
  apply bind_inv in H. destruct H as [[] [g1 [H1 H]]]. exists g1. auto.
Qed.








(** * Further properties of the code *)

(** ** fraction.cpp: the constructor *)

Lemma wrap64_negatable (z : Z) : negatable z -> wrap64 z = z.
Proof.
  intros H. apply wrap64_in_range. apply in_range_spec.
  unfold negatable, LLONG_MAX in H. unfold LLONG_MIN, LLONG_MAX. lia.
Qed.

Lemma canonical_eq (a b : Fraction) :
  canonical a -> canonical b ->
  numerator a * denominator b = numerator b * denominator a -> a = b.
Proof.
  intros [Ha Ga] [Hb Gb] E. destruct a as [n d], b as [n' d']. simpl in *.
  assert (D : d = d').
  { apply Z.divide_antisym_nonneg; try lia.
    - apply Z.gauss with n.
      + exists n'. lia.
      + rewrite Z.gcd_comm. exact Ga.
    - apply Z.gauss with n'.
      + exists n. lia.
      + rewrite Z.gcd_comm. exact Gb. }
  subst d'. f_equal. nia.
Qed.

Lemma abs_factor (q g : Z) : 0 < g -> Z.abs q <= Z.abs (q * g).
Proof.
  intros Hg. rewrite Z.abs_mul, (Z.abs_eq g) by lia.
  pose proof (Z.abs_nonneg q). nia.
Qed.

(** What [simplify] computes on the machine, away from the one value
    ([LLONG_MIN]) whose absolute value is not a [long long]. *)
Lemma simplify_machine (n d : Z) :
  negatable n -> negatable d -> d <> 0 ->
  exists f, simplify machine (mkFraction n d) = Ok f /\ canonical f /\
            numerator f * d = n * denominator f /\
            Z.abs (numerator f) <= Z.abs n /\ denominator f <= Z.abs d.
Proof.
  intros Hn Hd Hd0. unfold simplify. simpl numerator. simpl denominator.
  destruct (Z.eqb_spec d 0) as [|_]; [contradiction|].
  destruct (Z.eqb_spec n 0) as [->|Hn0].
  - exists (mkFraction 0 1). split; [reflexivity|]. unfold canonical. simpl.
    repeat split; lia.
  - unfold machine. rewrite !obind_Ok.
    assert (An : negatable (Z.abs n)) by (unfold negatable in *; lia).
    assert (Ad : negatable (Z.abs d)) by (unfold negatable in *; lia).
    rewrite (wrap64_negatable _ An), (wrap64_negatable _ Ad).
    rewrite Z.gcd_abs_l, Z.gcd_abs_r.
    set (g := Z.gcd n d).
    assert (Hg : 0 < g).
    { pose proof (Z.gcd_nonneg n d). assert (g <> 0); [|subst g; lia].
      subst g. intros E. apply Z.gcd_eq_0_l in E. contradiction. }
    destruct (Z.gcd_divide_l n d) as [qn Eqn]. fold g in Eqn.
    destruct (Z.gcd_divide_r n d) as [qd Eqd]. fold g in Eqd.
    assert (Gq : Z.gcd qn qd = 1).
    { assert (E : Z.gcd (qn * g) (qd * g) = Z.gcd qn qd * g)
        by (apply Z.gcd_mul_mono_r_nonneg; lia).
      rewrite <- Eqn, <- Eqd in E. fold g in E.
      pose proof (Z.gcd_nonneg qn qd). nia. }
    assert (Bn : Z.abs qn <= Z.abs n).
    { replace (Z.abs n) with (Z.abs (qn * g)) by (f_equal; symmetry; exact Eqn).
      apply abs_factor; lia. }
    assert (Bd : Z.abs qd <= Z.abs d).
    { replace (Z.abs d) with (Z.abs (qd * g)) by (f_equal; symmetry; exact Eqd).
      apply abs_factor; lia. }
    assert (Gr : negatable g).
    { unfold negatable in *. assert (g <= Z.abs n); [|lia].
      replace (Z.abs n) with (Z.abs (qn * g)) by (f_equal; symmetry; exact Eqn).
      rewrite Z.abs_mul, (Z.abs_eq g) by lia.
      assert (1 <= Z.abs qn); [|nia].
      assert (qn <> 0) by (intros ->; lia). lia. }
    rewrite (wrap64_negatable _ Gr).
    assert (Qn : Z.quot n g = qn) by (rewrite Eqn; apply Z.quot_mul; lia).
    assert (Qd : Z.quot d g = qd) by (rewrite Eqd; apply Z.quot_mul; lia).
    rewrite Qn, Qd.
    assert (Rn : negatable qn) by (unfold negatable in *; lia).
    assert (Rd : negatable qd) by (unfold negatable in *; lia).
    rewrite (wrap64_negatable _ Rn), (wrap64_negatable _ Rd).
    assert (Hqd : qd <> 0) by (intros ->; lia).
    destruct (Z.ltb_spec qd 0) as [Neg|Pos].
    + assert (Rn' : negatable (qn * -1)) by (unfold negatable in *; lia).
      assert (Rd' : negatable (qd * -1)) by (unfold negatable in *; lia).
      rewrite (wrap64_negatable _ Rn'), (wrap64_negatable _ Rd').
      eexists. split; [reflexivity|]. unfold canonical. simpl.
      replace (qn * -1) with (- qn) by lia. replace (qd * -1) with (- qd) by lia.
      rewrite Z.gcd_opp_l, Z.gcd_opp_r.
      repeat split; first [lia | nia].
    + eexists. split; [reflexivity|]. unfold canonical. simpl.
      repeat split; first [lia | nia].
Qed.

(** X1.  On the machine the constructor fails exactly when the denominator
    is 0 (with the message of [simplify]); otherwise it returns a fraction
    with positive denominator, in lowest terms, of the same value. *)
Theorem constructor_canonical (num denom : Z) :
  negatable num -> negatable denom ->
  (denom = 0 ->
   Fraction_ machine num denom = Fail (RuntimeError "Denominator cannot be zero")) /\
  (denom <> 0 ->
   exists f, Fraction_ machine num denom = Ok f /\ canonical f /\
             numerator f * denom = num * denominator f).
Proof.
  intros Hn Hd. split.
  - intros ->. reflexivity.
  - intros Hd0. destruct (simplify_machine num denom Hn Hd Hd0) as [f [E [C [V _]]]].
    exists f. auto.
Qed.

Lemma constructor_canonical_witness :
  Fraction_ machine 4 0 = Fail (RuntimeError "Denominator cannot be zero") /\
  exists f, Fraction_ machine 4 (-6) = Ok f /\ canonical f /\
            numerator f * -6 = 4 * denominator f.
Proof.
  split.
  - apply (constructor_canonical 4 0); unfold negatable, LLONG_MAX; lia.
  - apply (constructor_canonical 4 (-6)); unfold negatable, LLONG_MAX; lia.
Defined.

(** X2.  Canonicalisation is idempotent: building a fraction from a
    common multiple of a numerator and a denominator gives the same
    object as building it from them. *)
Theorem constructor_common_factor (k a b : Z) :
  k <> 0 -> b <> 0 ->
  negatable a -> negatable b -> negatable (k * a) -> negatable (k * b) ->
  Fraction_ machine (k * a) (k * b) = Fraction_ machine a b.
Proof.
  intros Hk Hb Ra Rb Rka Rkb.
  assert (Hkb : k * b <> 0) by nia.
  destruct (simplify_machine _ _ Rka Rkb Hkb) as [f1 [E1 [C1 [V1 _]]]].
  destruct (simplify_machine _ _ Ra Rb Hb) as [f2 [E2 [C2 [V2 _]]]].
  unfold Fraction_. rewrite E1, E2. f_equal.
  apply canonical_eq; [assumption|assumption|].
  assert (K : k * b * (numerator f1 * denominator f2) =
              k * b * (numerator f2 * denominator f1)).
  { replace (k * b * (numerator f1 * denominator f2))
      with (numerator f1 * (k * b) * denominator f2) by ring.
    replace (k * b * (numerator f2 * denominator f1))
      with (k * denominator f1 * (numerator f2 * b)) by ring.
    rewrite V1, V2. ring. }
  apply Z.mul_reg_l in K; assumption.
Qed.

Lemma constructor_common_factor_witness :
  Fraction_ machine (-7 * 3) (-7 * 20) = Fraction_ machine 3 20.
Proof.
  apply (constructor_common_factor (-7) 3 20);
    unfold negatable, LLONG_MAX; lia.
Defined.

Lemma simplify_fixpoint (f : Fraction) :
  canonical f -> negatable (numerator f) -> negatable (denominator f) ->
  simplify machine f = Ok f.
Proof.
  intros C Rn Rd. pose proof C as [Hd G].
  destruct (simplify_machine _ _ Rn Rd (Z.neq_sym _ _ (Z.lt_neq _ _ Hd)))
    as [f' [E [C' [V _]]]].
  destruct f as [n d]. cbn [numerator denominator] in *. rewrite E. f_equal.
  apply canonical_eq; [assumption|assumption|]. cbn [numerator denominator]. lia.
Qed.

(** X3.  A fraction that satisfies the class invariant is a fixed point of
    the constructor: [Fraction(f.getNumerator(), f.getDenominator())] is
    [f]. *)
Theorem constructor_fixes_canonical (f : Fraction) :
  canonical f -> negatable (numerator f) -> negatable (denominator f) ->
  Fraction_ machine (numerator f) (denominator f) = Ok f.
Proof.
  intros C Rn Rd. unfold Fraction_.
  replace (mkFraction (numerator f) (denominator f)) with f by (destruct f; reflexivity).
  apply simplify_fixpoint; assumption.
Qed.

Lemma constructor_fixes_canonical_witness :
  Fraction_ machine (numerator (mkFraction (-3) 20)) (denominator (mkFraction (-3) 20))
  = Ok (mkFraction (-3) 20).
Proof.
  apply (constructor_fixes_canonical (mkFraction (-3) 20)).
  - split; [simpl; lia | reflexivity].
  - unfold negatable, LLONG_MAX; simpl; lia.
  - unfold negatable, LLONG_MAX; simpl; lia.
Defined.

(** ** fraction.cpp: arithmetic and comparisons *)

Lemma small_bounds (a : Fraction) :
  small a -> 0 < denominator a <= 1073741824 /\ -1073741824 <= numerator a <= 1073741824.
Proof. unfold small, bound30. trivial. Qed.

Lemma toQ_eq (c : Fraction) (n d : Z) :
  0 < denominator c -> 0 < d ->
  numerator c * d = n * denominator c -> (toQ c == Qmake n (Z.to_pos d))%Q.
Proof.
  intros Hc Hd E. unfold Qeq, toQ. simpl. rewrite !Z2Pos.id by assumption. exact E.
Qed.

Lemma negatable_bound (z : Z) :
  - 4611686018427387904 <= z <= 4611686018427387904 -> negatable z.
Proof. unfold negatable, LLONG_MAX. lia. Qed.

(** X4.  On small fractions [operator+], [operator-] and [operator*]
    succeed and return the fraction, in lowest terms with positive
    denominator, whose value is the exact sum, difference and product. *)
Theorem arithmetic_exact (a b : Fraction) :
  small a -> small b ->
  (exists c, op_add machine a b = Ok c /\ canonical c /\
             (toQ c == toQ a + toQ b)%Q) /\
  (exists c, op_sub machine a b = Ok c /\ canonical c /\
             (toQ c == toQ a - toQ b)%Q) /\
  (exists c, op_mul machine a b = Ok c /\ canonical c /\
             (toQ c == toQ a * toQ b)%Q).
Proof.
  intros Ha Hb. apply small_bounds in Ha, Hb.
  destruct Ha as [[Ha1 Ha2] [Ha3 Ha4]], Hb as [[Hb1 Hb2] [Hb3 Hb4]].
  assert (Rd : negatable (denominator a * denominator b)) by (apply negatable_bound; nia).
  assert (Pd : 0 < denominator a * denominator b) by nia.
  assert (R1 : negatable (numerator a * denominator b)) by (apply negatable_bound; nia).
  assert (R2 : negatable (numerator b * denominator a)) by (apply negatable_bound; nia).
  split; [|split].
  - unfold op_add, machine. rewrite !obind_Ok.
    rewrite (wrap64_negatable _ R1), (wrap64_negatable _ R2), (wrap64_negatable _ Rd).
    assert (Rs : negatable (numerator a * denominator b + numerator b * denominator a))
      by (apply negatable_bound; nia).
    rewrite (wrap64_negatable _ Rs).
    destruct (simplify_machine _ _ Rs Rd) as [c [E [C [V _]]]]; [lia|].
    exists c. split; [exact E|]. split; [exact C|].
    unfold Qplus, toQ at 2 3. simpl Qnum. simpl Qden.
    rewrite !Z2Pos.id by assumption.
    rewrite <- Z2Pos.inj_mul by assumption.
    apply toQ_eq; [apply C | exact Pd | exact V].
  - unfold op_sub, machine. rewrite !obind_Ok.
    rewrite (wrap64_negatable _ R1), (wrap64_negatable _ R2), (wrap64_negatable _ Rd).
    assert (Rs : negatable (numerator a * denominator b - numerator b * denominator a))
      by (apply negatable_bound; nia).
    rewrite (wrap64_negatable _ Rs).
    destruct (simplify_machine _ _ Rs Rd) as [c [E [C [V _]]]]; [lia|].
    exists c. split; [exact E|]. split; [exact C|].
    unfold Qminus, Qplus, Qopp, toQ at 2 3. simpl Qnum. simpl Qden.
    rewrite !Z2Pos.id by assumption.
    rewrite <- Z2Pos.inj_mul by assumption.
    apply toQ_eq; [apply C | exact Pd |]. rewrite V. ring.
  - unfold op_mul, machine. rewrite !obind_Ok.
    assert (Rn : negatable (numerator a * numerator b)) by (apply negatable_bound; nia).
    rewrite (wrap64_negatable _ Rn), (wrap64_negatable _ Rd).
    destruct (simplify_machine _ _ Rn Rd) as [c [E [C [V _]]]]; [lia|].
    exists c. split; [exact E|]. split; [exact C|].
    unfold Qmult, toQ at 2 3. simpl Qnum. simpl Qden.
    rewrite <- Z2Pos.inj_mul by assumption.
    apply toQ_eq; [apply C | exact Pd | exact V].
Qed.

Lemma arithmetic_exact_witness :
  (exists c, op_add machine (mkFraction 1 20) (mkFraction 1 3) = Ok c /\ canonical c /\
             (toQ c == toQ (mkFraction 1 20) + toQ (mkFraction 1 3))%Q) /\
  (exists c, op_sub machine (mkFraction 1 20) (mkFraction 1 3) = Ok c /\ canonical c /\
             (toQ c == toQ (mkFraction 1 20) - toQ (mkFraction 1 3))%Q) /\
  (exists c, op_mul machine (mkFraction 1 20) (mkFraction 1 3) = Ok c /\ canonical c /\
             (toQ c == toQ (mkFraction 1 20) * toQ (mkFraction 1 3))%Q).
Proof.
  apply (arithmetic_exact (mkFraction 1 20) (mkFraction 1 3));
    unfold small, bound30; simpl; lia.
Defined.

(** X5.  [operator/] throws "Division by zero" exactly when the divisor's
    numerator is 0; on small fractions it otherwise returns the exact
    quotient, in lowest terms with positive denominator (the sign goes to
    the numerator). *)
Theorem division_exact (a b : Fraction) :
  small a -> small b ->
  (numerator b = 0 -> op_div machine a b = Fail (RuntimeError "Division by zero")) /\
  (numerator b <> 0 ->
   exists c, op_div machine a b = Ok c /\ canonical c /\ (toQ c == toQ a / toQ b)%Q).
Proof.
  intros Ha Hb. apply small_bounds in Ha, Hb.
  destruct Ha as [[Ha1 Ha2] [Ha3 Ha4]], Hb as [[Hb1 Hb2] [Hb3 Hb4]].
  split.
  - intros E. unfold op_div. rewrite E. reflexivity.
  - intros Hn. unfold op_div. destruct (Z.eqb_spec (numerator b) 0) as [|_]; [contradiction|].
    unfold machine. rewrite !obind_Ok.
    assert (Rn : negatable (numerator a * denominator b)) by (apply negatable_bound; nia).
    assert (Rd : negatable (denominator a * numerator b)) by (apply negatable_bound; nia).
    rewrite (wrap64_negatable _ Rn), (wrap64_negatable _ Rd).
    destruct (simplify_machine _ _ Rn Rd) as [c [E [C [V _]]]]; [nia|].
    exists c. split; [exact E|]. split; [exact C|].
    assert (Nb : ~ (toQ b == 0)%Q).
    { unfold Qeq, toQ. simpl. lia. }
    apply (Qmult_inj_r _ _ (toQ b) Nb).
    rewrite (Qmult_comm (toQ a / toQ b)), Qmult_div_r by exact Nb.
    unfold Qeq, Qmult, toQ. simpl. destruct C as [Pc _].
    rewrite !Pos2Z.inj_mul, !Z2Pos.id by assumption.
    nia.
Qed.

Lemma division_exact_witness :
  op_div machine (mkFraction 1 20) zero = Fail (RuntimeError "Division by zero") /\
  exists c, op_div machine (mkFraction 1 20) (mkFraction (-1) 3) = Ok c /\
            canonical c /\
            (toQ c == toQ (mkFraction 1 20) / toQ (mkFraction (-1) 3))%Q.
Proof.
  split.
  - apply (division_exact (mkFraction 1 20) zero);
      unfold small, bound30; simpl; try lia; reflexivity.
  - apply (division_exact (mkFraction 1 20) (mkFraction (-1) 3));
      unfold small, bound30; simpl; lia.
Defined.

(** X6.  On fractions that satisfy the class invariant, the structural
    [operator==] is equality of values. *)
Theorem equality_is_value_equality (a b : Fraction) :
  canonical a -> canonical b -> (op_eq a b = true <-> (toQ a == toQ b)%Q).
Proof.
  intros Ca Cb. split.
  - intros H. apply op_eq_true in H. subst b. reflexivity.
  - intros H. unfold Qeq, toQ in H. simpl in H.
    rewrite !Z2Pos.id in H by (apply Ca || apply Cb).
    rewrite (canonical_eq a b Ca Cb H). apply op_eq_refl.
Qed.

Lemma equality_is_value_equality_witness :
  op_eq (mkFraction 1 3) (mkFraction 1 3) = true <->
  (toQ (mkFraction 1 3) == toQ (mkFraction 1 3))%Q.
Proof.
  apply (equality_is_value_equality (mkFraction 1 3) (mkFraction 1 3));
    (split; [simpl; lia | reflexivity]).
Defined.

(** X7.  On representable fractions the relational operators derived
    from [operator<=>] decide the order of the values. *)
Theorem relational_operators_exact (a b : Fraction) :
  representable a -> representable b ->
  op_cmp machine a b = Ok (toQ a ?= toQ b)%Q /\
  op_lt machine a b = Ok (negb (Qle_bool (toQ b) (toQ a))) /\
  op_le machine a b = Ok (Qle_bool (toQ a) (toQ b)) /\
  op_gt machine a b = Ok (negb (Qle_bool (toQ a) (toQ b))) /\
  op_ge machine a b = Ok (Qle_bool (toQ b) (toQ a)).
Proof.
  intros Ha Hb.
  pose proof (op_cmp_exact a b Ha Hb) as E.
  assert (L : forall x y : Q,
             Qle_bool x y = match (x ?= y)%Q with Gt => false | _ => true end).
  { intros x y. unfold Qle_bool, Qcompare, Z.leb. reflexivity. }
  split; [exact E|].
  unfold op_lt, op_le, op_gt, op_ge. rewrite E, !obind_Ok, !L.
  rewrite <- (Qcompare_antisym (toQ a) (toQ b)).
  destruct (toQ a ?= toQ b)%Q; simpl; auto.
Qed.

Lemma relational_operators_exact_witness :
  op_cmp machine (mkFraction 1 3) one_half = Ok (toQ (mkFraction 1 3) ?= toQ one_half)%Q /\
  op_lt machine (mkFraction 1 3) one_half =
    Ok (negb (Qle_bool (toQ one_half) (toQ (mkFraction 1 3)))) /\
  op_le machine (mkFraction 1 3) one_half =
    Ok (Qle_bool (toQ (mkFraction 1 3)) (toQ one_half)) /\
  op_gt machine (mkFraction 1 3) one_half =
    Ok (negb (Qle_bool (toQ (mkFraction 1 3)) (toQ one_half))) /\
  op_ge machine (mkFraction 1 3) one_half =
    Ok (Qle_bool (toQ one_half) (toQ (mkFraction 1 3))).
Proof.
  apply (relational_operators_exact (mkFraction 1 3) one_half);
    unfold representable, bound31; simpl; lia.
Defined.

(** ** assumptions.cpp: what the bounds mean *)

Lemma compare_with_by_value (r : relation) (a : Assumption) (t : Fraction) :
  exact_assumption a -> representable (value a) -> exact_fraction t ->
  compare_with machine r a t =
  Ok (verdict_by_value r (value a) t, narrowed (above_by_value r (value a) t) t a).
Proof.
  intros [[Rmin _] [Rmax _]] Rv [Rt _].
  assert (G : Assumption_gt machine a t =
              Ok (lt_by_value t (value a), narrowed (lt_by_value t (value a)) t a)).
  { unfold Assumption_gt, narrowed.
    rewrite op_gt_lt_swap, (op_lt_exact _ _ Rt Rv), obind_Ok.
    rewrite (std_max_exact _ _ Rmin Rt), (std_min_exact _ _ Rmax Rt).
    destruct (lt_by_value t (value a)); reflexivity. }
  assert (L : Assumption_lt machine a t =
              Ok (lt_by_value (value a) t,
                  narrowed (negb (lt_by_value (value a) t)) t a)).
  { unfold Assumption_lt, narrowed.
    rewrite (op_lt_exact _ _ Rv Rt), obind_Ok.
    rewrite (std_max_exact _ _ Rmin Rt), (std_min_exact _ _ Rmax Rt).
    destruct (lt_by_value (value a) t); reflexivity. }
  destruct r; cbn [compare_with verdict_by_value above_by_value].
  - exact G.
  - exact L.
  - unfold Assumption_ge. rewrite L. reflexivity.
  - unfold Assumption_le. rewrite G, obind_Ok. cbn [fst snd]. reflexivity.
Qed.

Lemma narrowed_value (up : bool) (t : Fraction) (a : Assumption) :
  value (narrowed up t a) = value a.
Proof. exact (proj1 (narrowed_frame up t a)). Qed.

(** The bound moved by a comparison ends on the threshold's side. *)
Lemma narrowed_threshold (up : bool) (t : Fraction) (a : Assumption) :
  if up then (toQ t <= toQ (min_bound (narrowed up t a)))%Q
  else (toQ (max_bound (narrowed up t a)) <= toQ t)%Q.
Proof.
  unfold narrowed. destruct up; simpl.
  - destruct (lt_by_value (min_bound a) t) eqn:E; [apply Qle_refl|].
    apply lt_by_value_false. exact E.
  - destruct (lt_by_value t (max_bound a)) eqn:E; [apply Qle_refl|].
    apply lt_by_value_false. exact E.
Qed.

(** Which side of the threshold the value is on. *)
Lemma above_by_value_spec (r : relation) (v t : Fraction) :
  if above_by_value r v t then (toQ t <= toQ v)%Q else (toQ v <= toQ t)%Q.
Proof.
  destruct r; cbn [above_by_value].
  - destruct (lt_by_value t v) eqn:E.
    + apply Qlt_le_weak, lt_by_value_true, E.
    + apply lt_by_value_false, E.
  - destruct (lt_by_value v t) eqn:E; cbn [negb].
    + apply Qlt_le_weak, lt_by_value_true, E.
    + apply lt_by_value_false, E.
  - destruct (lt_by_value v t) eqn:E; cbn [negb].
    + apply Qlt_le_weak, lt_by_value_true, E.
    + apply lt_by_value_false, E.
  - destruct (lt_by_value t v) eqn:E.
    + apply Qlt_le_weak, lt_by_value_true, E.
    + apply lt_by_value_false, E.
Qed.

Lemma narrowed_within (r : relation) (t : Fraction) (a : Assumption) :
  within_bounds a -> within_bounds (narrowed (above_by_value r (value a) t) t a).
Proof.
  intros [Hlo Hhi]. pose proof (above_by_value_spec r (value a) t) as S.
  unfold within_bounds, narrowed.
  destruct (above_by_value r (value a) t); simpl; (split; [|]); try assumption.
  - destruct (lt_by_value (min_bound a) t); assumption.
  - destruct (lt_by_value t (max_bound a)); assumption.
Qed.

(** Side conditions on concrete fractions. *)
Ltac by_evaluation :=
  unfold exact_assumption, exact_fraction, representable, lowest_terms, within_bounds,
    bound31, Qle;
  simpl; repeat split; try lia; try reflexivity.

Lemma record_all_within (cs : list (relation * Fraction)) :
  forall a, exact_assumption a -> representable (value a) ->
  Forall (fun c => exact_fraction (snd c)) cs ->
  within_bounds a ->
  exists a', record_all machine cs a = Ok a' /\ within_bounds a' /\
             exact_assumption a' /\ value a' = value a.
Proof.
  induction cs as [|c cs IH]; intros a Ha Hv Hcs Hw.
  - exists a. auto.
  - inversion Hcs as [|c0 cs0 Hc Hrest]; subst.
    pose proof (compare_with_by_value (fst c) a (snd c) Ha Hv Hc) as E.
    rewrite (record_all_cons _ _ _ _ _ E).
    destruct (IH (narrowed (above_by_value (fst c) (value a) (snd c)) (snd c) a))
      as [a' [R [W [X V]]]].
    + apply exact_narrowed; assumption.
    + rewrite narrowed_value. exact Hv.
    + exact Hrest.
    + apply narrowed_within. exact Hw.
    + exists a'. rewrite narrowed_value in V. auto.
Qed.

(** X8.  When the assumed value, the two bounds and the thresholds are
    fractions with positive denominator whose numerator and denominator are
    at most 2^31 in magnitude, bounds and thresholds in lowest terms:
    starting with the assumed value between the bounds, any sequence of
    comparisons succeeds and leaves the assumed value between the bounds;
    the interval never becomes empty, and [is_valid] accepts the assumed
    value itself. *)
Theorem value_stays_within_bounds (cs : list (relation * Fraction)) (a : Assumption) :
  exact_assumption a -> representable (value a) ->
  Forall (fun c => exact_fraction (snd c)) cs ->
  within_bounds a ->
  exists a', record_all machine cs a = Ok a' /\ within_bounds a' /\
             (toQ (min_bound a') <= toQ (max_bound a'))%Q /\
             is_valid machine a' (value a') = Ok true.
Proof.
  intros Ha Hv Hcs Hw.
  destruct (record_all_within cs a Ha Hv Hcs Hw) as [a' [R [[W1 W2] [[[X1 _] [X2 _]] V]]]].
  exists a'. split; [exact R|]. split; [split; assumption|].
  split; [eapply Qle_trans; eassumption|].
  assert (Hv' : representable (value a')) by (rewrite V; exact Hv).
  unfold is_valid. rewrite (op_le_exact _ _ X1 Hv'), obind_Ok.
  apply negb_lt_by_value in W1. rewrite W1.
  rewrite (op_le_exact _ _ Hv' X2). apply negb_lt_by_value in W2. rewrite W2.
  reflexivity.
Qed.

Lemma value_stays_within_bounds_witness :
  exists a',
    record_all machine [(Rgt, one_half); (Rlt, mkFraction 3 5); (Rge, mkFraction 53 100)]
      (mkAssumption (mkFraction 53 100) zero one "size2_win2") = Ok a' /\
    within_bounds a' /\ (toQ (min_bound a') <= toQ (max_bound a'))%Q /\
    is_valid machine a' (value a') = Ok true.
Proof.
  apply (value_stays_within_bounds
           [(Rgt, one_half); (Rlt, mkFraction 3 5); (Rge, mkFraction 53 100)]
           (mkAssumption (mkFraction 53 100) zero one "size2_win2")).
  - by_evaluation.
  - by_evaluation.
  - repeat constructor; by_evaluation.
  - by_evaluation.
Defined.

Lemma verdict_inside (r : relation) (t : Fraction) (a : Assumption) (v v' : Fraction) :
  (toQ (min_bound (narrowed (above_by_value r v t) t a)) < toQ v')%Q ->
  (toQ v' < toQ (max_bound (narrowed (above_by_value r v t) t a)))%Q ->
  verdict_by_value r v' t = verdict_by_value r v t /\
  above_by_value r v' t = above_by_value r v t.
Proof.
  intros Hlo Hhi.
  pose proof (narrowed_threshold (above_by_value r v t) t a) as T.
  assert (K : if above_by_value r v t then (toQ t < toQ v')%Q else (toQ v' < toQ t)%Q).
  { destruct (above_by_value r v t).
    - eapply Qle_lt_trans; eassumption.
    - eapply Qlt_le_trans; eassumption. }
  clear Hlo Hhi T.
  assert (A : forall x y : Fraction, (toQ x < toQ y)%Q ->
                lt_by_value x y = true /\ lt_by_value y x = false).
  { intros x y H. split; [apply lt_by_value_true; exact H|].
    apply lt_by_value_false. apply Qlt_le_weak. exact H. }
  destruct r; cbn [above_by_value verdict_by_value] in *.
  - destruct (lt_by_value t v); destruct (A _ _ K) as [E1 E2]; rewrite ?E1, ?E2; auto.
  - destruct (lt_by_value v t); cbn [negb] in K; destruct (A _ _ K) as [E1 E2];
      rewrite ?E1, ?E2; auto.
  - destruct (lt_by_value v t); cbn [negb] in K; destruct (A _ _ K) as [E1 E2];
      rewrite ?E1, ?E2; auto.
  - destruct (lt_by_value t v); destruct (A _ _ K) as [E1 E2]; rewrite ?E1, ?E2; auto.
Qed.

Lemma verdicts_cons (c : relation * Fraction) (cs : list (relation * Fraction))
    (a a' : Assumption) (b : bool) :
  compare_with machine (fst c) a (snd c) = Ok (b, a') ->
  verdicts machine (c :: cs) a =
  let! rest := verdicts machine cs a' in Ok (b :: fst rest, snd rest).
Proof. intros H. cbn [verdicts]. rewrite H. reflexivity. Qed.

Lemma assuming_narrowed (up : bool) (t v : Fraction) (a : Assumption) :
  narrowed up t (assuming v a) = assuming v (narrowed up t a).
Proof. unfold narrowed, assuming. destruct up; reflexivity. Qed.

Lemma verdicts_bounds (cs : list (relation * Fraction)) :
  forall a, exact_assumption a -> representable (value a) ->
  Forall (fun c => exact_fraction (snd c)) cs ->
  exists bs a', verdicts machine cs a = Ok (bs, a') /\
                (toQ (min_bound a) <= toQ (min_bound a'))%Q /\
                (toQ (max_bound a') <= toQ (max_bound a))%Q /\
                forall v, representable v ->
                  (toQ (min_bound a') < toQ v)%Q -> (toQ v < toQ (max_bound a'))%Q ->
                  verdicts machine cs (assuming v a) = Ok (bs, assuming v a').
Proof.
  induction cs as [|c cs IH]; intros a Ha Hv Hcs.
  - exists [], a. split; [reflexivity|]. split; [apply Qle_refl|].
    split; [apply Qle_refl|]. intros; reflexivity.
  - inversion Hcs as [|c0 cs0 Hc Hrest]; subst.
    pose proof (compare_with_by_value (fst c) a (snd c) Ha Hv Hc) as E.
    set (a1 := narrowed (above_by_value (fst c) (value a) (snd c)) (snd c) a) in *.
    assert (Ha1 : exact_assumption a1) by (apply exact_narrowed; assumption).
    assert (Hv1 : representable (value a1))
      by (unfold a1; rewrite narrowed_value; exact Hv).
    destruct (IH a1 Ha1 Hv1 Hrest) as [bs [a' [R [Lo [Hi Re]]]]].
    destruct (narrowed_monotone (above_by_value (fst c) (value a) (snd c)) (snd c) a)
      as [M1 M2]. fold a1 in M1, M2.
    exists (verdict_by_value (fst c) (value a) (snd c) :: bs), a'.
    split; [|split; [|split]].
    + rewrite (verdicts_cons _ _ _ _ _ E), R. reflexivity.
    + eapply Qle_trans; eassumption.
    + eapply Qle_trans; eassumption.
    + intros v Rv Hlo Hhi.
      assert (Hav : exact_assumption (assuming v a)) by exact Ha.
      pose proof (compare_with_by_value (fst c) (assuming v a) (snd c) Hav Rv Hc) as E'.
      cbn [value assuming] in E'.
      destruct (verdict_inside (fst c) (snd c) a (value a) v) as [V A].
      { fold a1. eapply Qle_lt_trans; eassumption. }
      { fold a1. eapply Qlt_le_trans; eassumption. }
      change (mkAssumption v (min_bound a) (max_bound a) (name a)) with (assuming v a) in E'.
      rewrite V, A, assuming_narrowed in E'. fold a1 in E'.
      rewrite (verdicts_cons _ _ _ _ _ E'), (Re v Rv Hlo Hhi). reflexivity.
Qed.

(** X9.  When the assumed value, the two bounds and the thresholds are
    fractions with positive denominator whose numerator and denominator are
    at most 2^31 in magnitude, bounds and thresholds in lowest terms: the
    decisions taken with the assumed value are the decisions for every
    value of that range strictly inside the final bounds; the comparisons
    repeated with such a value give the same verdicts and the same bounds.
    (On a bound itself a verdict may differ.) *)
Theorem verdicts_hold_inside_bounds (cs : list (relation * Fraction)) (a : Assumption) :
  exact_assumption a -> representable (value a) ->
  Forall (fun c => exact_fraction (snd c)) cs ->
  exists bs a',
    verdicts machine cs a = Ok (bs, a') /\
    forall v, representable v ->
      (toQ (min_bound a') < toQ v)%Q -> (toQ v < toQ (max_bound a'))%Q ->
      verdicts machine cs (assuming v a) = Ok (bs, assuming v a').
Proof.
  intros Ha Hv Hcs.
  destruct (verdicts_bounds cs a Ha Hv Hcs) as [bs [a' [R [_ [_ Re]]]]].
  exists bs, a'. split; [exact R | exact Re].
Qed.

Lemma verdicts_hold_inside_bounds_witness :
  exists bs a',
    verdicts machine [(Rgt, one_half); (Rlt, mkFraction 3 5)]
      (mkAssumption (mkFraction 53 100) zero one "size2_win2") = Ok (bs, a') /\
    verdicts machine [(Rgt, one_half); (Rlt, mkFraction 3 5)]
      (assuming (mkFraction 11 20)
         (mkAssumption (mkFraction 53 100) zero one "size2_win2")) =
    Ok (bs, assuming (mkFraction 11 20) a').
Proof.
  destruct (verdicts_hold_inside_bounds [(Rgt, one_half); (Rlt, mkFraction 3 5)]
              (mkAssumption (mkFraction 53 100) zero one "size2_win2"))
    as [bs [a' [R Re]]].
  - by_evaluation.
  - by_evaluation.
  - repeat constructor; by_evaluation.
  - exists bs, a'. split; [exact R|].
    assert (E : verdicts machine [(Rgt, one_half); (Rlt, mkFraction 3 5)]
                  (mkAssumption (mkFraction 53 100) zero one "size2_win2") =
                Ok ([true; true],
                    mkAssumption (mkFraction 53 100) one_half (mkFraction 3 5)
                      "size2_win2")) by reflexivity.
    rewrite E in R. injection R as <- <-.
    apply Re.
    + by_evaluation.
    + unfold Qlt. simpl. lia.
    + unfold Qlt. simpl. lia.
Defined.

(** ** dynamic_programming.cpp: how the tables feed one another *)

Lemma third_policy_only_refl g : third_policy_only g g.
Proof. exists (third_player_policy_probability g). destruct g. reflexivity. Qed.
Lemma third_policy_only_trans g1 g2 g3 :
  third_policy_only g1 g2 -> third_policy_only g2 g3 -> third_policy_only g1 g3.
Proof. intros [t2 ->] [t3 ->]. exists t3. reflexivity. Qed.
Lemma second_table_only_refl g : second_table_only g g.
Proof. exists (second_player_probability g). destruct g. reflexivity. Qed.
Lemma second_table_only_trans g1 g2 g3 :
  second_table_only g1 g2 -> second_table_only g2 g3 -> second_table_only g1 g3.
Proof. intros [t2 ->] [t3 ->]. exists t3. reflexivity. Qed.
Lemma second_policy_only_refl g : second_policy_only g g.
Proof. exists (second_player_policy_probability g). destruct g. reflexivity. Qed.
Lemma second_policy_only_trans g1 g2 g3 :
  second_policy_only g1 g2 -> second_policy_only g2 g3 -> second_policy_only g1 g3.
Proof. intros [t2 ->] [t3 ->]. exists t3. reflexivity. Qed.
Lemma first_table_only_refl g : first_table_only g g.
Proof. exists (first_player_probability g). destruct g. reflexivity. Qed.
Lemma first_table_only_trans g1 g2 g3 :
  first_table_only g1 g2 -> first_table_only g2 g3 -> first_table_only g1 g3.
Proof. intros [t2 ->] [t3 ->]. exists t3. reflexivity. Qed.

(** Each stage writes its own table only. *)
Lemma third_collapse_writes (pol : policy3) (g g' : globals) :
  DynamicProgramming.third_player_collapse machine pol g = Ok (tt, g') ->
  third_policy_only g g'.
Proof.
  unfold DynamicProgramming.third_player_collapse.
  apply for_rel; [apply third_policy_only_refl | apply third_policy_only_trans |].
  intros p1. apply for_rel; [apply third_policy_only_refl | apply third_policy_only_trans |].
  intros p2 g1 g2 H. unfold DynamicProgramming.third_player_collapse_at in H.
  mstep H. mstep H. destruct (op_eq a a0).
  - repeat mstep H. apply write_inv in H. subst g2. eexists. reflexivity.
  - repeat mstep H. apply write_inv in H. subst g2. eexists. reflexivity.
Qed.

Lemma second_collapse_writes (pol : policy2) (g g' : globals) :
  DynamicProgramming.second_player_collapse machine pol g = Ok (tt, g') ->
  second_policy_only g g'.
Proof.
  unfold DynamicProgramming.second_player_collapse.
  apply for_rel; [apply second_policy_only_refl | apply second_policy_only_trans |].
  intros p1 g1 g2 H. unfold DynamicProgramming.second_player_collapse_at in H.
  mstep H. mstep H. destruct (op_eq a a0).
  - repeat mstep H. apply write_inv in H. subst g2. eexists. reflexivity.
  - repeat mstep H. apply write_inv in H. subst g2. eexists. reflexivity.
Qed.

Lemma first_collapse_writes (pol : policy1) (g g' : globals) :
  DynamicProgramming.first_player_collapse machine pol g = Ok (tt, g') ->
  first_policy_only g g'.
Proof.
  intros H. unfold DynamicProgramming.first_player_collapse in H.
  mstep H. mstep H. destruct (op_eq a a0).
  - repeat mstep H. apply write_inv in H. subst g'. eexists. reflexivity.
  - repeat mstep H. apply write_inv in H. subst g'. eexists. reflexivity.
Qed.

Lemma second_options_at_only (p1 s sa : nat) (g g' : globals) :
  second_player_options_at machine p1 s sa g = Ok (tt, g') ->
  second_only (p1, s, sa) g g'.
Proof.
  intros H. unfold second_player_options_at in H.
  destruct sa as [|sa]; cbn [Nat.eqb] in H.
  - repeat mstep H. apply write_inv in H. subst g'.
    eapply second_only_trans; [|apply second_only_put].
    eapply second_only_trans; [|apply second_only_put]. apply second_only_put.
  - repeat mstep H. apply assert_inv in H. destruct H as [_ ->].
    match goal with
    | L : for_ _ _ _ _ = Ok (?u, _) |- _ =>
        destruct u;
        eapply second_only_trans;
          [|eapply (for_rel (second_only (p1, s, S sa)));
            [apply second_only_refl | apply second_only_trans | | exact L]]
    end.
    + eapply second_only_trans; [|apply second_only_put].
      eapply second_only_trans; [|apply second_only_put]. apply second_only_put.
    + clear. intros i g g' H. cbv beta zeta in H. repeat mstep H.
      repeat match goal with
             | Hx : second_add _ _ _ _ _ _ _ _ = Ok _ |- _ =>
                 apply second_add_only in Hx
             end.
      eauto using second_only_trans.
Qed.

Lemma first_options_at_only (s sa : nat) (g g' : globals) :
  first_player_options_at machine s sa g = Ok (tt, g') ->
  first_only (s, sa) g g'.
Proof.
  intros H. unfold first_player_options_at in H.
  destruct sa as [|sa]; cbn [Nat.eqb] in H.
  - repeat mstep H. apply write_inv in H. subst g'.
    eapply first_only_trans; [|apply first_only_put].
    eapply first_only_trans; [|apply first_only_put]. apply first_only_put.
  - repeat mstep H. apply assert_inv in H. destruct H as [_ ->].
    match goal with
    | L : for_ _ _ _ _ = Ok (?u, _) |- _ =>
        destruct u;
        eapply first_only_trans;
          [|eapply (for_rel (first_only (s, S sa)));
            [apply first_only_refl | apply first_only_trans | | exact L]]
    end.
    + eapply first_only_trans; [|apply first_only_put].
      eapply first_only_trans; [|apply first_only_put]. apply first_only_put.
    + clear. intros i g g' H. cbv beta zeta in H. repeat mstep H.
      repeat match goal with
             | Hx : first_add _ _ _ _ _ _ _ = Ok _ |- _ =>
                 apply first_add_only in Hx
             end.
      eauto using first_only_trans.
Qed.

(** What every cell of the 2nd player's table satisfies once the loops
    over the 2nd player's options are through, given what the body
    establishes for its own cell. *)
Lemma second_options_establish (Good : nat * nat * nat -> globals -> Prop) (g g' : globals) :
  (forall c k g1 g2, second_only c g1 g2 -> Good k g1 -> k <> c -> Good k g2) ->
  (forall p1 s sa g1 g2,
     (p1 <= 20)%nat -> (s <= 20)%nat -> (sa <= 1)%nat ->
     third_player_policy_probability g1 = third_player_policy_probability g ->
     second_player_options_at machine p1 s sa g1 = Ok (tt, g2) -> Good (p1, s, sa) g2) ->
  second_player_options machine g = Ok (tt, g') ->
  second_table_only g g' /\
  forall p1 s sa, (p1 <= 20)%nat -> (s <= 20)%nat -> (sa <= 1)%nat -> Good (p1, s, sa) g'.
Proof.
  intros Hframe Hbody H.
  set (Fr := fun g1 : globals => second_table_only g g1).
  assert (F0 : Fr g) by apply second_table_only_refl.
  unfold second_player_options in H.
  apply (for_cells Fr Good
           (fun p1 k => fst (fst k) = p1 /\ (snd (fst k) <= 20)%nat /\ (snd k <= 1)%nat))
    in H; [| |exact F0].
  { destruct H as [Hg' Hk]. split; [exact Hg'|].
    intros p1 s sa Hp1 Hs Hsa. apply (Hk (p1, s, sa)). right. exists p1. cbn. auto. }
  clear g' H. intros p1 g1 g' Hp1 Hg H.
  apply (for_cells Fr Good
           (fun s k => fst (fst k) = p1 /\ snd (fst k) = s /\ (snd k <= 1)%nat))
    in H; [| |exact Hg].
  { destruct H as [Hg' Hk]. split; [exact Hg'|].
    intros [[q1 q2] q3] [Hq|[Hq1 [Hq2 Hq3]]]; apply Hk; [left; exact Hq|].
    right. exists q2. cbn [fst snd] in *. auto. }
  clear g1 g' Hg H. intros s g1 g' Hs Hg H.
  apply (for_cells Fr Good (fun sa k => k = (p1, s, sa))) in H; [| |exact Hg].
  { destruct H as [Hg' Hk]. split; [exact Hg'|].
    intros [[q1 q2] q3] [Hq|[Hq1 [Hq2 Hq3]]]; apply Hk; [left; exact Hq|].
    right. exists q3. cbn [fst snd] in *. subst q1 q2. auto. }
  clear g1 g' Hg H. intros sa g1 g' Hsa Hg H.
  pose proof (second_options_at_only p1 s sa g1 g' H) as R.
  assert (G : Good (p1, s, sa) g').
  { apply (Hbody p1 s sa g1 g' Hp1 Hs Hsa); [|exact H].
    destruct Hg as [t ->]. reflexivity. }
  split.
  - eapply second_table_only_trans; [exact Hg|]. exact (proj1 R).
  - intros k [Hk| ->]; [|exact G].
    destruct (prod_eq_dec3 k (p1, s, sa)) as [->|Hne]; [exact G|].
    exact (Hframe _ _ _ _ R Hk Hne).
Qed.

Lemma first_options_establish (Good : nat * nat -> globals -> Prop) (g g' : globals) :
  (forall c k g1 g2, first_only c g1 g2 -> Good k g1 -> k <> c -> Good k g2) ->
  (forall s sa g1 g2,
     (s <= 20)%nat -> (sa <= 1)%nat ->
     second_player_policy_probability g1 = second_player_policy_probability g ->
     first_player_options_at machine s sa g1 = Ok (tt, g2) -> Good (s, sa) g2) ->
  first_player_options machine g = Ok (tt, g') ->
  first_table_only g g' /\
  forall s sa, (s <= 20)%nat -> (sa <= 1)%nat -> Good (s, sa) g'.
Proof.
  intros Hframe Hbody H.
  set (Fr := fun g1 : globals => first_table_only g g1).
  assert (F0 : Fr g) by apply first_table_only_refl.
  unfold first_player_options in H.
  apply (for_cells Fr Good (fun s k => fst k = s /\ (snd k <= 1)%nat)) in H; [| |exact F0].
  { destruct H as [Hg' Hk]. split; [exact Hg'|].
    intros s sa Hs Hsa. apply (Hk (s, sa)). right. exists s. cbn. auto. }
  clear g' H. intros s g1 g' Hs Hg H.
  apply (for_cells Fr Good (fun sa k => k = (s, sa))) in H; [| |exact Hg].
  { destruct H as [Hg' Hk]. split; [exact Hg'|].
    intros [q1 q2] [Hq|[Hq1 Hq2]]; apply Hk; [left; exact Hq|].
    right. exists q2. cbn [fst snd] in *. subst q1. auto. }
  clear g1 g' Hg H. intros sa g1 g' Hsa Hg H.
  pose proof (first_options_at_only s sa g1 g' H) as R.
  assert (G : Good (s, sa) g').
  { apply (Hbody s sa g1 g' Hs Hsa); [|exact H].
    destruct Hg as [t ->]. reflexivity. }
  split.
  - eapply first_table_only_trans; [exact Hg|]. exact (proj1 R).
  - intros k [Hk| ->]; [|exact G].
    destruct (prod_eq_dec2 k (s, sa)) as [->|Hne]; [exact G|].
    exact (Hframe _ _ _ _ R Hk Hne).
Qed.

(** The stages of a pass, with what each one leaves alone. *)
Lemma pass_stages (pol3 : policy3) (pol2 : policy2) (pol1 : policy1) (g : globals) :
  DynamicProgramming.initialize_dp_tables machine pol3 pol2 pol1 initial_globals
    = Ok (tt, g) ->
  exists g2 g3 g4 g5,
    third_policy_only dp_third g2 /\
    second_player_options machine g2 = Ok (tt, g3) /\
    second_policy_only g3 g4 /\
    first_player_options machine g4 = Ok (tt, g5) /\
    first_policy_only g5 g.
Proof.
  intros H. destruct (initialize_inv _ _ _ _ _ _ H) as [g1 [A B]].
  rewrite third_options_machine in A. injection A as <-.
  unfold DynamicProgramming.later_stages in B.
  apply bind_inv in B. destruct B as [[] [g2 [H2 B]]].
  apply bind_inv in B. destruct B as [[] [g3 [H3 B]]].
  apply bind_inv in B. destruct B as [[] [g4 [H4 B]]].
  apply bind_inv in B. destruct B as [[] [g5 [H5 B]]].
  exists g2, g3, g4, g5.
  split; [exact (third_collapse_writes _ _ _ H2)|].
  split; [exact H3|].
  split; [exact (second_collapse_writes _ _ _ H4)|].
  split; [exact H5|].
  exact (first_collapse_writes _ _ _ B).
Qed.

(** X10.  The 3rd player's options do not depend on the policies: after
    a pass under any three policies, [third_player_probability] is the
    table that the first loops compute from the zero-initialised globals;
    no later stage writes to it. *)
Theorem third_table_ignores_policies (pol3 : policy3) (pol2 : policy2) (pol1 : policy1)
    (g : globals) :
  DynamicProgramming.initialize_dp_tables machine pol3 pol2 pol1 initial_globals
    = Ok (tt, g) ->
  DynamicProgramming.third_player_options machine initial_globals = Ok (tt, dp_third) /\
  third_player_probability g = third_player_probability dp_third.
Proof.
  intros H. split; [exact third_options_machine|].
  destruct (pass_stages _ _ _ _ H) as [g2 [g3 [g4 [g5 [[t2 E2] [H3 [[t4 E4] [H5 [t E]]]]]]]]].
  destruct (second_options_establish (fun _ _ => True) g2 g3) as [[t3 E3] _]; auto.
  destruct (first_options_establish (fun _ _ => True) g4 g5) as [[t5 E5] _]; auto.
  subst. reflexivity.
Qed.

Lemma third_table_ignores_policies_witness :
  DynamicProgramming.third_player_options machine initial_globals = Ok (tt, dp_third) /\
  third_player_probability dp_solved = third_player_probability dp_third.
Proof.
  apply (third_table_ignores_policies (third_player_optimal_policy machine)
           (second_player_optimal_policy machine) (first_player_optimal_policy machine)).
  exact initialize_machine.
Defined.






(** The tables of the final globals, in terms of the states between the
    stages. *)
Lemma pass_views (pol3 : policy3) (pol2 : policy2) (pol1 : policy1) (g : globals) :
  DynamicProgramming.initialize_dp_tables machine pol3 pol2 pol1 initial_globals
    = Ok (tt, g) ->
  exists g2 g3 g4 g5,
    second_player_options machine g2 = Ok (tt, g3) /\
    first_player_options machine g4 = Ok (tt, g5) /\
    third_player_policy_probability g = third_player_policy_probability g2 /\
    second_player_probability g = second_player_probability g3 /\
    second_player_policy_probability g = second_player_policy_probability g4 /\
    first_player_probability g = first_player_probability g5.
Proof.
  intros H.
  destruct (pass_stages _ _ _ _ H) as [g2 [g3 [g4 [g5 [_ [H3 [[t4 E4] [H5 [t E]]]]]]]]].
  exists g2, g3, g4, g5. split; [exact H3|]. split; [exact H5|].
  destruct (second_options_establish (fun _ _ => True) g2 g3) as [[t3 E3] _]; auto.
  destruct (first_options_establish (fun _ _ => True) g4 g5) as [[t5 E5] _]; auto.
  subst. repeat split; reflexivity.
Qed.

Lemma second_only_cell (c k : nat * nat * nat) (g1 g2 : globals) (j : nat) :
  second_only c g1 g2 -> k <> c ->
  at4 (second_player_probability g2) (fst (fst k)) (snd (fst k)) (snd k) j =
  at4 (second_player_probability g1) (fst (fst k)) (snd (fst k)) (snd k) j.
Proof.
  intros [_ R] Hne. apply R. destruct k as [[q1 q2] q3], c as [[c1 c2] c3].
  cbn [fst snd]. apply not_true_iff_false. rewrite !andb_true_iff, !Nat.eqb_eq.
  intros [-> [-> ->]]. apply Hne. reflexivity.
Qed.

Lemma first_only_cell (c k : nat * nat) (g1 g2 : globals) (j : nat) :
  first_only c g1 g2 -> k <> c ->
  at3 (first_player_probability g2) (fst k) (snd k) j =
  at3 (first_player_probability g1) (fst k) (snd k) j.
Proof.
  intros [_ R] Hne. apply R. destruct k as [q1 q2], c as [c1 c2].
  cbn [fst snd]. apply not_true_iff_false. rewrite !andb_true_iff, !Nat.eqb_eq.
  intros [-> ->]. apply Hne. reflexivity.
Qed.

Lemma second_stop_copies (p1 s : nat) (g1 g2 : globals) :
  second_player_options_at machine p1 s 0 g1 = Ok (tt, g2) ->
  forall k, (k <= 2)%nat ->
    at4 (second_player_probability g2) p1 s 0 k =
    at3 (third_player_policy_probability g1) p1 s k.
Proof.
  intros H k Hk. unfold second_player_options_at in H. cbn [Nat.eqb] in H.
  repeat mstep H. apply write_inv in H. subst g2. tables.
  destruct k as [|[|[|k]]]; [| | |lia]; reflexivity.
Qed.

Lemma first_stop_copies (s : nat) (g1 g2 : globals) :
  first_player_options_at machine s 0 g1 = Ok (tt, g2) ->
  forall k, (k <= 2)%nat ->
    at3 (first_player_probability g2) s 0 k =
    at2 (second_player_policy_probability g1) s k.
Proof.
  intros H k Hk. unfold first_player_options_at in H. cbn [Nat.eqb] in H.
  repeat mstep H. apply write_inv in H. subst g2. tables.
  destruct k as [|[|[|k]]]; [| | |lia]; reflexivity.
Qed.

(** X11.  After a pass under any three policies, the stop entries of a
    player's table are the entries of the next player's collapsed table at
    the same total: [second_player_probability[p1][s][0]] is
    [third_player_policy_probability[p1][s]], and
    [first_player_probability[s][0]] is
    [second_player_policy_probability[s]]. *)
Theorem stop_entries_are_next_table (pol3 : policy3) (pol2 : policy2) (pol1 : policy1)
    (g : globals) :
  DynamicProgramming.initialize_dp_tables machine pol3 pol2 pol1 initial_globals
    = Ok (tt, g) ->
  (forall p1 s k, (p1 <= 20)%nat -> (s <= 20)%nat -> (k <= 2)%nat ->
     at4 (second_player_probability g) p1 s 0 k =
     at3 (third_player_policy_probability g) p1 s k) /\
  (forall s k, (s <= 20)%nat -> (k <= 2)%nat ->
     at3 (first_player_probability g) s 0 k =
     at2 (second_player_policy_probability g) s k).
Proof.
  intros H.
  destruct (pass_views _ _ _ _ H) as [g2 [g3 [g4 [g5 [H3 [H5 [E1 [E2 [E3 E4]]]]]]]]].
  rewrite E1, E2, E3, E4. clear H E1 E2 E3 E4. split.
  - destruct (second_options_establish
                (fun c g0 => snd c = 0%nat -> forall k, (k <= 2)%nat ->
                   at4 (second_player_probability g0) (fst (fst c)) (snd (fst c)) 0 k =
                   at3 (third_player_policy_probability g2) (fst (fst c)) (snd (fst c)) k)
                g2 g3) as [_ G]; [| |exact H3|].
    + intros c k ga gb R Gk Hne E j Hj.
      pose proof (second_only_cell c k ga gb j R Hne) as S. rewrite E in S.
      rewrite S. exact (Gk E j Hj).
    + intros p1 s sa ga gb _ _ _ ET Hb E j Hj. cbn [fst snd] in *. subst sa.
      rewrite <- ET. exact (second_stop_copies _ _ _ _ Hb j Hj).
    + intros p1 s k Hp1 Hs Hk.
      exact (G p1 s 0%nat Hp1 Hs (Nat.le_0_l _) eq_refl k Hk).
  - destruct (first_options_establish
                (fun c g0 => snd c = 0%nat -> forall k, (k <= 2)%nat ->
                   at3 (first_player_probability g0) (fst c) 0 k =
                   at2 (second_player_policy_probability g4) (fst c) k)
                g4 g5) as [_ G]; [| |exact H5|].
    + intros c k ga gb R Gk Hne E j Hj.
      pose proof (first_only_cell c k ga gb j R Hne) as S. rewrite E in S.
      rewrite S. exact (Gk E j Hj).
    + intros s sa ga gb _ _ ET Hb E j Hj. cbn [fst snd] in *. subst sa.
      rewrite <- ET. exact (first_stop_copies _ _ _ Hb j Hj).
    + intros s k Hs Hk.
      exact (G s 0%nat Hs (Nat.le_0_l _) eq_refl k Hk).
Qed.

Lemma stop_entries_are_next_table_witness :
  (forall p1 s k, (p1 <= 20)%nat -> (s <= 20)%nat -> (k <= 2)%nat ->
     at4 (second_player_probability dp_solved) p1 s 0 k =
     at3 (third_player_policy_probability dp_solved) p1 s k) /\
  (forall s k, (s <= 20)%nat -> (k <= 2)%nat ->
     at3 (first_player_probability dp_solved) s 0 k =
     at2 (second_player_policy_probability dp_solved) s k).
Proof.
  apply (stop_entries_are_next_table (third_player_optimal_policy machine)
           (second_player_optimal_policy machine) (first_player_optimal_policy machine)).
  exact initialize_machine.
Defined.





(** ** dynamic_programming.cpp: the 3rd player's options *)

Lemma fold_left_ext {A B : Type} (f g : A -> B -> A) (l : list B) :
  (forall a x, f a x = g a x) -> forall a, fold_left f l a = fold_left g l a.
Proof.
  intros E. induction l as [|x l IH]; intros a; [reflexivity|].
  cbn [fold_left]. rewrite E. apply IH.
Qed.

(** X13.  In the 3rd player's options a bust is worth what stopping on
    the total 0 is worth: the spin-again value is the uniform average,
    over the second spin, of the stop value at the total reached, with 0
    for a total above 20. *)
Theorem third_spin_again_is_average (p1 p2 spin : nat) (stop : nat -> Fraction) :
  (forall total, (total <= 20)%nat ->
     DynamicProgramming.win_prob_player3 machine p1 p2 total 0 = Ok (stop total)) ->
  DynamicProgramming.win_prob_player3 machine p1 p2 spin 1 =
  spin_again_average machine stop spin.
Proof.
  intros Hstop.
  unfold DynamicProgramming.win_prob_player3 at 1, spin_again_average.
  cbn [Nat.eqb]. rewrite Fraction_zero_machine, !obind_Ok.
  destruct (Fraction_ machine 1 20) as [prob|e]; [|reflexivity]. rewrite !obind_Ok.
  apply fold_left_ext. intros [win|e] new_spin; [|reflexivity]. rewrite !obind_Ok.
  cbv zeta. rewrite (Nat.add_comm new_spin spin).
  destruct (20 <? spin + new_spin)%nat eqn:B.
  - pose proof (Hstop 0%nat (Nat.le_0_l _)) as H0.
    unfold DynamicProgramming.win_prob_player3 in H0. cbn [Nat.eqb Nat.ltb Nat.leb] in H0.
    rewrite !Nat.ltb_irrefl in H0 || idtac.
    destruct p1 as [|p1], p2 as [|p2]; cbn in H0 |- *; injection H0 as <-; reflexivity.
  - apply Nat.ltb_ge in B. pose proof (Hstop _ B) as H1.
    unfold DynamicProgramming.win_prob_player3 in H1. cbn [Nat.eqb] in H1.
    rewrite Fraction_zero_machine in H1. rewrite H1. reflexivity.
Qed.

Lemma third_spin_again_is_average_witness :
  DynamicProgramming.win_prob_player3 machine 12 7 9 1 =
  spin_again_average machine
    (fun total => at5 (third_player_probability dp_third) 12 7 total 0 2) 9.
Proof.
  apply (third_spin_again_is_average 12 7 9
           (fun total => at5 (third_player_probability dp_third) 12 7 total 0 2)).
  assert (H : upto 20 (fun total =>
            match DynamicProgramming.win_prob_player3 machine 12 7 total 0 with
            | Ok f => op_eq f (at5 (third_player_probability dp_third) 12 7 total 0 2)
            | Fail _ => false
            end) = true) by (vm_compute; reflexivity).
  intros total Ht. pose proof (upto_spec _ _ H total Ht) as K. cbv beta in K.
  destruct (DynamicProgramming.win_prob_player3 machine 12 7 total 0) as [f|e];
    [|discriminate].
  apply op_eq_true in K. rewrite K. reflexivity.
Defined.

(** ** The simulator: what a simulated game decides *)

Section SimulatorFacts.
Variable rand_values : nat -> Z.

(** A turn leaves the total that the rest of the round reads at 0, after
    one to four draws. *)
Lemma turn_total (policy : nat -> outcome Fraction) (n : nat) :
  (forall spin, exists f, policy spin = Ok f) ->
  exists n', Simulator.turn rand_values policy n = Ok (0%nat, n') /\
             (n < n' <= n + 4)%nat.
Proof.
  intros Hp. unfold Simulator.turn, Simulator.random_decision, Simulator.rand,
    Simulator.retR, Simulator.liftR, Simulator.bindR.
  destruct (Hp 0%nat) as [f0 E0]. rewrite E0. cbv beta iota zeta.
  destruct (negb (Z.rem (rand_values n) (denominator f0) <? numerator f0)).
  - destruct (Hp (Z.to_nat (Z.rem (rand_values (S n)) 20 + 1))) as [f1 E1]. rewrite E1.
    cbv beta iota zeta.
    destruct (Z.rem (rand_values (S (S n))) (denominator f1) <? numerator f1).
    + eexists. split; [reflexivity|lia].
    + eexists. split; [reflexivity|lia].
  - eexists. split; [reflexivity|lia].
Qed.

Lemma determine_winner_all_zero (n : nat) :
  Simulator.determine_winner rand_values 0 0 0 n =
  Ok (Some (drawn_player (rand_values n)), S n).
Proof.
  unfold Simulator.determine_winner, Simulator.bindR, Simulator.rand, Simulator.retR,
    drawn_player.
  cbn [Nat.max Nat.eqb Z.b2z Z.add Pos.add Pos.succ andb].
  destruct (Z.eqb_spec (Z.rem (rand_values n) 3) 0) as [E0|N0]; [reflexivity|].
  destruct (Z.eqb_spec (Z.rem (rand_values n) 3 - 1) 0) as [E1|N1];
    destruct (Z.eqb_spec (Z.rem (rand_values n) 3) 1) as [E2|N2];
    try reflexivity; lia.
Qed.

(** X14.  The spins of a simulated game never reach the totals that
    decide it: each turn adds its spins to a variable that the block of
    the [if] declares anew, so the three totals compared are 0 whatever
    the policies answer, and the game goes to the player that the last
    draw selects among all three, [rand() % 3]. *)
Theorem simulated_game_is_a_draw (pol3 : policy3) (pol2 : policy2) (pol1 : policy1)
    (g : globals) (n : nat) :
  answers3 pol3 g -> answers2 pol2 g -> answers1 pol1 g ->
  exists n',
    Simulator.play_game rand_values pol3 pol2 pol1 g n =
      Ok (Some (drawn_player (rand_values n')), S n') /\
    (n + 3 <= n' <= n + 12)%nat.
Proof.
  intros H3 H2 H1. unfold Simulator.play_game.
  destruct (turn_total (fun spin => pol1 g spin) n (H1)) as [n1 [E1 B1]].
  destruct (turn_total (fun spin => pol2 g 0%nat spin) n1 (H2 0%nat)) as [n2 [E2 B2]].
  destruct (turn_total (fun spin => pol3 g 0%nat 0%nat spin) n2 (H3 0%nat 0%nat))
    as [n3 [E3 B3]].
  exists n3. split; [|lia].
  unfold Simulator.bindR at 1. rewrite E1.
  unfold Simulator.bindR at 1. rewrite E2.
  unfold Simulator.bindR at 1. rewrite E3.
  apply determine_winner_all_zero.
Qed.
End SimulatorFacts.

Lemma optimal_policies_answer (g : globals) :
  answers3 (third_player_optimal_policy machine) g /\
  answers2 (second_player_optimal_policy machine) g /\
  answers1 (first_player_optimal_policy machine) g.
Proof.
  split; [|split].
  - intros p1 p2 spin. unfold third_player_optimal_policy.
    destruct (spin =? 0)%nat; [eexists; reflexivity|]. cbv zeta.
    rewrite op_gt_lt_swap.
    destruct (op_lt_machine_total
                (at5 (third_player_probability g) p1 p2 spin 0 2)
                (at5 (third_player_probability g) p1 p2 spin 1 2)) as [c E].
    rewrite E. destruct c; eexists; reflexivity.
  - intros p1 spin. unfold second_player_optimal_policy.
    destruct (spin =? 0)%nat; [eexists; reflexivity|]. cbv zeta.
    rewrite op_gt_lt_swap.
    destruct (op_lt_machine_total
                (at4 (second_player_probability g) p1 spin 0 1)
                (at4 (second_player_probability g) p1 spin 1 1)) as [c E].
    rewrite E. destruct c; eexists; reflexivity.
  - intros spin. unfold first_player_optimal_policy.
    destruct (spin =? 0)%nat; [eexists; reflexivity|]. cbv zeta.
    rewrite op_gt_lt_swap.
    destruct (op_lt_machine_total
                (at3 (first_player_probability g) spin 0 1)
                (at3 (first_player_probability g) spin 1 1)) as [c E].
    rewrite E. destruct c; eexists; reflexivity.
Qed.

Lemma simulated_game_is_a_draw_witness :
  exists n',
    Simulator.play_game (fun i => Z.of_nat (7 * i + 5))
      (third_player_optimal_policy machine) (second_player_optimal_policy machine)
      (first_player_optimal_policy machine) dp_solved 0%nat =
      Ok (Some (drawn_player (Z.of_nat (7 * n' + 5))), S n') /\
    (0 + 3 <= n' <= 0 + 12)%nat.
Proof.
  apply (simulated_game_is_a_draw (fun i => Z.of_nat (7 * i + 5))
           (third_player_optimal_policy machine) (second_player_optimal_policy machine)
           (first_player_optimal_policy machine) dp_solved 0%nat).
  - exact (proj1 (optimal_policies_answer dp_solved)).
  - exact (proj1 (proj2 (optimal_policies_answer dp_solved))).
  - exact (proj2 (proj2 (optimal_policies_answer dp_solved))).
Defined.

(** X15.  Without simulations there is no estimate: for
    [num_simulations = 0] the loop does not run and the first
    [Fraction(p1_wins, num_simulations)] throws; for a negative number the
    loop does not run either, nothing is drawn, and the three rates are 0. *)
Theorem simulate_game_without_rounds (rand_values : nat -> Z) (pol3 : policy3)
    (pol2 : policy2) (pol1 : policy1) (g : globals) (n : nat) :
  Simulator.simulate_game machine rand_values pol3 pol2 pol1 g 0 n =
    Fail (RuntimeError "Denominator cannot be zero") /\
  forall num_simulations, num_simulations < 0 ->
    Simulator.simulate_game machine rand_values pol3 pol2 pol1 g num_simulations n =
    Ok ([zero; zero; zero], n).
Proof.
  split; [reflexivity|].
  intros z Hz. unfold Simulator.simulate_game.
  replace (Z.to_nat z) with 0%nat by lia.
  unfold Simulator.bindR, Simulator.games, Simulator.retR, Simulator.liftR.
  assert (E : Fraction_ machine 0 z = Ok zero).
  { unfold Fraction_, simplify. cbn [numerator denominator].
    destruct (Z.eqb_spec z 0); [lia|]. reflexivity. }
  rewrite E. reflexivity.
Qed.

Lemma simulate_game_without_rounds_witness :
  Simulator.simulate_game machine (fun i => Z.of_nat i)
    (third_player_optimal_policy machine) (second_player_optimal_policy machine)
    (first_player_optimal_policy machine) dp_solved 0 0%nat =
    Fail (RuntimeError "Denominator cannot be zero") /\
  Simulator.simulate_game machine (fun i => Z.of_nat i)
    (third_player_optimal_policy machine) (second_player_optimal_policy machine)
    (first_player_optimal_policy machine) dp_solved (-5) 0%nat =
    Ok ([zero; zero; zero], 0%nat).
Proof.
  destruct (simulate_game_without_rounds (fun i => Z.of_nat i)
              (third_player_optimal_policy machine) (second_player_optimal_policy machine)
              (first_player_optimal_policy machine) dp_solved 0%nat) as [A B].
  split; [exact A|]. apply B. lia.
Defined.

(** ** The decisions and the tables of the run of [main] *)

(** X16.  In the run of [main], after a first spin the 3rd player's
    optimal policy answers "spin again" exactly below the best earlier
    total, and on a tie with it up to 13 (three-way) or up to 9
    (two-way). *)
Theorem third_player_decisions :
  DynamicProgramming.main machine = Ok (tt, dp_solved) /\
  forall p1 p2 spin1 : nat,
    (p1 <= 20)%nat -> (p2 <= 20)%nat -> (spin1 <= 19)%nat ->
    third_player_optimal_policy machine dp_solved p1 p2 (S spin1) =
    Ok (if third_player_rule p1 p2 (S spin1) then one else zero).
Proof.
  split; [exact main_machine|].
  assert (H : upto 20 (fun p1 => upto 20 (fun p2 => upto 19 (fun s =>
            match third_player_optimal_policy machine dp_solved p1 p2 (S s) with
            | Ok f => op_eq f (if third_player_rule p1 p2 (S s) then one else zero)
            | Fail _ => false
            end))) = true) by (vm_compute; reflexivity).
  intros p1 p2 s H1 H2 H3.
  pose proof (upto_spec _ _ (upto_spec _ _ (upto_spec _ _ H p1 H1) p2 H2) s H3) as K.
  cbv beta in K.
  destruct (third_player_optimal_policy machine dp_solved p1 p2 (S s)) as [f|e];
    [|discriminate].
  apply op_eq_true in K. rewrite K. reflexivity.
Qed.

Lemma third_player_decisions_witness :
  third_player_optimal_policy machine dp_solved 12%nat 12%nat 13%nat =
  Ok (if third_player_rule 12 12 13 then one else zero).
Proof. apply (proj2 third_player_decisions 12%nat 12%nat 12%nat); lia. Defined.


(** X17.  In the run of [main], the 2nd player's optimal policy is a
    threshold on the first spin: spin again up to 10 when the 1st player
    holds at most 10, up to the 1st player's total when it is 11 to 13,
    and only below it from 14 on. *)
Theorem second_player_decisions :
  DynamicProgramming.main machine = Ok (tt, dp_solved) /\
  forall p1 spin1 : nat,
    (p1 <= 20)%nat -> (spin1 <= 19)%nat ->
    second_player_optimal_policy machine dp_solved p1 (S spin1) =
    Ok (if (S spin1 <=? second_player_threshold p1)%nat then one else zero).
Proof.
  split; [exact main_machine|].
  assert (H : upto 20 (fun p1 => upto 19 (fun s =>
            match second_player_optimal_policy machine dp_solved p1 (S s) with
            | Ok f => op_eq f (if (S s <=? second_player_threshold p1)%nat
                               then one else zero)
            | Fail _ => false
            end)) = true) by (vm_compute; reflexivity).
  intros p1 s H1 H2.
  pose proof (upto_spec _ _ (upto_spec _ _ H p1 H1) s H2) as K. cbv beta in K.
  destruct (second_player_optimal_policy machine dp_solved p1 (S s)) as [f|e];
    [|discriminate].
  apply op_eq_true in K. rewrite K. reflexivity.
Qed.

Lemma second_player_decisions_witness :
  second_player_optimal_policy machine dp_solved 12%nat 12%nat =
  Ok (if (12 <=? second_player_threshold 12)%nat then one else zero).
Proof. apply (proj2 second_player_decisions 12%nat 11%nat); lia. Defined.


(** X18.  In the run of [main], the 1st player's policy answers the
    opposite of the 1st player's interest at every first spin: it says
    "spin again" from 14 on, while the 1st player's own entry of
    [first_player_probability] is strictly higher with a second spin
    exactly up to 13. *)
Theorem first_player_decisions_inverted :
  DynamicProgramming.main machine = Ok (tt, dp_solved) /\
  forall spin1 : nat, (spin1 <= 19)%nat ->
    first_player_optimal_policy machine dp_solved (S spin1) =
      Ok (if (14 <=? S spin1)%nat then one else zero) /\
    op_gt machine (at3 (first_player_probability dp_solved) (S spin1) 1 0)
                  (at3 (first_player_probability dp_solved) (S spin1) 0 0) =
      Ok (S spin1 <=? 13)%nat.
Proof.
  split; [exact main_machine|].
  assert (H : upto 19 (fun s =>
            match first_player_optimal_policy machine dp_solved (S s),
                  op_gt machine (at3 (first_player_probability dp_solved) (S s) 1 0)
                                (at3 (first_player_probability dp_solved) (S s) 0 0) with
            | Ok f, Ok b => op_eq f (if (14 <=? S s)%nat then one else zero) &&
                            Bool.eqb b (S s <=? 13)%nat
            | _, _ => false
            end) = true) by (vm_compute; reflexivity).
  intros s Hs. pose proof (upto_spec _ _ H s Hs) as K. cbv beta in K.
  destruct (first_player_optimal_policy machine dp_solved (S s)) as [f|e];
    [|discriminate].
  destruct (op_gt machine _ _) as [b|e]; [|discriminate].
  apply andb_true_iff in K. destruct K as [K1 K2].
  apply op_eq_true in K1. apply Bool.eqb_prop in K2. rewrite K1, K2. split; reflexivity.
Qed.

Lemma first_player_decisions_inverted_witness :
  first_player_optimal_policy machine dp_solved 14%nat =
    Ok (if (14 <=? 14)%nat then one else zero) /\
  op_gt machine (at3 (first_player_probability dp_solved) 14 1 0)
                (at3 (first_player_probability dp_solved) 14 0 0) =
    Ok (14 <=? 13)%nat.
Proof. apply (proj2 first_player_decisions_inverted 13%nat); lia. Defined.


(** X19.  The 3rd player's options treat the two earlier players alike:
    exchanging their totals exchanges their entries and keeps the 3rd
    player's. *)
Theorem third_table_symmetric :
  DynamicProgramming.third_player_options machine initial_globals = Ok (tt, dp_third) /\
  forall p1 p2 spin spinAgain : nat,
    (p1 <= 20)%nat -> (p2 <= 20)%nat -> (spin <= 20)%nat -> (spinAgain <= 1)%nat ->
    at5 (third_player_probability dp_third) p1 p2 spin spinAgain 0 =
      at5 (third_player_probability dp_third) p2 p1 spin spinAgain 1 /\
    at5 (third_player_probability dp_third) p1 p2 spin spinAgain 2 =
      at5 (third_player_probability dp_third) p2 p1 spin spinAgain 2.
Proof.
  split; [exact third_options_machine|].
  assert (H : upto 20 (fun p1 => upto 20 (fun p2 => upto 20 (fun s => upto 1 (fun sa =>
            let t := third_player_probability dp_third in
            op_eq (at5 t p1 p2 s sa 0) (at5 t p2 p1 s sa 1) &&
            op_eq (at5 t p1 p2 s sa 2) (at5 t p2 p1 s sa 2))))) = true)
    by (vm_compute; reflexivity).
  intros p1 p2 s sa H1 H2 H3 H4.
  pose proof (upto_spec _ _ (upto_spec _ _ (upto_spec _ _ (upto_spec _ _ H p1 H1)
                p2 H2) s H3) sa H4) as K.
  cbv beta zeta in K. apply andb_true_iff in K. destruct K as [K1 K2].
  split; apply op_eq_true; assumption.
Qed.

Lemma third_table_symmetric_witness :
  at5 (third_player_probability dp_third) 12 7 9 1 0 =
    at5 (third_player_probability dp_third) 7 12 9 1 1 /\
  at5 (third_player_probability dp_third) 12 7 9 1 2 =
    at5 (third_player_probability dp_third) 7 12 9 1 2.
Proof. apply (proj2 third_table_symmetric 12%nat 7%nat 9%nat 1%nat); lia. Defined.


(** X20.  The two versions of the solver disagree where the two earlier
    players tie above the 3rd player's total: [dynamic_programming.cpp]
    gives each of them 1/2, the later version gives the 1st player
    everything. *)
Theorem earlier_tie_differs (p spin : nat) (g : globals) :
  (spin < p)%nat ->
  (exists g',
     DynamicProgramming.third_player_options_at machine p p spin 0 g = Ok (tt, g') /\
     at5 (third_player_probability g') p p spin 0 0 = one_half /\
     at5 (third_player_probability g') p p spin 0 1 = one_half /\
     at5 (third_player_probability g') p p spin 0 2 = zero) /\
  (exists g',
     Simulation.third_player_options_at machine p p spin 0 g = Ok (tt, g') /\
     at5 (third_player_probability g') p p spin 0 0 = one /\
     at5 (third_player_probability g') p p spin 0 1 = zero /\
     at5 (third_player_probability g') p p spin 0 2 = zero).
Proof.
  intros Hlt.
  assert (E1 : (p <? spin)%nat = false) by (apply Nat.ltb_ge; lia).
  assert (E2 : (spin =? p)%nat = false) by (apply Nat.eqb_neq; lia).
  assert (E3 : (spin <? p)%nat = true) by (apply Nat.ltb_lt; lia).
  assert (F12 : Fraction_ machine 1 2 = Ok one_half) by (vm_compute; reflexivity).
  assert (S10 : op_sub machine one zero = Ok one) by (vm_compute; reflexivity).
  assert (M12 : op_mul machine one_half one = Ok one_half) by (vm_compute; reflexivity).
  assert (Z0 : zero_wins machine = Ok (zero, zero, zero)) by (vm_compute; reflexivity).
  assert (S1 : sums_to_one machine one zero zero = Ok true) by (vm_compute; reflexivity).
  split.
  - unfold DynamicProgramming.third_player_options_at,
      DynamicProgramming.win_prob_player3.
    cbn [Nat.eqb]. rewrite Nat.max_id, E1, E2, Nat.eqb_refl. cbn [andb].
    unfold bind, lift, write, read.
    rewrite Fraction_zero_machine, F12, Fraction_one_machine, S10, M12.
    eexists. split; [reflexivity|].
    cbn [third_player_probability with_third].
    rewrite !at5_put5, !Nat.eqb_refl. cbn [andb Nat.eqb]. auto.
  - unfold Simulation.third_player_options_at, Simulation.third_player_wins.
    cbn [Nat.eqb]. rewrite Nat.max_id, E1, E3, Nat.leb_refl, Z0, obind_Ok.
    rewrite Fraction_one_machine, obind_Ok.
    unfold Simulation.set_winner, assert_wins, bind, lift, write, assert.
    cbn [Nat.eqb fst snd]. rewrite S1.
    eexists. split; [reflexivity|].
    cbn [third_player_probability with_third].
    rewrite !at5_put5, !Nat.eqb_refl. cbn [andb Nat.eqb]. auto.
Qed.

Lemma earlier_tie_differs_witness :
  (exists g',
     DynamicProgramming.third_player_options_at machine 15 15 8 0 initial_globals
       = Ok (tt, g') /\
     at5 (third_player_probability g') 15 15 8 0 0 = one_half /\
     at5 (third_player_probability g') 15 15 8 0 1 = one_half /\
     at5 (third_player_probability g') 15 15 8 0 2 = zero) /\
  (exists g',
     Simulation.third_player_options_at machine 15 15 8 0 initial_globals
       = Ok (tt, g') /\
     at5 (third_player_probability g') 15 15 8 0 0 = one /\
     at5 (third_player_probability g') 15 15 8 0 1 = zero /\
     at5 (third_player_probability g') 15 15 8 0 2 = zero).
Proof.
  apply (earlier_tie_differs 15 8 initial_globals). lia.
Defined.

(** X21.  In the run of [main] a player who has busted wins against
    nobody who has not: with the 1st player on 0 the 1st player's entry
    of the 3rd player's collapsed table is 0 whatever the 2nd holds, and
    likewise for the 2nd player; so is the 1st player's entry of the 2nd
    player's collapsed table, and the entry for a second spin after a 20. *)
Theorem busted_player_never_wins :
  DynamicProgramming.main machine = Ok (tt, dp_solved) /\
  (forall p : nat, (p <= 20)%nat ->
     at3 (third_player_policy_probability dp_solved) 0 p 0 = zero /\
     at3 (third_player_policy_probability dp_solved) p 0 1 = zero) /\
  at2 (second_player_policy_probability dp_solved) 0 0 = zero /\
  at3 (first_player_probability dp_solved) 20 1 0 = zero.
Proof.
  split; [exact main_machine|]. split; [|split; vm_compute; reflexivity].
  assert (H : upto 20 (fun p =>
            op_eq (at3 (third_player_policy_probability dp_solved) 0 p 0) zero &&
            op_eq (at3 (third_player_policy_probability dp_solved) p 0 1) zero) = true)
    by (vm_compute; reflexivity).
  intros p Hp. pose proof (upto_spec _ _ H p Hp) as K. cbv beta in K.
  apply andb_true_iff in K. destruct K as [K1 K2].
  split; apply op_eq_true; assumption.
Qed.

Lemma busted_player_never_wins_witness :
  at3 (third_player_policy_probability dp_solved) 0 9 0 = zero /\
  at3 (third_player_policy_probability dp_solved) 9 0 1 = zero.
Proof. apply (proj1 (proj2 busted_player_never_wins) 9%nat); lia. Defined.


(** ** Where the two collapses agree *)

Lemma constructor_fixpoint (f : Fraction) :
  canonical f -> negatable (numerator f) -> negatable (denominator f) ->
  Fraction_ machine (numerator f) (denominator f) = Ok f.
Proof.
  intros C Rn Rd. unfold Fraction_.
  replace (mkFraction (numerator f) (denominator f)) with f by (destruct f; reflexivity).
  apply simplify_fixpoint; assumption.
Qed.

Lemma mul_by_zero (f : Fraction) :
  small f -> op_mul machine zero f = Ok zero.
Proof.
  intros Hf. apply small_bounds in Hf. destruct Hf as [[D1 D2] _].
  unfold op_mul, machine, zero. cbn [numerator denominator]. rewrite !obind_Ok.
  rewrite Z.mul_0_l, Z.mul_1_l.
  rewrite (wrap64_negatable 0), (wrap64_negatable (denominator f))
    by (unfold negatable, LLONG_MAX; lia).
  unfold Fraction_, simplify. cbn [numerator denominator].
  destruct (Z.eqb_spec (denominator f) 0); [lia|]. reflexivity.
Qed.

Lemma mul_by_one (f : Fraction) :
  canonical f -> small f -> op_mul machine one f = Ok f.
Proof.
  intros Cf Hf. apply small_bounds in Hf. destruct Hf as [[D1 D2] [N1 N2]].
  unfold op_mul, machine, one. cbn [numerator denominator]. rewrite !obind_Ok.
  rewrite !Z.mul_1_l.
  rewrite (wrap64_negatable (numerator f)), (wrap64_negatable (denominator f))
    by (unfold negatable, LLONG_MAX; lia).
  apply constructor_fixpoint; [exact Cf| |]; unfold negatable, LLONG_MAX; lia.
Qed.

Lemma add_zero_l (f : Fraction) :
  canonical f -> small f -> op_add machine zero f = Ok f.
Proof.
  intros Cf Hf. apply small_bounds in Hf. destruct Hf as [[D1 D2] [N1 N2]].
  unfold op_add, machine, zero. cbn [numerator denominator]. rewrite !obind_Ok.
  rewrite Z.mul_0_l, Z.mul_1_r, Z.mul_1_l.
  rewrite (wrap64_negatable 0), (wrap64_negatable (numerator f)),
    (wrap64_negatable (denominator f)) by (unfold negatable, LLONG_MAX; lia).
  rewrite Z.add_0_l, (wrap64_negatable (numerator f))
    by (unfold negatable, LLONG_MAX; lia).
  apply constructor_fixpoint; [exact Cf| |]; unfold negatable, LLONG_MAX; lia.
Qed.

Lemma add_zero_r (f : Fraction) :
  canonical f -> small f -> op_add machine f zero = Ok f.
Proof.
  intros Cf Hf. apply small_bounds in Hf. destruct Hf as [[D1 D2] [N1 N2]].
  unfold op_add, machine, zero. cbn [numerator denominator]. rewrite !obind_Ok.
  rewrite Z.mul_0_l, !Z.mul_1_r.
  rewrite (wrap64_negatable 0), (wrap64_negatable (numerator f)),
    (wrap64_negatable (denominator f)) by (unfold negatable, LLONG_MAX; lia).
  rewrite Z.add_0_r, (wrap64_negatable (numerator f))
    by (unfold negatable, LLONG_MAX; lia).
  apply constructor_fixpoint; [exact Cf| |]; unfold negatable, LLONG_MAX; lia.
Qed.

(** X22.  For the two weights that a deterministic policy can give to
    skipping the first spin, the later version's collapsed entry
    ([weight * noplay], then [+= (Fraction(1, 1) - weight) * integrated])
    is the entry that [dynamic_programming.cpp] selects: with weight 0 the
    integrated outcome, with weight 1 the outcome of not playing. *)
Theorem collapsed_entry_at_zero_and_one (noplay integrated : Fraction) :
  canonical noplay -> small noplay -> canonical integrated -> small integrated ->
  (let! x := op_mul machine zero noplay in
   Simulation.add_played machine zero integrated x) = Ok integrated /\
  (let! x := op_mul machine one noplay in
   Simulation.add_played machine one integrated x) = Ok noplay.
Proof.
  intros Cn Sn Ci Si.
  assert (S10 : op_sub machine one zero = Ok one) by (vm_compute; reflexivity).
  assert (S11 : op_sub machine one one = Ok zero) by (vm_compute; reflexivity).
  unfold Simulation.add_played. split.
  - rewrite (mul_by_zero _ Sn), obind_Ok, Fraction_one_machine, obind_Ok, S10, obind_Ok.
    rewrite (mul_by_one _ Ci Si), obind_Ok. apply add_zero_l; assumption.
  - rewrite (mul_by_one _ Cn Sn), obind_Ok, Fraction_one_machine, obind_Ok, S11, obind_Ok.
    rewrite (mul_by_zero _ Si), obind_Ok. apply add_zero_r; assumption.
Qed.

Lemma collapsed_entry_at_zero_and_one_witness :
  (let! x := op_mul machine zero one_third in
   Simulation.add_played machine zero (mkFraction 7 20) x) = Ok (mkFraction 7 20) /\
  (let! x := op_mul machine one one_third in
   Simulation.add_played machine one (mkFraction 7 20) x) = Ok one_third.
Proof.
  apply (collapsed_entry_at_zero_and_one one_third (mkFraction 7 20));
    unfold canonical, small, bound30; simpl; repeat split; try lia; reflexivity.
Defined.

(** X23.  [operator+] and [operator*] are commutative as computed, also
    when a product wraps around. *)
Theorem addition_and_product_commute (a b : Fraction) :
  op_add machine a b = op_add machine b a /\
  op_mul machine a b = op_mul machine b a.
Proof.
  unfold op_add, op_mul, machine. rewrite !obind_Ok. split.
  - rewrite (Z.add_comm (wrap64 (numerator a * denominator b))).
    rewrite (Z.mul_comm (denominator a)). reflexivity.
  - rewrite (Z.mul_comm (numerator a)), (Z.mul_comm (denominator a)). reflexivity.
Qed.

(** ** The run of the later version's [main] *)

(** X24.  The solving part of the later version's [main] returns: every
    assertion of its pass holds.  It prints 3119339/48000000,
    33253571/76800000 and 192777433/384000000, each different from the
    rate that [dynamic_programming.cpp] prints for the same player. *)
Theorem later_version_rates :
  Simulation.main machine = Ok (tt, sim_solved) /\
  first_player_policy_probability sim_solved =
    [mkFraction 3119339 48000000; mkFraction 33253571 76800000;
     mkFraction 192777433 384000000] /\
  DynamicProgramming.main machine = Ok (tt, dp_solved) /\
  forall k : nat, (k <= 2)%nat ->
    at1 (first_player_policy_probability sim_solved) k <>
    at1 (first_player_policy_probability dp_solved) k.
Proof.
  split; [vm_compute; reflexivity|].
  split; [vm_compute; reflexivity|].
  split; [exact main_machine|].
  intros k Hk.
  destruct k as [|[|[|k]]]; [| | |lia]; vm_compute; discriminate.
Qed.

Lemma later_version_rates_witness :
  at1 (first_player_policy_probability sim_solved) 0 <>
  at1 (first_player_policy_probability dp_solved) 0.
Proof. apply (proj2 (proj2 (proj2 later_version_rates)) 0%nat). lia. Defined.
